(** * L-QLES driver: a shallow embedding of [l-qles.py]

    The driver reads its command line ([read_args]), asks the mesh, matrix,
    reorder, save and plot modules for their parts, solves the linear system
    and reports.  The embedding keeps the driver's control flow and data flow:
    - Python's [getopt] module is modelled function by function;
    - printing, process exit, exceptions and the calls to the other modules
      are effects of a small trace-and-outcome monad;
    - the other modules ([mesh], [matvec], [reorder], [save], [plot]) and the
      numerical kernels of SciPy are collaborators, gathered in a record. *)

From Stdlib Require Import List String Ascii Bool ZArith Lia Sorted Permutation.
Import ListNotations.

Local Open Scope string_scope.
Local Open Scope list_scope.

(** Python's [+] on strings; [++] stays list concatenation. *)
Infix "+++" := String.append (right associativity, at level 60).

(** ** Python strings *)

Module PyStr.

Definition nl : string := String (ascii_of_nat 10) "".
Definition tab : string := String (ascii_of_nat 9) "".

(** [s.startswith(p)] *)
Fixpoint startswith (p s : string) : bool :=
  match p, s with
  | EmptyString, _ => true
  | String _ _, EmptyString => false
  | String a p', String b s' => Ascii.eqb a b && startswith p' s'
  end.

(** [s.endswith(c)] for a one-character suffix *)
Fixpoint endswith_char (c : ascii) (s : string) : bool :=
  match s with
  | EmptyString => false
  | String a EmptyString => Ascii.eqb a c
  | String _ s' => endswith_char c s'
  end.

(** [s[n:]] *)
Fixpoint drop (n : nat) (s : string) : string :=
  match n, s with
  | O, _ => s
  | S _, EmptyString => EmptyString
  | S n', String _ s' => drop n' s'
  end.

(** [s[:-1]] *)
Fixpoint drop_last (s : string) : string :=
  match s with
  | EmptyString => EmptyString
  | String _ EmptyString => EmptyString
  | String a s' => String a (drop_last s')
  end.

(** [s.index(c)] with [ValueError] as [None]; on success the pair
    [(s[:i], s[i+1:])] that the caller slices out. *)
Fixpoint split_at_char (c : ascii) (s : string) : option (string * string) :=
  match s with
  | EmptyString => None
  | String a s' =>
      if Ascii.eqb a c then Some (EmptyString, s')
      else match split_at_char c s' with
           | Some (l, r) => Some (String a l, r)
           | None => None
           end
  end.

(** [x in (a, b, ...)] on strings *)
Definition mem (x : string) (l : list string) : bool :=
  existsb (String.eqb x) l.

End PyStr.

(** ** Python's [getopt] module

    [getopt.getopt(args, shortopts, longopts)] of the standard library, with
    its helpers [do_shorts], [short_has_arg], [do_longs], [long_has_args].
    [GetoptError] carries the message and the offending option. *)

Module PyGetopt.
Import PyStr.

Inductive outcome (A : Type) : Type :=
| Ok (a : A)
| GetoptError (msg : string) (opt : string).
Arguments Ok {A} a.
Arguments GetoptError {A} msg opt.

Definition optlist := list (string * string).

(** [for i in range(len(shortopts)): if opt == shortopts[i] != ':':
       return shortopts.startswith(':', i+1)]; falling out of the loop
    raises. *)
Fixpoint short_has_arg (opt : ascii) (shortopts : string) : outcome bool :=
  match shortopts with
  | EmptyString =>
      GetoptError ("option -" +++ String opt "" +++ " not recognized") (String opt "")
  | String c rest =>
      if Ascii.eqb opt c && negb (Ascii.eqb c ":")
      then Ok (startswith ":" rest)
      else short_has_arg opt rest
  end.

(** [while optstring != '': ...]: one option letter per iteration; a letter
    that takes an argument swallows the rest of [optstring], or the next
    element of [args] when nothing is left. *)
Fixpoint do_shorts (opts : optlist) (optstring : string) (shortopts : string)
         (args : list string) : outcome (optlist * list string) :=
  match optstring with
  | EmptyString => Ok (opts, args)
  | String opt optstring' =>
      match short_has_arg opt shortopts with
      | GetoptError m o => GetoptError m o
      | Ok true =>
          match optstring' with
          | EmptyString =>
              match args with
              | [] => GetoptError ("option -" +++ String opt "" +++ " requires argument")
                                  (String opt "")
              | a :: args' => Ok (opts ++ [("-" +++ String opt "", a)], args')
              end
          | _ => Ok (opts ++ [("-" +++ String opt "", optstring')], args)
          end
      | Ok false => do_shorts (opts ++ [("-" +++ String opt "", "")]) optstring' shortopts args
      end
  end.

(** Returns (has_arg, full option name). *)
Definition long_has_args (opt : string) (longopts : list string)
  : outcome (bool * string) :=
  let possibilities := filter (fun o => startswith opt o) longopts in
  match possibilities with
  | [] => GetoptError ("option --" +++ opt +++ " not recognized") opt
  | _ =>
      if mem opt possibilities then Ok (false, opt)
      else if mem (opt +++ "=") possibilities then Ok (true, opt)
      else match possibilities with
           | [unique_match] =>
               let has_arg := endswith_char "=" unique_match in
               Ok (has_arg, if has_arg then drop_last unique_match else unique_match)
           | _ => GetoptError ("option --" +++ opt +++ " not a unique prefix") opt
           end
  end.

Definition do_longs (opts : optlist) (opt : string) (longopts : list string)
           (args : list string) : outcome (optlist * list string) :=
  let '(opt, optarg) :=
    match split_at_char "=" opt with
    | None => (opt, None)
    | Some (l, r) => (l, Some r)
    end in
  match long_has_args opt longopts with
  | GetoptError m o => GetoptError m o
  | Ok (has_arg, opt) =>
      if has_arg then
        match optarg with
        | None =>
            match args with
            | [] => GetoptError ("option --" +++ opt +++ " requires argument") opt
            | a :: args' => Ok (opts ++ [("--" +++ opt, a)], args')
            end
        | Some v => Ok (opts ++ [("--" +++ opt, v)], args)
        end
      else
        match optarg with
        | Some _ => GetoptError ("option --" +++ opt +++ " must not have an argument") opt
        | None => Ok (opts ++ [("--" +++ opt, "")], args)
        end
  end.

(** The main loop, [while args and args[0].startswith('-') and args[0] != '-'].
    Every iteration removes at least [args[0]], so [length args] iterations
    are enough; [fuel] counts them. *)
Fixpoint getopt_loop (fuel : nat) (opts : optlist) (args : list string)
         (shortopts : string) (longopts : list string)
  : outcome (optlist * list string) :=
  match fuel with
  | O => Ok (opts, args)
  | S fuel' =>
      match args with
      | [] => Ok (opts, args)
      | a0 :: rest =>
          if startswith "-" a0 && negb (String.eqb a0 "-") then
            if String.eqb a0 "--" then Ok (opts, rest)
            else
              match (if startswith "--" a0
                     then do_longs opts (drop 2 a0) longopts rest
                     else do_shorts opts (drop 1 a0) shortopts rest) with
              | GetoptError m o => GetoptError m o
              | Ok (opts', args') => getopt_loop fuel' opts' args' shortopts longopts
              end
          else Ok (opts, args)
      end
  end.

Definition getopt (args : list string) (shortopts : string) (longopts : list string)
  : outcome (optlist * list string) :=
  getopt_loop (List.length args) [] args shortopts longopts.

(** Putting the options [pre] in front of those of a result. *)
Definition prepend {A} (pre : optlist) (r : outcome (optlist * A)) : outcome (optlist * A) :=
  match r with
  | Ok (opts, a) => Ok (pre ++ opts, a)
  | GetoptError m o => GetoptError m o
  end.

End PyGetopt.

(** ** Effects: output trace, process exit, exceptions *)

Module Eff.

Inductive result (A : Type) : Type :=
| Ret (a : A)                  (* normal completion *)
| Exit (code : option Z)       (* [sys.exit(code)]; [sys.exit()] is [Exit None] *)
| Raise (exc : string).        (* an uncaught exception *)
Arguments Ret {A} a.
Arguments Exit {A} code.
Arguments Raise {A} exc.

(** A computation: the events it produced, in order, and how it ended. *)
Definition M (Ev A : Type) : Type := (list Ev * result A)%type.

Definition ret {Ev A} (a : A) : M Ev A := ([], Ret a).

Definition bind {Ev A B} (m : M Ev A) (f : A -> M Ev B) : M Ev B :=
  match m with
  | (tr, Ret a) => let (tr', r) := f a in (tr ++ tr', r)
  | (tr, Exit c) => (tr, Exit c)
  | (tr, Raise e) => (tr, Raise e)
  end.

Definition emit {Ev} (e : Ev) : M Ev unit := ([e], Ret tt).
Definition sys_exit {Ev A} (code : option Z) : M Ev A := ([], Exit code).
Definition raise {Ev A} (exc : string) : M Ev A := ([], Raise exc).

(** Running a computation over one event type inside another. *)
Definition lift {Ev Ev' A} (inj : Ev -> Ev') (m : M Ev A) : M Ev' A :=
  (map inj (fst m), snd m).

(** The status the process ends with when the computation is the whole
    program: 0 on normal completion and on [sys.exit()], the given code on
    [sys.exit(n)], 1 on an uncaught exception. *)
Definition exit_status {Ev A} (m : M Ev A) : Z :=
  match snd m with
  | Ret _ => 0
  | Exit None => 0
  | Exit (Some n) => n
  | Raise _ => 1
  end.

End Eff.

Declare Scope eff_scope.
Delimit Scope eff_scope with eff.
Notation "x <- c1 ;; c2" := (Eff.bind c1 (fun x => c2))
  (at level 61, c1 at next level, right associativity) : eff_scope.
Notation "' pat <- c1 ;; c2" := (Eff.bind c1 (fun x => match x with pat => c2 end))
  (at level 61, pat pattern, c1 at next level, right associativity) : eff_scope.
Notation "c1 ;; c2" := (Eff.bind c1 (fun _ => c2))
  (at level 61, right associativity) : eff_scope.

(** ** The file system, as far as [os.path.isfile] looks at it *)

Module Os.

Record filesystem : Type := { regular_files : list string }.

(** [os.path.isfile(path)]: true when [path] names an existing regular
    file.  [stat] of the empty path fails with ENOENT, so the empty path is
    never a file. *)
Definition isfile (fs : filesystem) (path : string) : bool :=
  negb (String.eqb path "") && PyStr.mem path (regular_files fs).

End Os.

(** ** [read_args]: the command line *)

Module Cli.
Import PyStr PyGetopt Eff.
Local Open Scope eff_scope.

(** The tuple [read_args] returns:
    [inputfile, mplot, splot, cut3d, degen, eigen, order, psplt]. *)
Record config : Type := Config {
  inputfile : string;
  mplot : bool;
  splot : bool;
  cut3d : string;
  degen : bool;
  eigen : bool;
  order : bool;
  psplt : bool
}.

(** The initial values of the locals of [read_args]. *)
Definition defaults : config :=
  {| inputfile := ""; mplot := false; splot := false; cut3d := "x";
     degen := false; eigen := false; order := false; psplt := false |}.

(** Standard output, one event per [print] call. *)
Definition print (line : string) : M string unit := emit line.

Definition usage_error : list string :=
  [ nl +++ "usage error, use:";
    tab +++ "laplace.py -h for help" +++ nl ].

Definition help_text : list string :=
  [ nl +++ "usage:";
    tab +++ "l-qles.py -i <input file> {-c <x,y,z>} {-d} {-e} {-h} {-j} {-m} {-r} {-s}" +++ nl;
    tab +++ tab +++ "-i {name of input file}";
    tab +++ tab +++ "-c {x,y,z} cut slice of 3D solution to be plotted, default = x";
    tab +++ tab +++ "-d allow degnerate matrices, default = False";
    tab +++ tab +++ "-e calculate eigenvalues and condition number, default = False";
    tab +++ tab +++ "-h help menu";
    tab +++ tab +++ "-j split plots into separate windows for saving, default is single window";
    tab +++ tab +++ "-m plot matrix, default = False";
    tab +++ tab +++ "-r reorder matrix and RHS to use shell ordering of mesh, default = False";
    tab +++ tab +++ "-s plot solutons and mesh, default = False" ].

Fixpoint print_all (lines : list string) : M string unit :=
  match lines with
  | [] => ret tt
  | l :: ls => print l ;; print_all ls
  end.

(** The body of [for opt, arg in opts:], one [if]/[elif] chain. *)
Definition handle_opt (c : config) (opt arg : string) : M string config :=
  if String.eqb opt "-h" then
    print_all help_text ;; sys_exit None
  else if mem opt ["-c"; "--c"] then
    ret {| inputfile := inputfile c; mplot := mplot c; splot := splot c; cut3d := arg;
           degen := degen c; eigen := eigen c; order := order c; psplt := psplt c |}
  else if mem opt ["-d"; "--d"] then
    ret {| inputfile := inputfile c; mplot := mplot c; splot := splot c; cut3d := cut3d c;
           degen := true; eigen := eigen c; order := order c; psplt := psplt c |}
  else if mem opt ["-e"; "--e"] then
    ret {| inputfile := inputfile c; mplot := mplot c; splot := splot c; cut3d := cut3d c;
           degen := degen c; eigen := true; order := order c; psplt := psplt c |}
  else if mem opt ["-i"; "--i"] then
    ret {| inputfile := arg; mplot := mplot c; splot := splot c; cut3d := cut3d c;
           degen := degen c; eigen := eigen c; order := order c; psplt := psplt c |}
  else if mem opt ["-m"; "--m"] then
    ret {| inputfile := inputfile c; mplot := true; splot := splot c; cut3d := cut3d c;
           degen := degen c; eigen := eigen c; order := order c; psplt := psplt c |}
  else if mem opt ["-j"; "--j"] then
    ret {| inputfile := inputfile c; mplot := mplot c; splot := splot c; cut3d := cut3d c;
           degen := degen c; eigen := eigen c; order := order c; psplt := true |}
  else if mem opt ["-r"; "--r"] then
    ret {| inputfile := inputfile c; mplot := mplot c; splot := splot c; cut3d := cut3d c;
           degen := degen c; eigen := eigen c; order := true; psplt := psplt c |}
  else if mem opt ["-s"; "--s"] then
    ret {| inputfile := inputfile c; mplot := mplot c; splot := true; cut3d := cut3d c;
           degen := degen c; eigen := eigen c; order := order c; psplt := psplt c |}
  else ret c.

Fixpoint for_opts (opts : optlist) (c : config) : M string config :=
  match opts with
  | [] => ret c
  | (opt, arg) :: opts' => c' <- handle_opt c opt arg ;; for_opts opts' c'
  end.

Definition shortopts : string := "hmsdejri:c:".
Definition longopts : list string := ["i="; "c="].

Definition read_args (fs : Os.filesystem) (argv : list string) : M string config :=
  match getopt argv shortopts longopts with
  | GetoptError _ _ =>
      print_all usage_error ;; sys_exit (Some 2%Z)
  | Ok (opts, args) =>
      c <- for_opts opts defaults ;;
      if negb (Os.isfile fs (inputfile c)) then
        print (nl +++ "file " +++ inputfile c +++ " does not exist" +++ nl) ;;
        sys_exit (Some 3%Z)
      else ret c
  end.

(** *** Reading an option list *)

(** [-h] is among the parsed options. *)
Definition has_help (opts : optlist) : bool :=
  existsb (fun p => String.eqb (fst p) "-h") opts.

(** The input file the options name: the argument of the last [-i] or
    [--i], the empty path when there is none. *)
Definition named_input (opts : optlist) : string :=
  fold_left (fun acc p => if mem (fst p) ["-i"; "--i"] then snd p else acc) opts "".

Definition names_input (opts : optlist) : bool :=
  existsb (fun p => mem (fst p) ["-i"; "--i"]) opts.

Definition names_cut (opts : optlist) : bool :=
  existsb (fun p => mem (fst p) ["-c"; "--c"]) opts.

Definition set_cut3d (v : string) (c : config) : config :=
  {| inputfile := inputfile c; mplot := mplot c; splot := splot c; cut3d := v;
     degen := degen c; eigen := eigen c; order := order c; psplt := psplt c |}.

Definition missing_file_message (path : string) : string :=
  nl +++ "file " +++ path +++ " does not exist" +++ nl.

(** The four ways a command line supplies the value [v] to the cut option in
    front of the arguments [rest]: [-c v], [-cv], [--c v] and [--c=v]. *)
Inductive supplies_cut (v : string) (rest : list string) : list string -> Prop :=
| cut_short_separate : supplies_cut v rest ("-c" :: v :: rest)
| cut_short_attached : v <> "" -> supplies_cut v rest (("-c" +++ v) :: rest)
| cut_long_separate : supplies_cut v rest ("--c" :: v :: rest)
| cut_long_attached : supplies_cut v rest (("--c=" +++ v) :: rest).

(** *** The shape of a command line *)

(** The names [getopt] can give an option with [shortopts] and [longopts]. *)
Definition option_names : list string :=
  ["-h"; "-m"; "-s"; "-d"; "-e"; "-j"; "-r"; "-i"; "-c"; "--i"; "--c"].

(** The option [name] is among the parsed options. *)
Definition given (name : string) (opts : optlist) : bool :=
  existsb (fun p => String.eqb (fst p) name) opts.

(** The argument of the last option among [names], [default] without one. *)
Definition last_value (names : list string) (default : string) (opts : optlist) : string :=
  fold_left (fun acc p => if mem (fst p) names then snd p else acc) opts default.

(** The letters of [shortopts] without a colon after them, and those with
    one. *)
Definition is_flag (ch : ascii) : bool :=
  existsb (Ascii.eqb ch) ["h"; "m"; "s"; "d"; "e"; "j"; "r"]%char.

Definition takes_value (ch : ascii) : bool :=
  existsb (Ascii.eqb ch) ["i"; "c"]%char.

Fixpoint flags_only (s : string) : bool :=
  match s with
  | EmptyString => true
  | String ch s' => is_flag ch && flags_only s'
  end.

(** One pair per letter of a bundle of flags. *)
Fixpoint flag_opts (s : string) : optlist :=
  match s with
  | EmptyString => []
  | String ch s' => ("-" +++ String ch "", "") :: flag_opts s'
  end.

(** Command lines made of whole options, with the options they stand for:
    bundles of flags ([-rem]), a value option at the end of a bundle with its
    value in the next argument ([-ri mesh]) or attached ([-rimesh]), and the
    long forms [--i mesh] and [--i=mesh]. *)
Inductive option_words : list string -> optlist -> Prop :=
| words_nil : option_words [] []
| words_flags cs ws opts :
    cs <> "" -> flags_only cs = true -> option_words ws opts ->
    option_words (("-" +++ cs) :: ws) (flag_opts cs ++ opts)
| words_short_separate cs ch v ws opts :
    flags_only cs = true -> takes_value ch = true -> option_words ws opts ->
    option_words (("-" +++ cs +++ String ch "") :: v :: ws)
                 (flag_opts cs ++ ("-" +++ String ch "", v) :: opts)
| words_short_attached cs ch v ws opts :
    flags_only cs = true -> takes_value ch = true -> v <> "" -> option_words ws opts ->
    option_words (("-" +++ cs +++ String ch v) :: ws)
                 (flag_opts cs ++ ("-" +++ String ch "", v) :: opts)
| words_long_separate ch v ws opts :
    takes_value ch = true -> option_words ws opts ->
    option_words (("--" +++ String ch "") :: v :: ws) (("--" +++ String ch "", v) :: opts)
| words_long_attached ch v ws opts :
    takes_value ch = true -> option_words ws opts ->
    option_words (("--" +++ String ch ("=" +++ v)) :: ws)
                 (("--" +++ String ch "", v) :: opts).

(** The name of a long option written [--name] or [--name=value]: [opt[:i]]
    for the first [=], all of it without one. *)
Definition long_name (body : string) : string :=
  match split_at_char "=" body with
  | Some (l, _) => l
  | None => body
  end.

(** An argument that ends the options: one that does not start with a dash,
    a lone dash, or the terminator [--]. *)
Definition ends_options (a : string) : bool :=
  negb (startswith "-" a) || String.eqb a "-" || String.eqb a "--".

(** A value option written without its value. *)
Inductive wants_value : string -> Prop :=
| wants_short cs ch :
    flags_only cs = true -> takes_value ch = true ->
    wants_value ("-" +++ cs +++ String ch "")
| wants_long ch : takes_value ch = true -> wants_value ("--" +++ String ch "").

End Cli.

(** ** NumPy arrays

    A dense vector is a list of scalars and a dense matrix the list of its
    rows.  The scalar type and its arithmetic are an interface: the driver
    never looks inside a number.  Operands are taken to be conformable, as
    NumPy requires (a mismatch is a [ValueError] there). *)

Class Scalar (T : Type) : Type := {
  zero : T;
  one : T;
  add : T -> T -> T;
  mul : T -> T -> T;
  div : T -> T -> T;
  (** [x < y] *)
  ltb : T -> T -> bool;
  (** one entry of [np.allclose]: [|x - y| <= atol + rtol * |y|] *)
  isclose : T -> T -> bool
}.

(** The laws of exact arithmetic that the algebra of permutations rests on:
    sums may be reassociated and reordered, [zero] absorbs and [one] is
    neutral in a product.  Integers, rationals and reals have them;
    floating-point addition is not associative. *)
Class Exact (T : Type) {num : Scalar T} : Prop := {
  exact_add_comm : forall x y : T, add x y = add y x;
  exact_add_assoc : forall x y z : T, add x (add y z) = add (add x y) z;
  exact_add_0_l : forall x : T, add zero x = x;
  exact_mul_comm : forall x y : T, mul x y = mul y x;
  exact_mul_0_l : forall x : T, mul zero x = zero;
  exact_mul_1_l : forall x : T, mul one x = x
}.

Module Np.
Section Arrays.
Context {T : Type} {num : Scalar T}.

Definition vector : Type := list T.
Definition matrix : Type := list (list T).

(** [np.shape(a)[0]], [a.shape[0]] *)
Definition nrows (a : matrix) : nat := List.length a.
Definition ncols (a : matrix) : nat :=
  match a with
  | [] => 0
  | r :: _ => List.length r
  end.

(** [a[i][j]] *)
Definition entry (a : matrix) (i j : nat) : T := nth j (nth i a []) zero.

(** [a] is an [n] by [m] array *)
Definition has_shape (n m : nat) (a : matrix) : Prop :=
  List.length a = n /\ Forall (fun r => List.length r = m) a.

(** [np.zeros([n, m])] *)
Definition zeros (n m : nat) : matrix := repeat (repeat zero m) n.

(** [np.identity(n)] *)
Definition identity (n : nat) : matrix :=
  map (fun i => map (fun j => if Nat.eqb i j then one else zero) (seq 0 n)) (seq 0 n).

(** Row [p] of the [n] by [n] identity. *)
Definition unit_row (n p : nat) : vector :=
  map (fun j => if Nat.eqb j p then one else zero) (seq 0 n).

(** The permutation matrix with a one at column [pi[i]] of row [i], so that
    [(Q v)[i] = v[pi[i]]]. *)
Definition perm_matrix (pi : list nat) : matrix := map (unit_row (List.length pi)) pi.

(** [np.transpose(a)] *)
Definition transpose (a : matrix) : matrix :=
  map (fun j => map (fun r => nth j r zero) a) (seq 0 (ncols a)).

Definition inner (u v : vector) : T :=
  fold_left add (map (fun p => mul (fst p) (snd p)) (combine u v)) zero.

(** [np.dot(a, v)] and [np.matmul(a, v)] for a 2-D [a] and a 1-D [v] *)
Definition dot (a : matrix) (v : vector) : vector := map (fun r => inner r v) a.
Definition matmul (a : matrix) (v : vector) : vector := map (fun r => inner r v) a.

(** [np.matmul(a, b)] for 2-D operands *)
Definition matmul2 (a b : matrix) : matrix :=
  map (fun r => map (fun c => inner r c) (transpose b)) a.

(** [np.block([[a, b], [c, d]])] *)
Definition hstack (a b : matrix) : matrix :=
  map (fun p => fst p ++ snd p) (combine a b).
Definition block (a b c d : matrix) : matrix := hstack a b ++ hstack c d.

(** [np.allclose(u, v)] on 1-D arrays *)
Definition allclose (u v : vector) : bool :=
  forallb (fun p => isclose (fst p) (snd p)) (combine u v).

(** Python's [min] and [max] over a sequence; [None] is the
    [ValueError] they raise on an empty one. *)
Definition py_min (l : list T) : option T :=
  match l with
  | [] => None
  | x :: xs => Some (fold_left (fun m v => if ltb v m then v else m) xs x)
  end.
Definition py_max (l : list T) : option T :=
  match l with
  | [] => None
  | x :: xs => Some (fold_left (fun m v => if ltb m v then v else m) xs x)
  end.

End Arrays.
Arguments vector T : clear implicits.
Arguments matrix T : clear implicits.
End Np.

(** ** The driver [laplace] *)

(** The modules the driver imports but does not define ([mesh], [matvec],
    [reorder], [save], [plot]) and the SciPy/LAPACK kernels it calls.  The
    value-returning ones are the fields below; [save] and [plot] only act, and
    appear as events.  [D] is a mesh or force descriptor (an entry of
    [rdict]), [S] a sparse matrix, [E] an eigenvalue. *)
Record collaborators (T D S E : Type) : Type := {
  parse_meshfile : string -> string * Z * list (string * D);
  generate_mesh : D -> Np.vector T;
  matvec_1d : Np.vector T -> D -> D -> bool -> Np.matrix T * Np.vector T;
  matvec_2d : Np.vector T -> Np.vector T -> D -> D -> D -> bool
              -> Np.matrix T * Np.vector T;
  matvec_3d : Np.vector T -> Np.vector T -> Np.vector T -> D -> D -> D -> D -> bool
              -> Np.matrix T * Np.vector T;
  (** [reorder(a, b, nx, ny, nz)] returns [q, a, b] *)
  reorder : Np.matrix T -> Np.vector T -> Z -> Z -> Z
            -> Np.matrix T * Np.matrix T * Np.vector T;
  csr_matrix : Np.matrix T -> S;
  spsolve : S -> Np.vector T -> Np.vector T;
  eigvals : Np.matrix T -> list E;
  np_abs : E -> T
}.
Arguments parse_meshfile {T D S E} _ _.
Arguments generate_mesh {T D S E} _ _.
Arguments matvec_1d {T D S E} _ _ _ _ _.
Arguments matvec_2d {T D S E} _ _ _ _ _ _ _.
Arguments matvec_3d {T D S E} _ _ _ _ _ _ _ _ _.
Arguments reorder {T D S E} _ _ _ _ _ _.
Arguments csr_matrix {T D S E} _ _.
Arguments spsolve {T D S E} _ _ _.
Arguments eigvals {T D S E} _ _.
Arguments np_abs {T D S E} _ _.

(** Modelled from the spec: the reorderer of module [reorder], which is not
    among the sources.  For a permutation matrix [Q] it produces the permuted
    matrix [A' = Q A Q^T] and the permuted vector [b' = Q b], and the
    solution of the original system is recovered from the solution [s'] of
    the permuted one as [Q^T s'].  The driver recovers it as [q s'], with the
    matrix [q] that [reorder] returns first (its comment at the call: solve
    PAP^-1 Px = Pb where P is a permutation matrix, need to permute solution
    later); that matrix is therefore [Q^T], the inverse of the permutation
    applied to the system.  Which permutation is chosen is not specified. *)
Definition reorder_model {T : Type} {num : Scalar T} (Q A : Np.matrix T) (b : Np.vector T) :
  Np.matrix T * Np.matrix T * Np.vector T :=
  (Np.transpose Q, Np.matmul2 (Np.matmul2 Q A) (Np.transpose Q), Np.matmul Q b).

Module Driver.
Import PyStr Eff Cli.
Local Open Scope eff_scope.
Local Open Scope Z_scope.

Section Laplace.
Context {T D S E : Type} {num : Scalar T}.
Variable W : collaborators T D S E.

Abbreviation vector := (Np.vector T).
Abbreviation matrix := (Np.matrix T).

(** What a run does to the outside, in program order. *)
Inductive event : Type :=
| Stdout (line : string)
| PrintStatus (status : bool)
| PrintValue (label : string) (v : T)
| ParseMeshfile (path : string)
| GenerateMesh (d : D)
| Matvec1d (x : vector) (dx dforce : D) (degen : bool)
| Matvec2d (x y : vector) (dx dy dforce : D) (degen : bool)
| Matvec3d (x y z : vector) (dx dy dz dforce : D) (degen : bool)
| Reorder (a : matrix) (b : vector) (nx ny nz : Z)
| Spsolve (SP : S) (b : vector)
| CaseSaveNpz (a : matrix) (b s : vector) (q : matrix) (status degen order : bool)
              (casename : string)
| CaseSaveBin (a : matrix) (b s : vector) (q : matrix) (status degen order : bool)
              (casename : string)
| Eigvals (asym : matrix)
| PlotSol1d (x s : vector) (status : bool)
| PlotSol2d (x y s : vector) (status psplt : bool)
| PlotSol3d (x y z s : vector) (cut : string) (status psplt : bool)
| PlotMat (a : matrix) (psplt : bool).

(** Reading a local: a name that was never assigned raises. *)
Definition local {A} (v : option A) : M event A :=
  match v with
  | Some a => ret a
  | None => raise "UnboundLocalError"
  end.

(** [d[key]] on a dict *)
Fixpoint getitem (d : list (string * D)) (key : string) : M event D :=
  match d with
  | [] => raise "KeyError"
  | (k, v) :: d' => if String.eqb k key then ret v else getitem d' key
  end.

Definition len (v : vector) : Z := Z.of_nat (List.length v).

(** [if ndims > 0: x = generate_mesh(rdict['x'])] and the two lines
    after it; [axis] is the key and [k] the bound. *)
Definition mesh_axis (ndims k : Z) (rdict : list (string * D)) (axis : string)
  : M event (option vector) :=
  if k <? ndims then
    d <- getitem rdict axis ;;
    emit (GenerateMesh d) ;;
    ret (Some (generate_mesh W d))
  else ret None.

(** generate matrix and rhs *)
Definition matrix_and_rhs (degen : bool) (ndims : Z) (rdict : list (string * D))
           (x y z : option vector) : M event (option (matrix * vector)) :=
  if ndims =? 1 then
    xv <- local x ;; dx <- getitem rdict "x" ;; df <- getitem rdict "force" ;;
    emit (Matvec1d xv dx df degen) ;;
    ret (Some (matvec_1d W xv dx df degen))
  else if ndims =? 2 then
    xv <- local x ;; yv <- local y ;;
    dx <- getitem rdict "x" ;; dy <- getitem rdict "y" ;; df <- getitem rdict "force" ;;
    emit (Matvec2d xv yv dx dy df degen) ;;
    ret (Some (matvec_2d W xv yv dx dy df degen))
  else if ndims =? 3 then
    xv <- local x ;; yv <- local y ;; zv <- local z ;;
    dx <- getitem rdict "x" ;; dy <- getitem rdict "y" ;; dz <- getitem rdict "z" ;;
    df <- getitem rdict "force" ;;
    emit (Matvec3d xv yv zv dx dy dz df degen) ;;
    ret (Some (matvec_3d W xv yv zv dx dy dz df degen))
  else ret None.

Definition call_reorder (a : matrix) (b : vector) (nx ny nz : Z)
  : M event (option matrix * option (matrix * vector)) :=
  emit (Reorder a b nx ny nz) ;;
  let '(q, a', b') := reorder W a b nx ny nz in
  ret (Some q, Some (a', b')).

(** reorder: the [if order:] statement; it rebinds [q], and under
    [order] also [a] and [b]. *)
Definition reorder_or_identity (order : bool) (ndims : Z) (x y z : option vector)
           (ab : option (matrix * vector))
  : M event (option matrix * option (matrix * vector)) :=
  if order then
    if ndims =? 1 then
      '(a, b) <- local ab ;; xv <- local x ;;
      call_reorder a b (len xv) 1 1
    else if ndims =? 2 then
      '(a, b) <- local ab ;; xv <- local x ;; yv <- local y ;;
      call_reorder a b (len xv) (len yv) 1
    else if ndims =? 3 then
      '(a, b) <- local ab ;; xv <- local x ;; yv <- local y ;; zv <- local z ;;
      call_reorder a b (len xv) (len yv) (len zv)
    else ret (None, ab)
  else
    '(a, _) <- local ab ;;
    ret (Some (Np.identity (Np.nrows a)), ab).

(** solve: [SP = csr_matrix(a); s = spsolve(SP, b);
    status = np.allclose(np.dot(a, s), b); print(...)] *)
Definition solve (ab : option (matrix * vector)) : M event (vector * bool) :=
  '(a, b) <- local ab ;;
  let SP := csr_matrix W a in
  emit (Spsolve SP b) ;;
  let s := spsolve W SP b in
  let status := Np.allclose (Np.dot a s) b in
  emit (PrintStatus status) ;;
  ret (s, status).

(** permute solution *)
Definition permute_solution (order : bool) (q : option matrix) (s : vector)
  : M event vector :=
  if order then qv <- local q ;; ret (Np.matmul qv s) else ret s.

(** save python npz and C binary files *)
Definition save (c : config) (casename : string) (ab : option (matrix * vector))
           (s : vector) (q : option matrix) (status : bool) : M event unit :=
  '(a, b) <- local ab ;; qv <- local q ;;
  emit (CaseSaveNpz a b s qv status (degen c) (order c) casename) ;;
  emit (CaseSaveBin a b s qv status (degen c) (order c) casename).

(** eigen analysis *)
Definition eigen_analysis (eigen : bool) (ab : option (matrix * vector))
  : M event unit :=
  if eigen then
    emit (Stdout (nl +++ "calculating eigenvalues:")) ;;
    '(a, _) <- local ab ;;
    let nt := Np.nrows a in
    let asym := Np.block (Np.zeros nt nt) a (Np.transpose a) (Np.zeros nt nt) in
    emit (Eigvals asym) ;;
    let evals := eigvals W asym in
    emin <- match Np.py_min (map (np_abs W) evals) with
            | Some v => ret v | None => raise "ValueError" end ;;
    emax <- match Np.py_max (map (np_abs W) evals) with
            | Some v => ret v | None => raise "ValueError" end ;;
    let kappa := div emax emin in
    emit (PrintValue (tab +++ "condition number:  ") kappa) ;;
    vmin <- match Np.py_min (map (np_abs W) evals) with
            | Some v => ret v | None => raise "ValueError" end ;;
    emit (PrintValue (tab +++ "min abs eigenvalue:") vmin) ;;
    vmax <- match Np.py_max (map (np_abs W) evals) with
            | Some v => ret v | None => raise "ValueError" end ;;
    emit (PrintValue (tab +++ "max abs eigenvalue:") vmax)
  else ret tt.

(** plot *)
Definition plot (c : config) (ndims : Z) (x y z : option vector)
           (ab : option (matrix * vector)) (s : vector) (status : bool)
  : M event unit :=
  (if splot c then
     (if ndims =? 1 then xv <- local x ;; emit (PlotSol1d xv s status) else ret tt) ;;
     (if ndims =? 2 then
        xv <- local x ;; yv <- local y ;; emit (PlotSol2d xv yv s status (psplt c))
      else ret tt) ;;
     (if ndims =? 3 then
        xv <- local x ;; yv <- local y ;; zv <- local z ;;
        emit (PlotSol3d xv yv zv s (cut3d c) status (psplt c))
      else ret tt)
   else ret tt) ;;
  if mplot c then '(a, _) <- local ab ;; emit (PlotMat a (psplt c)) else ret tt.

(** read input file, generate mesh coordinates, generate matrix and rhs: the
    locals [casename, ndims, x, y, z] and [(a, b)] once the system is
    assembled. *)
Definition assemble (c : config)
  : M event (string * Z * option vector * option vector * option vector
             * option (matrix * vector)) :=
  emit (ParseMeshfile (inputfile c)) ;;
  let '(casename, ndims, rdict) := parse_meshfile W (inputfile c) in
  x <- mesh_axis ndims 0 rdict "x" ;;
  y <- mesh_axis ndims 1 rdict "y" ;;
  z <- mesh_axis ndims 2 rdict "z" ;;
  ab <- matrix_and_rhs (degen c) ndims rdict x y z ;;
  ret (casename, ndims, x, y, z, ab).

(** reorder, solve, permute solution, save, eigen analysis, plot *)
Definition solve_and_report (c : config) (casename : string) (ndims : Z)
           (x y z : option vector) (ab : option (matrix * vector)) : M event unit :=
  '(q, ab) <- reorder_or_identity (order c) ndims x y z ab ;;
  '(s, status) <- solve ab ;;
  s <- permute_solution (order c) q s ;;
  save c casename ab s q status ;;
  eigen_analysis (eigen c) ab ;;
  plot c ndims x y z ab s status.

(** Everything after [read_args] has returned. *)
Definition run (c : config) : M event unit :=
  '(casename, ndims, x, y, z, ab) <- assemble c ;;
  solve_and_report c casename ndims x y z ab.

Definition laplace (fs : Os.filesystem) (argv : list string) : M event unit :=
  c <- lift Stdout (read_args fs argv) ;;
  run c.

(** *** Reading a trace *)

(** The bundle handed to either serialiser. *)
Record case_record : Type := CaseRecord {
  cr_a : matrix;
  cr_b : vector;
  cr_s : vector;
  cr_q : matrix;
  cr_status : bool;
  cr_degen : bool;
  cr_order : bool;
  cr_casename : string
}.

Definition statuses (tr : list event) : list bool :=
  flat_map (fun e => match e with PrintStatus st => [st] | _ => [] end) tr.

Definition solves (tr : list event) : list (S * vector) :=
  flat_map (fun e => match e with Spsolve SP b => [(SP, b)] | _ => [] end) tr.

Definition reorders (tr : list event) : list (matrix * vector * Z * Z * Z) :=
  flat_map (fun e => match e with Reorder a b nx ny nz => [(a, b, nx, ny, nz)] | _ => [] end) tr.

Definition saved_npz (tr : list event) : list case_record :=
  flat_map (fun e => match e with
                     | CaseSaveNpz a b s q st dg od cn => [CaseRecord a b s q st dg od cn]
                     | _ => []
                     end) tr.

Definition saved_bin (tr : list event) : list case_record :=
  flat_map (fun e => match e with
                     | CaseSaveBin a b s q st dg od cn => [CaseRecord a b s q st dg od cn]
                     | _ => []
                     end) tr.

Definition eigvals_args (tr : list event) : list matrix :=
  flat_map (fun e => match e with Eigvals m => [m] | _ => [] end) tr.

Definition printed_values (tr : list event) : list (string * T) :=
  flat_map (fun e => match e with PrintValue l v => [(l, v)] | _ => [] end) tr.

Definition plots (tr : list event) : list event :=
  flat_map (fun e => match e with
                     | PlotSol1d _ _ _ | PlotSol2d _ _ _ _ _ | PlotSol3d _ _ _ _ _ _ _
                     | PlotMat _ _ => [e]
                     | _ => []
                     end) tr.

(** The stages of the pipeline after the configuration has been read.  Every
    call to a collaborator belongs to one; the status line belongs to the
    solve and the printed diagnostics to the diagnostics; other text output
    carries no stage. *)
Inductive stage : Type :=
| Mesh | Operator | Reordering | Solving | Persistence | Diagnostics | Plotting.

Definition stage_of (e : event) : option stage :=
  match e with
  | Stdout _ => None
  | ParseMeshfile _ | GenerateMesh _ => Some Mesh
  | Matvec1d _ _ _ _ | Matvec2d _ _ _ _ _ _ | Matvec3d _ _ _ _ _ _ _ _ => Some Operator
  | Reorder _ _ _ _ _ => Some Reordering
  | Spsolve _ _ | PrintStatus _ => Some Solving
  | CaseSaveNpz _ _ _ _ _ _ _ _ | CaseSaveBin _ _ _ _ _ _ _ _ => Some Persistence
  | Eigvals _ | PrintValue _ _ => Some Diagnostics
  | PlotSol1d _ _ _ | PlotSol2d _ _ _ _ _ | PlotSol3d _ _ _ _ _ _ _ | PlotMat _ _ =>
      Some Plotting
  end.

Definition stages (tr : list event) : list stage :=
  flat_map (fun e => match stage_of e with Some st => [st] | None => [] end) tr.

(** The order in which the driver runs the stages: the two saves come before
    the eigen analysis. *)
Definition rank (st : stage) : nat :=
  match st with
  | Mesh => 1 | Operator => 2 | Reordering => 3 | Solving => 4
  | Persistence => 5 | Diagnostics => 6 | Plotting => 7
  end%nat.

(** The order "mesh, operator, (reorder), solve, (diagnose), persist, (plot)". *)
Definition rank_diagnose_first (st : stage) : nat :=
  match st with
  | Mesh => 1 | Operator => 2 | Reordering => 3 | Solving => 4
  | Diagnostics => 5 | Persistence => 6 | Plotting => 7
  end%nat.

(** [nx, ny, nz] as the driver passes them to [reorder]: the lengths of the
    axes in use, 1 for the others. *)
Definition extents (ndims : Z) (x y z : option vector) : option (Z * Z * Z) :=
  if ndims =? 1 then
    match x with Some xv => Some (len xv, 1, 1) | None => None end
  else if ndims =? 2 then
    match x, y with Some xv, Some yv => Some (len xv, len yv, 1) | _, _ => None end
  else if ndims =? 3 then
    match x, y, z with
    | Some xv, Some yv, Some zv => Some (len xv, len yv, len zv)
    | _, _, _ => None
    end
  else None.

(** The symmetrised matrix of the eigen analysis. *)
Definition symmetrised (a : matrix) : matrix :=
  Np.block (Np.zeros (Np.nrows a) (Np.nrows a)) a
           (Np.transpose a) (Np.zeros (Np.nrows a) (Np.nrows a)).

(** What the solver is given, with the matrix [q] next to it: the outputs of
    [reorder] under [order], else the identity and the assembled system. *)
Definition solved_system (order : bool) (A : matrix) (b : vector) (nx ny nz : Z)
  : matrix * matrix * vector :=
  if order then reorder W A b nx ny nz else (Np.identity (Np.nrows A), A, b).

(** The solution after [permute solution]. *)
Definition final_solution (order : bool) (q : matrix) (s : vector) : vector :=
  if order then Np.matmul q s else s.

(** The plots a configuration asks for. *)
Definition plot_events (c : config) (ndims : Z) (x y z : option vector)
           (a : matrix) (s : vector) (status : bool) : list event :=
  (if splot c then
     (if ndims =? 1 then
        match x with Some xv => [PlotSol1d xv s status] | None => [] end
      else []) ++
     (if ndims =? 2 then
        match x, y with
        | Some xv, Some yv => [PlotSol2d xv yv s status (psplt c)]
        | _, _ => []
        end
      else []) ++
     (if ndims =? 3 then
        match x, y, z with
        | Some xv, Some yv, Some zv => [PlotSol3d xv yv zv s (cut3d c) status (psplt c)]
        | _, _, _ => []
        end
      else [])
   else []) ++
  (if mplot c then [PlotMat a (psplt c)] else []).

(** The stages of a trace are in the order of [rank], within [lo .. hi]. *)
Definition in_order (lo hi : nat) (tr : list event) : Prop :=
  StronglySorted (fun s t => (rank s <= rank t)%nat) (stages tr)
  /\ Forall (fun s => (lo <= rank s <= hi)%nat) (stages tr).

(** [d.get(key)]: the entry under [key], if there is one. *)
Fixpoint dict_get (d : list (string * D)) (key : string) : option D :=
  match d with
  | [] => None
  | (k, v) :: d' => if String.eqb k key then Some v else dict_get d' key
  end.

Definition has_key (d : list (string * D)) (key : string) : bool :=
  match dict_get d key with
  | Some _ => true
  | None => false
  end.

(** The mesh file describes a case the driver can assemble: one, two or
    three dimensions, an entry for each axis in use and one for the force. *)
Definition describes_case (ndims : Z) (rdict : list (string * D)) : bool :=
  ((ndims =? 1) && has_key rdict "x"
   || (ndims =? 2) && has_key rdict "x" && has_key rdict "y"
   || (ndims =? 3) && has_key rdict "x" && has_key rdict "y" && has_key rdict "z")
  && has_key rdict "force".

(** The descriptors [generate_mesh] was called on, in order. *)
Definition meshes (tr : list event) : list D :=
  flat_map (fun e => match e with GenerateMesh d => [d] | _ => [] end) tr.

(** The calls to the assembler. *)
Definition assemblies (tr : list event) : list event :=
  flat_map (fun e => match e with
                     | Matvec1d _ _ _ _ | Matvec2d _ _ _ _ _ _ | Matvec3d _ _ _ _ _ _ _ _ => [e]
                     | _ => []
                     end) tr.

(** A trace without its plots. *)
Definition non_plots (tr : list event) : list event :=
  flat_map (fun e => match e with
                     | PlotSol1d _ _ _ | PlotSol2d _ _ _ _ _ | PlotSol3d _ _ _ _ _ _ _
                     | PlotMat _ _ => []
                     | _ => [e]
                     end) tr.

(** [len(v)] for an axis in use, 1 for an axis that is not. *)
Definition axis_extent (v : option vector) : Z :=
  match v with
  | Some xs => len xs
  | None => 1
  end.

End Laplace.
End Driver.

(** ** An executable instance for tests

    Integer-valued data, on which float64 arithmetic is exact.  The
    collaborators are test doubles: the assembler hands back a given system,
    the solver is exact (Cramer's rule), the eigenvalue routine returns a
    given spectrum. *)

Module TestWorld.
Import Cli Driver.
Local Open Scope Z_scope.

(** [np.allclose] uses [rtol = 1e-05] and [atol = 1e-08]; on integers
    [|x - y| <= 1e-8 + 1e-5 * |y|] is the inequality below.  [x / y] is the
    integer quotient, which is the float quotient where [y] divides [x], the
    only use the sample runs make of it. *)
#[export] Instance Z_scalar : Scalar Z := {
  zero := 0;
  one := 1;
  add := Z.add;
  mul := Z.mul;
  div := Z.div;
  ltb := Z.ltb;
  isclose x y := 10 ^ 8 * Z.abs (x - y) <=? 1 + 1000 * Z.abs y
}.

(** The reorderer of the sample runs: [reorder_model] for the permutation
    [pi], whatever the mesh. *)
Definition reorder_spec (pi : list nat) (a : Np.matrix Z) (b : Np.vector Z)
           (nx ny nz : Z) : Np.matrix Z * Np.matrix Z * Np.vector Z :=
  reorder_model (Np.perm_matrix pi) a b.

Definition drop_col (j : nat) (r : list Z) : list Z := firstn j r ++ skipn (S j) r.

(** Determinant by expansion along the first row. *)
Fixpoint det (n : nat) (m : Np.matrix Z) : Z :=
  match n, m with
  | S n', r :: rest =>
      fold_left Z.add
        (map (fun j => (-1) ^ Z.of_nat j * nth j r 0 * det n' (map (drop_col j) rest))
             (seq 0 (S n')))
        0
  | _, _ => 1
  end.

Definition replace_col (j : nat) (b : Np.vector Z) (m : Np.matrix Z) : Np.matrix Z :=
  map (fun p => firstn j (fst p) ++ [snd p] ++ skipn (S j) (fst p)) (combine m b).

(** An exact solver for integer systems with an integer solution. *)
Definition cramer (m : Np.matrix Z) (b : Np.vector Z) : Np.vector Z :=
  let n := List.length m in
  map (fun j => det n (replace_col j b m) / det n m) (seq 0 n).

(** A one-dimensional case: [parse_meshfile] finds the coordinates [xs] under
    ['x'] and a force descriptor; the assembler returns the system [(A, b)]. *)
Definition world (xs : list Z) (A : Np.matrix Z) (b : Np.vector Z) (pi : list nat)
           (spectrum : list Z) : collaborators Z (list Z) (Np.matrix Z) Z :=
  {| parse_meshfile := fun _ => ("case"%string, 1, [("x"%string, xs); ("force"%string, b)]);
     generate_mesh := fun d => d;
     matvec_1d := fun _ _ _ _ => (A, b);
     matvec_2d := fun _ _ _ _ _ _ => (A, b);
     matvec_3d := fun _ _ _ _ _ _ _ _ => (A, b);
     reorder := reorder_spec pi;
     csr_matrix := fun a => a;
     spsolve := cramer;
     eigvals := fun _ => spectrum;
     np_abs := Z.abs |}.

(** The same collaborators for a mesh file of [ndims] dimensions with the
    entries [rdict]. *)
Definition world_of_case (ndims : Z) (rdict : list (string * list Z))
           (A : Np.matrix Z) (b : Np.vector Z) : collaborators Z (list Z) (Np.matrix Z) Z :=
  {| parse_meshfile := fun _ => ("case"%string, ndims, rdict);
     generate_mesh := fun d => d;
     matvec_1d := fun _ _ _ _ => (A, b);
     matvec_2d := fun _ _ _ _ _ _ => (A, b);
     matvec_3d := fun _ _ _ _ _ _ _ _ => (A, b);
     reorder := reorder_spec [0%nat; 1%nat];
     csr_matrix := fun a => a;
     spsolve := cramer;
     eigvals := fun _ => [1; -1];
     np_abs := Z.abs |}.

Definition fs : Os.filesystem := {| Os.regular_files := ["mesh.in"%string] |}.

(** Three points, the system [diag(1, 2, 4) s = (3, 8, 20)] with solution
    [(3, 4, 5)], the cyclic reordering [(1, 2, 0)].  The symmetrised block
    matrix of a diagonal matrix has the eigenvalues [+-a_ii]. *)
Definition A3 : Np.matrix Z := [[1; 0; 0]; [0; 2; 0]; [0; 0; 4]].
Definition b3 : Np.vector Z := [3; 8; 20].
Definition W3 : collaborators Z (list Z) (Np.matrix Z) Z :=
  world [0; 1; 2] A3 b3 [1%nat; 2%nat; 0%nat] [1; 2; 4; -1; -2; -4].

(** The configurations of the sample runs. *)
Definition with_reorder : config :=
  {| inputfile := "mesh.in"; mplot := false; splot := false; cut3d := "x";
     degen := false; eigen := false; order := true; psplt := false |}.

Definition with_reorder_and_eigen : config :=
  {| inputfile := "mesh.in"; mplot := false; splot := false; cut3d := "x";
     degen := false; eigen := true; order := true; psplt := false |}.

Definition plain : config :=
  {| inputfile := "mesh.in"; mplot := false; splot := false; cut3d := "x";
     degen := false; eigen := false; order := false; psplt := false |}.

Definition with_eigen_and_plots : config :=
  {| inputfile := "mesh.in"; mplot := true; splot := true; cut3d := "x";
     degen := false; eigen := true; order := false; psplt := false |}.

(** A singular system, for the cases that never reach the solver. *)
Definition A2 : Np.matrix Z := [[1; 0]; [0; 0]].
Definition b2 : Np.vector Z := [1; 1].

(** The eigenvalues of [[0, a], [a^T, 0]] for a diagonal [a]: the [a_ii] and
    their opposites; none for the empty matrix. *)
Definition diag_block_spectrum (m : Np.matrix Z) : list Z :=
  let n := (List.length m / 2)%nat in
  map (fun i => Np.entry m i (n + i)) (seq 0 n)
  ++ map (fun i => - Np.entry m i (n + i)) (seq 0 n).

(** The one-dimensional case of [world] with an eigenvalue routine that looks
    at its argument. *)
Definition world_with (xs : list Z) (A : Np.matrix Z) (b : Np.vector Z) (pi : list nat)
           (ev : Np.matrix Z -> list Z) : collaborators Z (list Z) (Np.matrix Z) Z :=
  {| parse_meshfile := fun _ => ("case"%string, 1, [("x"%string, xs); ("force"%string, b)]);
     generate_mesh := fun d => d;
     matvec_1d := fun _ _ _ _ => (A, b);
     matvec_2d := fun _ _ _ _ _ _ => (A, b);
     matvec_3d := fun _ _ _ _ _ _ _ _ => (A, b);
     reorder := reorder_spec pi;
     csr_matrix := fun a => a;
     spsolve := cramer;
     eigvals := ev;
     np_abs := Z.abs |}.

(** The case of [W3] with the eigenvalues computed from the matrix. *)
Definition W3d : collaborators Z (list Z) (Np.matrix Z) Z :=
  world_with [0; 1; 2] A3 b3 [1%nat; 2%nat; 0%nat] diag_block_spectrum.

(** An inaccurate solve: the system [[[2, 0], [0, 2]] s = (1, 1)] has the
    solution [(1/2, 1/2)]; the integer solver returns [(0, 0)], which fails
    the residual check. *)
Definition A2h : Np.matrix Z := [[2; 0]; [0; 2]].
Definition b2h : Np.vector Z := [1; 1].
Definition W2h : collaborators Z (list Z) (Np.matrix Z) Z :=
  world_with [0; 1] A2h b2h [1%nat; 0%nat] diag_block_spectrum.

End TestWorld.

(** * Properties *)

(** ** Sample command lines *)

Module CliTests.
Import PyGetopt Eff Cli TestWorld.

Example getopt_bundle :
  getopt ["-rem"; "-imesh.in"; "--c=z"; "tail"; "-d"] shortopts longopts
  = Ok ([("-r", ""); ("-e", ""); ("-m", ""); ("-i", "mesh.in"); ("--c", "z")],
        ["tail"; "-d"]).
Proof. reflexivity. Qed.

Example getopt_unknown :
  getopt ["-z"] shortopts longopts = GetoptError "option -z not recognized" "z".
Proof. reflexivity. Qed.

Example getopt_missing_arg :
  getopt ["-r"; "-i"] shortopts longopts = GetoptError "option -i requires argument" "i".
Proof. reflexivity. Qed.

Example getopt_long_prefix :
  getopt ["--"; "-i"] shortopts longopts = Ok ([], ["-i"])
  /\ getopt ["--i"; "f"] shortopts longopts = Ok ([("--i", "f")], [])
  /\ getopt ["--d"] shortopts longopts = GetoptError "option --d not recognized" "d"
  /\ getopt ["--=v"] shortopts longopts = GetoptError "option -- not a unique prefix" "".
Proof. repeat split; reflexivity. Qed.

Example read_args_ok :
  read_args fs ["-i"; "mesh.in"; "-r"; "-e"; "-c"; "q"]
  = ([], Ret {| inputfile := "mesh.in"; mplot := false; splot := false; cut3d := "q";
                degen := false; eigen := true; order := true; psplt := false |}).
Proof. reflexivity. Qed.

Example read_args_unknown_flag :
  exit_status (read_args fs ["-i"; "mesh.in"; "-x"]) = 2%Z.
Proof. reflexivity. Qed.

End CliTests.

(** ** The effect monad *)

Module EffFacts.
Import Eff.

Lemma bind_ret_l {Ev A B} (a : A) (f : A -> M Ev B) : bind (ret a) f = f a.
Proof. unfold bind, ret. destruct (f a) as [tr r]. reflexivity. Qed.

Lemma bind_events {Ev A B} (tr : list Ev) (a : A) (f : A -> M Ev B) :
  bind (tr, Ret a) f = (tr ++ fst (f a), snd (f a)).
Proof. unfold bind. destruct (f a). reflexivity. Qed.

Lemma bind_emit {Ev B} (e : Ev) (k : unit -> M Ev B) :
  bind (emit e) k = (e :: fst (k tt), snd (k tt)).
Proof. unfold emit. rewrite bind_events. reflexivity. Qed.

Lemma bind_exit {Ev A B} (tr : list Ev) code (f : A -> M Ev B) :
  bind (tr, Exit code) f = (tr, Exit code).
Proof. reflexivity. Qed.

Lemma bind_raise {Ev A B} (tr : list Ev) exc (f : A -> M Ev B) :
  bind (tr, Raise exc) f = (tr, Raise exc).
Proof. reflexivity. Qed.

Lemma lift_ret {Ev Ev' A} (inj : Ev -> Ev') (tr : list Ev) (r : result A) :
  lift inj (tr, r) = (map inj tr, r).
Proof. reflexivity. Qed.

Lemma surjective_run {Ev A} (m : M Ev A) : m = (fst m, snd m).
Proof. destruct m; reflexivity. Qed.

End EffFacts.

(** ** [getopt] *)

Module GetoptFacts.
Import PyStr PyGetopt.

Lemma do_shorts_prepend pre optstring shortopts args : forall opts,
  do_shorts (pre ++ opts) optstring shortopts args
  = prepend pre (do_shorts opts optstring shortopts args).
Proof.
  induction optstring as [|opt optstring' IH]; intros opts; simpl.
  - reflexivity.
  - destruct (short_has_arg opt shortopts) as [[|]|m o]; simpl.
    + destruct optstring'; [destruct args|]; simpl; rewrite <- ?app_assoc; reflexivity.
    + rewrite <- IH, <- app_assoc. reflexivity.
    + reflexivity.
Qed.

Lemma do_longs_prepend pre opt longopts args opts :
  do_longs (pre ++ opts) opt longopts args = prepend pre (do_longs opts opt longopts args).
Proof.
  unfold do_longs.
  destruct (split_at_char "=" opt) as [[l r]|];
    (match goal with |- context [long_has_args ?o longopts] =>
       destruct (long_has_args o longopts) as [[[|] o']|m o'] end);
    simpl; try reflexivity;
    try (destruct args; simpl); rewrite <- ?app_assoc; reflexivity.
Qed.

Lemma getopt_loop_S fuel opts a0 rest shortopts longopts :
  getopt_loop (S fuel) opts (a0 :: rest) shortopts longopts
  = if startswith "-" a0 && negb (String.eqb a0 "-") then
      if String.eqb a0 "--" then Ok (opts, rest)
      else
        match (if startswith "--" a0
               then do_longs opts (drop 2 a0) longopts rest
               else do_shorts opts (drop 1 a0) shortopts rest) with
        | GetoptError m o => GetoptError m o
        | Ok (opts', args') => getopt_loop fuel opts' args' shortopts longopts
        end
    else Ok (opts, a0 :: rest).
Proof. reflexivity. Qed.

Lemma getopt_loop_nil fuel opts shortopts longopts :
  getopt_loop fuel opts [] shortopts longopts = Ok (opts, []).
Proof. destruct fuel; reflexivity. Qed.

Lemma getopt_loop_prepend pre shortopts longopts : forall fuel opts args,
  getopt_loop fuel (pre ++ opts) args shortopts longopts
  = prepend pre (getopt_loop fuel opts args shortopts longopts).
Proof.
  induction fuel as [|fuel IH]; intros opts args; [reflexivity|].
  destruct args as [|a0 rest]; [reflexivity|].
  rewrite !getopt_loop_S.
  destruct (startswith "-" a0 && negb (String.eqb a0 "-")); [|reflexivity].
  destruct (String.eqb a0 "--"); [reflexivity|].
  destruct (startswith "--" a0).
  - rewrite do_longs_prepend.
    destruct (do_longs opts (drop 2 a0) longopts rest) as [[o' a']|]; simpl;
      [apply IH | reflexivity].
  - rewrite do_shorts_prepend.
    destruct (do_shorts opts (drop 1 a0) shortopts rest) as [[o' a']|]; simpl;
      [apply IH | reflexivity].
Qed.

(** Neither helper hands back more arguments than it was given. *)
Lemma do_shorts_args optstring shortopts args : forall opts opts' args',
  do_shorts opts optstring shortopts args = Ok (opts', args') ->
  (List.length args' <= List.length args)%nat.
Proof.
  induction optstring as [|opt optstring' IH]; intros opts opts' args'; simpl.
  - intros H; inversion H; subst; lia.
  - destruct (short_has_arg opt shortopts) as [[|]|m o]; [| apply IH | discriminate].
    destruct optstring'; [destruct args|]; intros H; inversion H; subst; simpl; lia.
Qed.

Lemma do_longs_args opts opt longopts args opts' args' :
  do_longs opts opt longopts args = Ok (opts', args') ->
  (List.length args' <= List.length args)%nat.
Proof.
  unfold do_longs.
  destruct (split_at_char "=" opt) as [[l r]|];
    (match goal with |- context [long_has_args ?o longopts] =>
       destruct (long_has_args o longopts) as [[[|] o']|m o'] end);
    simpl; try discriminate;
    try (destruct args; simpl); intros H; inversion H; subst; simpl; lia.
Qed.

(** The loop never needs more iterations than there are arguments. *)
Lemma getopt_loop_fuel shortopts longopts : forall f1 f2 opts args,
  (List.length args <= f1)%nat -> (List.length args <= f2)%nat ->
  getopt_loop f1 opts args shortopts longopts = getopt_loop f2 opts args shortopts longopts.
Proof.
  induction f1 as [|f1 IH]; intros f2 opts args H1 H2.
  - destruct args; [|simpl in H1; lia]. destruct f2; reflexivity.
  - destruct f2 as [|f2]; [destruct args; [reflexivity | simpl in H2; lia]|].
    destruct args as [|a0 rest]; [reflexivity|]. simpl in H1, H2.
    rewrite !getopt_loop_S.
    destruct (startswith "-" a0 && negb (String.eqb a0 "-")); [|reflexivity].
    destruct (String.eqb a0 "--"); [reflexivity|].
    destruct (startswith "--" a0).
    + destruct (do_longs opts (drop 2 a0) longopts rest) as [[o' a']|] eqn:E; [|reflexivity].
      apply do_longs_args in E. apply IH; lia.
    + destruct (do_shorts opts (drop 1 a0) shortopts rest) as [[o' a']|] eqn:E; [|reflexivity].
      apply do_shorts_args in E. apply IH; lia.
Qed.

(** One turn of the [while] loop of [getopt], free of the iteration count. *)
Lemma getopt_unfold a0 rest shortopts longopts :
  getopt (a0 :: rest) shortopts longopts
  = if startswith "-" a0 && negb (String.eqb a0 "-") then
      if String.eqb a0 "--" then Ok ([], rest)
      else
        match (if startswith "--" a0
               then do_longs [] (drop 2 a0) longopts rest
               else do_shorts [] (drop 1 a0) shortopts rest) with
        | GetoptError m o => GetoptError m o
        | Ok (opts', args') => prepend opts' (getopt args' shortopts longopts)
        end
    else Ok ([], a0 :: rest).
Proof.
  unfold getopt. change (List.length (a0 :: rest)) with (S (List.length rest)).
  rewrite getopt_loop_S.
  destruct (startswith "-" a0 && negb (String.eqb a0 "-")); [|reflexivity].
  destruct (String.eqb a0 "--"); [reflexivity|].
  assert (K : forall r, (forall o a, r = Ok (o, a) -> (List.length a <= List.length rest)%nat) ->
     match r with
     | GetoptError m o => GetoptError m o
     | Ok (opts', args') => getopt_loop (List.length rest) opts' args' shortopts longopts
     end
     = match r with
       | GetoptError m o => GetoptError m o
       | Ok (opts', args') =>
           prepend opts' (getopt_loop (List.length args') [] args' shortopts longopts)
       end).
  { intros [[o a]|m o] Hr; [|reflexivity].
    rewrite <- getopt_loop_prepend, app_nil_r.
    apply getopt_loop_fuel; [apply (Hr o a eq_refl) | lia]. }
  apply K. destruct (startswith "--" a0); intros o a E;
    [eapply do_longs_args | eapply do_shorts_args]; exact E.
Qed.

End GetoptFacts.

(** ** [read_args] *)

Module CliFacts.
Import PyStr PyGetopt Eff Cli EffFacts GetoptFacts.

(** Case analysis on an option name, one literal at a time. *)
Ltac case_opt opt :=
  repeat match goal with
         | |- context [String.eqb opt ?s] =>
             destruct (String.eqb_spec opt s) as [->|?]; cbn
         end.

Lemma handle_opt_help c arg : handle_opt c "-h" arg = (help_text, Exit None).
Proof. reflexivity. Qed.

(** Every option but [-h] updates the locals silently.  The update commutes
    with an earlier assignment to [cut3d], unless it assigns [cut3d] itself. *)
Lemma handle_opt_other c opt arg :
  String.eqb opt "-h" = false ->
  exists c',
    handle_opt c opt arg = ([], Ret c')
    /\ inputfile c' = (if mem opt ["-i"; "--i"] then arg else inputfile c)
    /\ forall v, handle_opt (set_cut3d v c) opt arg
                 = ([], Ret (if mem opt ["-c"; "--c"] then c' else set_cut3d v c')).
Proof.
  intros Hh. unfold handle_opt, mem. rewrite Hh. cbn [existsb].
  case_opt opt; eexists; (split; [reflexivity|]); split; reflexivity.
Qed.

Lemma for_opts_cons opt arg opts c :
  for_opts ((opt, arg) :: opts) c = bind (handle_opt c opt arg) (fun c' => for_opts opts c').
Proof. reflexivity. Qed.

(** With [-h] among the options the loop prints the help text and exits. *)
Lemma for_opts_help opts : forall c,
  has_help opts = true -> for_opts opts c = (help_text, Exit None).
Proof.
  induction opts as [|[opt arg] opts IH]; intros c H; [discriminate|].
  rewrite for_opts_cons. cbn [has_help existsb fst] in H.
  destruct (String.eqb opt "-h") eqn:E.
  - apply String.eqb_eq in E. subst opt. reflexivity.
  - destruct (handle_opt_other c opt arg E) as (c' & -> & _).
    rewrite bind_events. cbn [app]. rewrite <- surjective_run. apply IH, H.
Qed.

(** Without it the loop is silent and ends with the input file the options
    name. *)
Lemma for_opts_no_help opts : forall c,
  has_help opts = false ->
  exists c',
    for_opts opts c = ([], Ret c')
    /\ inputfile c'
       = fold_left (fun acc p => if mem (fst p) ["-i"; "--i"] then snd p else acc)
                   opts (inputfile c).
Proof.
  induction opts as [|[opt arg] opts IH]; intros c H.
  - exists c. split; reflexivity.
  - rewrite for_opts_cons. cbn [has_help existsb fst] in H.
    apply orb_false_iff in H. destruct H as [E H].
    destruct (handle_opt_other c opt arg E) as (c1 & -> & Hi & _).
    destruct (IH c1 H) as (c' & Hc' & Hin).
    exists c'. rewrite bind_events, Hc'. split; [reflexivity|].
    rewrite Hin, Hi. reflexivity.
Qed.

(** An assignment to [cut3d] before the loop survives it exactly when no
    later option assigns [cut3d]. *)
Lemma for_opts_set_cut3d v opts : forall c out c',
  for_opts opts c = (out, Ret c') ->
  for_opts opts (set_cut3d v c)
  = (out, Ret (if names_cut opts then c' else set_cut3d v c')).
Proof.
  induction opts as [|[opt arg] opts IH]; intros c out c' H.
  - inversion H; subst. reflexivity.
  - rewrite for_opts_cons in *.
    destruct (String.eqb opt "-h") eqn:E.
    + apply String.eqb_eq in E. subst opt. discriminate H.
    + destruct (handle_opt_other c opt arg E) as (c1 & H1 & _ & Hv).
      rewrite H1 in H. rewrite (Hv v). rewrite bind_events in *.
      cbn [app] in *. rewrite <- surjective_run in *.
      cbn [names_cut existsb fst].
      destruct (mem opt ["-c"; "--c"]); cbn [orb].
      * exact H.
      * apply IH, H.
Qed.

(** [read_args], case by case. *)
Lemma read_args_usage fs argv m o :
  getopt argv shortopts longopts = GetoptError m o ->
  read_args fs argv = (usage_error, Exit (Some 2%Z)).
Proof. intros H. unfold read_args. rewrite H. reflexivity. Qed.

Lemma read_args_help fs argv opts args :
  getopt argv shortopts longopts = Ok (opts, args) ->
  has_help opts = true ->
  read_args fs argv = (help_text, Exit None).
Proof.
  intros H Hh. unfold read_args. rewrite H, (for_opts_help opts defaults Hh). reflexivity.
Qed.

Lemma read_args_no_help fs argv opts args :
  getopt argv shortopts longopts = Ok (opts, args) ->
  has_help opts = false ->
  exists c,
    for_opts opts defaults = ([], Ret c)
    /\ inputfile c = named_input opts
    /\ read_args fs argv
       = if Os.isfile fs (named_input opts) then ([], Ret c)
         else ([missing_file_message (named_input opts)], Exit (Some 3%Z)).
Proof.
  intros H Hh. destruct (for_opts_no_help opts defaults Hh) as (c & Hc & Hi).
  exists c. split; [exact Hc|]. split; [exact Hi|].
  unfold read_args. rewrite H, Hc, bind_events. cbn [app].
  change (inputfile c = named_input opts) in Hi. rewrite Hi.
  destruct (Os.isfile fs (named_input opts)); reflexivity.
Qed.

(** [read_args] prints nothing when it returns. *)
Lemma read_args_returns_silently fs argv out c :
  read_args fs argv = (out, Ret c) -> out = [].
Proof.
  intros H. destruct (getopt argv shortopts longopts) as [[opts args]|m o] eqn:G.
  - destruct (has_help opts) eqn:Hh.
    + rewrite (read_args_help fs argv opts args G Hh) in H. discriminate.
    + destruct (read_args_no_help fs argv opts args G Hh) as (c0 & _ & _ & R).
      rewrite R in H. destruct (Os.isfile fs (named_input opts)); inversion H; reflexivity.
  - rewrite (read_args_usage fs argv m o G) in H. discriminate.
Qed.

(** Each way of supplying the cut option puts one pair in front of the
    options of the remaining arguments, whatever the value. *)
Lemma getopt_supplies_cut v rest argv :
  supplies_cut v rest argv ->
  exists o, (o = "-c" \/ o = "--c")
            /\ getopt argv shortopts longopts
               = prepend [(o, v)] (getopt rest shortopts longopts).
Proof.
  intros [ | Hv | | ].
  - exists "-c". split; [auto|]. rewrite getopt_unfold. reflexivity.
  - exists "-c". split; [auto|]. rewrite getopt_unfold.
    destruct v; [contradiction|]. reflexivity.
  - exists "--c". split; [auto|]. rewrite getopt_unfold. reflexivity.
  - exists "--c". split; [auto|]. rewrite getopt_unfold. reflexivity.
Qed.

End CliFacts.

(** ** The driver: order of the stages *)

Module OrderFacts.
Import PyStr Eff Cli Driver EffFacts.
Local Open Scope Z_scope.

Section Order.
Context {T D S E : Type} {num : Scalar T}.
Variable W : collaborators T D S E.

Abbreviation ev := (@event T D S).

Lemma stages_app (t1 t2 : list ev) : stages (t1 ++ t2) = stages t1 ++ stages t2.
Proof. apply flat_map_app. Qed.

Lemma stages_stdout (out : list string) : stages (map (@Stdout T D S) out) = [].
Proof. induction out; [reflexivity | exact IHout]. Qed.

Lemma sorted_app {A} (R : A -> A -> Prop) (l1 l2 : list A) :
  StronglySorted R l1 -> StronglySorted R l2 ->
  (forall x y, In x l1 -> In y l2 -> R x y) ->
  StronglySorted R (l1 ++ l2).
Proof.
  induction l1 as [|a l1 IH]; intros S1 S2 H; simpl; [exact S2|].
  inversion S1; subst. constructor.
  - apply IH; auto. intros x y Hx Hy. apply H; [right|]; assumption.
  - apply Forall_app. split; [assumption|].
    apply Forall_forall. intros y Hy. apply H; [left; reflexivity | exact Hy].
Qed.

Lemma in_order_nil lo hi : in_order lo hi ([] : list ev).
Proof. split; constructor. Qed.

Lemma in_order_weaken lo hi lo' hi' (tr : list ev) :
  in_order lo hi tr -> (lo' <= lo)%nat -> (hi <= hi')%nat -> in_order lo' hi' tr.
Proof.
  intros [Hs Hb] Hl Hh. split; [exact Hs|].
  eapply Forall_impl; [|exact Hb]. cbv beta. intros; lia.
Qed.

Lemma in_order_app lo mid hi (t1 t2 : list ev) :
  in_order lo mid t1 -> in_order mid hi t2 -> (lo <= mid)%nat -> (mid <= hi)%nat ->
  in_order lo hi (t1 ++ t2).
Proof.
  intros [S1 B1] [S2 B2] Hl Hh. unfold in_order. rewrite stages_app. split.
  - apply sorted_app; [exact S1 | exact S2|].
    intros x y Hx Hy. rewrite Forall_forall in B1, B2.
    specialize (B1 x Hx). specialize (B2 y Hy). lia.
  - apply Forall_app. split; (eapply Forall_impl; [|eassumption]); cbv beta; intros; lia.
Qed.

Lemma in_order_bind {A B} lo mid hi (m : M ev A) (f : A -> M ev B) :
  in_order lo mid (fst m) -> (forall a, in_order mid hi (fst (f a))) ->
  (lo <= mid)%nat -> (mid <= hi)%nat ->
  in_order lo hi (fst (bind m f)).
Proof.
  intros Hm Hf Hl Hh. destruct m as [tr [a|code|exc]]; simpl in Hm.
  - rewrite bind_events. simpl. eapply in_order_app; eauto.
  - simpl. eapply in_order_weaken; eauto.
  - simpl. eapply in_order_weaken; eauto.
Qed.

(** Within one stage. *)
Lemma seg_bind {A B} k (m : M ev A) (f : A -> M ev B) :
  in_order k k (fst m) -> (forall a, in_order k k (fst (f a))) ->
  in_order k k (fst (bind m f)).
Proof. intros. eapply in_order_bind; eauto. Qed.

Lemma seg_emit k (e : ev) :
  match stage_of e with Some s => rank s = k | None => True end ->
  in_order k k (fst (emit e)).
Proof.
  intros H. unfold in_order, stages. simpl. destruct (stage_of e) as [s|]; simpl.
  - split; repeat constructor; lia.
  - split; constructor.
Qed.

Lemma seg_ret {A} k (a : A) : in_order k k (fst (ret a : M ev A)).
Proof. apply in_order_nil. Qed.

Lemma seg_raise {A} k exc : in_order k k (fst (raise exc : M ev A)).
Proof. apply in_order_nil. Qed.

Lemma local_silent {A} (v : option A) : fst (local v : M ev A) = [].
Proof. destruct v; reflexivity. Qed.

Lemma getitem_silent (d : list (string * D)) key : fst (getitem d key : M ev D) = [].
Proof.
  induction d as [|[k v] d IH]; simpl; [reflexivity|].
  destruct (String.eqb k key); [reflexivity | exact IH].
Qed.

Lemma seg_local {A} k (v : option A) : in_order k k (fst (local v : M ev A)).
Proof. rewrite local_silent. apply in_order_nil. Qed.

Lemma seg_getitem k (d : list (string * D)) key : in_order k k (fst (getitem d key : M ev D)).
Proof. rewrite getitem_silent. apply in_order_nil. Qed.

(** Walks through a block of the driver, one statement at a time. *)
Ltac seg :=
  repeat first
    [ apply seg_ret
    | apply seg_raise
    | apply seg_local
    | apply seg_getitem
    | apply seg_emit; reflexivity
    | apply seg_bind; [| intros]
    | match goal with
      | |- in_order _ _ (fst (if ?b then _ else _)) => destruct b
      | |- in_order _ _ (fst (match ?p with pair _ _ => _ end)) => destruct p
      | |- in_order _ _ (fst (match ?p with Some _ => _ | None => _ end)) => destruct p
      end ].

Lemma mesh_axis_order ndims k rdict axis :
  in_order 1 1 (fst (mesh_axis W ndims k rdict axis)).
Proof. unfold mesh_axis. seg. Qed.

Lemma matrix_and_rhs_order dg ndims rdict x y z :
  in_order 2 2 (fst (matrix_and_rhs W dg ndims rdict x y z)).
Proof. unfold matrix_and_rhs. seg. Qed.

Lemma reorder_or_identity_order od ndims x y z ab :
  in_order 3 3 (fst (reorder_or_identity W od ndims x y z ab)).
Proof. unfold reorder_or_identity, call_reorder. seg. Qed.

Lemma solve_order ab : in_order 4 4 (fst (solve W ab)).
Proof. unfold solve. seg. Qed.

Lemma permute_solution_order od q s : in_order 4 4 (fst (permute_solution od q s : M ev _)).
Proof. unfold permute_solution. seg. Qed.

Lemma save_order c casename ab s q status :
  in_order 5 5 (fst (save c casename ab s q status : M ev _)).
Proof. unfold save. seg. Qed.

Lemma eigen_analysis_order eg ab : in_order 6 6 (fst (eigen_analysis W eg ab)).
Proof. unfold eigen_analysis. seg. Qed.

Lemma plot_order c ndims x y z ab s status :
  in_order 7 7 (fst (plot c ndims x y z ab s status : M ev _)).
Proof. unfold plot. seg. Qed.

Lemma assemble_order c : in_order 1 2 (fst (assemble W c)).
Proof.
  unfold assemble.
  apply (in_order_bind 1 1 2); [apply seg_emit; reflexivity | intros _ | lia | lia].
  destruct (parse_meshfile W (inputfile c)) as [[casename ndims] rdict].
  apply (in_order_bind 1 1 2); [apply mesh_axis_order | intros x | lia | lia].
  apply (in_order_bind 1 1 2); [apply mesh_axis_order | intros y | lia | lia].
  apply (in_order_bind 1 1 2); [apply mesh_axis_order | intros z | lia | lia].
  apply (in_order_bind 1 2 2); [| intros ab; apply in_order_nil | lia | lia].
  eapply in_order_weaken; [apply matrix_and_rhs_order | lia | lia].
Qed.

Lemma solve_and_report_order c casename ndims x y z ab :
  in_order 3 7 (fst (solve_and_report W c casename ndims x y z ab)).
Proof.
  unfold solve_and_report.
  apply (in_order_bind 3 3 7); [apply reorder_or_identity_order | intros [q ab'] | lia | lia].
  apply (in_order_bind 3 4 7); [| intros [s status] | lia | lia].
  { eapply in_order_weaken; [apply solve_order | lia | lia]. }
  apply (in_order_bind 4 4 7); [apply permute_solution_order | intros s' | lia | lia].
  apply (in_order_bind 4 5 7); [| intros _ | lia | lia].
  { eapply in_order_weaken; [apply save_order | lia | lia]. }
  apply (in_order_bind 5 6 7); [| intros _ | lia | lia].
  { eapply in_order_weaken; [apply eigen_analysis_order | lia | lia]. }
  eapply in_order_weaken; [apply plot_order | lia | lia].
Qed.

Lemma run_order c : in_order 1 7 (fst (run W c)).
Proof.
  unfold run.
  apply (in_order_bind 1 2 7); [apply assemble_order | | lia | lia].
  intros [[[[[casename ndims] x] y] z] ab].
  eapply in_order_weaken; [apply solve_and_report_order | lia | lia].
Qed.

End Order.
End OrderFacts.

(** ** The driver: what a run that assembles its system does *)

Module RunFacts.
Import PyStr PyGetopt Eff Cli Driver EffFacts CliFacts OrderFacts.
Local Open Scope Z_scope.

Section Run.
Context {T D S E : Type} {num : Scalar T}.
Variable W : collaborators T D S E.

Abbreviation ev := (@event T D S).

Lemma bind_ret_inv {A B} (m : M ev A) (f : A -> M ev B) tr b :
  bind m f = (tr, Ret b) ->
  exists t1 a t2, m = (t1, Ret a) /\ f a = (t2, Ret b) /\ tr = t1 ++ t2.
Proof.
  destruct m as [t1 [a|code|exc]]; simpl; try discriminate.
  destruct (f a) as [t2 r] eqn:F. intros H. inversion H; subst.
  exists t1, a, t2. repeat split; assumption.
Qed.

Lemma local_ret_inv {A} (v : option A) tr a :
  (local v : M ev A) = (tr, Ret a) -> v = Some a.
Proof. destruct v; simpl; intros H; inversion H; reflexivity. Qed.

(** Takes a successful block apart, statement by statement. *)
Ltac inv_run H :=
  repeat match type of H with
         | bind _ _ = (_, Ret _) =>
             let t1 := fresh "t" in
             let a := fresh "a" in
             let t2 := fresh "t" in
             let H1 := fresh "H" in
             apply bind_ret_inv in H;
             destruct H as (t1 & a & t2 & H1 & H & ?);
             try (apply local_ret_inv in H1; subst)
         end.

(** Once the system is assembled, the axes the dimension needs are bound. *)
Lemma matrix_and_rhs_extents dg ndims rdict x y z tr A b :
  matrix_and_rhs W dg ndims rdict x y z = (tr, Ret (Some (A, b))) ->
  exists nx ny nz, extents ndims x y z = Some (nx, ny, nz).
Proof.
  unfold matrix_and_rhs, extents. intros H.
  destruct (ndims =? 1); [|destruct (ndims =? 2); [|destruct (ndims =? 3)]].
  - inv_run H. eauto.
  - inv_run H. eauto.
  - inv_run H. eauto.
  - inversion H.
Qed.

Lemma assemble_extents c tr0 casename ndims x y z A b :
  assemble W c = (tr0, Ret (casename, ndims, x, y, z, Some (A, b))) ->
  exists nx ny nz, extents ndims x y z = Some (nx, ny, nz).
Proof.
  unfold assemble. intros H.
  destruct (parse_meshfile W (inputfile c)) as [[cn nd] rd].
  inv_run H. inversion H; subst.
  eapply matrix_and_rhs_extents; eassumption.
Qed.

Lemma reorder_or_identity_run od ndims x y z A b nx ny nz q a' b' :
  extents ndims x y z = Some (nx, ny, nz) ->
  solved_system W od A b nx ny nz = (q, a', b') ->
  reorder_or_identity W od ndims x y z (Some (A, b))
  = ((if od then [Reorder A b nx ny nz] else []), Ret (Some q, Some (a', b'))).
Proof.
  unfold extents, solved_system, reorder_or_identity, call_reorder.
  intros He Hs. destruct od.
  - destruct (ndims =? 1); [|destruct (ndims =? 2); [|destruct (ndims =? 3)]];
      [destruct x | destruct x, y | destruct x, y, z | ];
      inversion He; subst; simpl; rewrite Hs; reflexivity.
  - inversion Hs; subst. reflexivity.
Qed.

Lemma plot_run c ndims x y z nx ny nz a b s status :
  extents ndims x y z = Some (nx, ny, nz) ->
  plot c ndims x y z (Some (a, b)) s status
  = (plot_events c ndims x y z a s status : list ev, Ret tt).
Proof.
  unfold extents, plot, plot_events. intros He.
  destruct (splot c), (mplot c);
    (destruct (ndims =? 1) eqn:E1;
       [apply Z.eqb_eq in E1; subst ndims
       |destruct (ndims =? 2) eqn:E2;
          [apply Z.eqb_eq in E2; subst ndims
          |destruct (ndims =? 3) eqn:E3; [apply Z.eqb_eq in E3; subst ndims|]]]);
    [destruct x | destruct x, y | destruct x, y, z | | destruct x | destruct x, y
     | destruct x, y, z | | destruct x | destruct x, y | destruct x, y, z |
     | destruct x | destruct x, y | destruct x, y, z | ];
    inversion He; subst; reflexivity.
Qed.

(** The eigen analysis, spelled out. *)
Lemma eigen_analysis_off ab : eigen_analysis W false ab = ([], Ret tt).
Proof. reflexivity. Qed.

Lemma eigen_analysis_on a b :
  eigen_analysis W true (Some (a, b))
  = match Np.py_min (map (np_abs W) (eigvals W (symmetrised a))),
          Np.py_max (map (np_abs W) (eigvals W (symmetrised a))) with
    | Some emin, Some emax =>
        ([Stdout (nl +++ "calculating eigenvalues:");
          Eigvals (symmetrised a);
          PrintValue (tab +++ "condition number:  ") (div emax emin);
          PrintValue (tab +++ "min abs eigenvalue:") emin;
          PrintValue (tab +++ "max abs eigenvalue:") emax], Ret tt)
    | _, _ =>
        ([Stdout (nl +++ "calculating eigenvalues:"); Eigvals (symmetrised a)],
         Raise "ValueError")
    end.
Proof.
  unfold eigen_analysis. cbn [local]. rewrite bind_emit, bind_ret_l. cbv zeta.
  fold (symmetrised a).
  destruct (map (np_abs W) (eigvals W (symmetrised a))); reflexivity.
Qed.

(** The diagnostics end normally or with the [ValueError] of an empty
    spectrum; they never exit. *)
Lemma eigen_analysis_outcome eg a b :
  snd (eigen_analysis W eg (Some (a, b))) = Ret tt
  \/ (eg = true /\ eigvals W (symmetrised a) = []
      /\ snd (eigen_analysis W eg (Some (a, b))) = Raise "ValueError").
Proof.
  destruct eg; [|left; reflexivity].
  rewrite eigen_analysis_on.
  destruct (eigvals W (symmetrised a)); [right; repeat split | left]; reflexivity.
Qed.

Lemma solve_run a b :
  solve W (Some (a, b))
  = ([Spsolve (csr_matrix W a) b;
      PrintStatus (Np.allclose (Np.dot a (spsolve W (csr_matrix W a) b)) b)],
     Ret (spsolve W (csr_matrix W a) b,
          Np.allclose (Np.dot a (spsolve W (csr_matrix W a) b)) b)).
Proof. reflexivity. Qed.

Lemma permute_solution_run od q s :
  permute_solution od (Some q) s = ([] : list ev, Ret (final_solution od q s)).
Proof. destruct od; reflexivity. Qed.

Lemma save_run c casename a b s q st :
  save c casename (Some (a, b)) s (Some q) st
  = ([CaseSaveNpz a b s q st (degen c) (order c) casename;
      CaseSaveBin a b s q st (degen c) (order c) casename] : list ev, Ret tt).
Proof. reflexivity. Qed.

(** A whole run after a successful assembly. *)
Lemma solve_and_report_run c casename ndims x y z A b nx ny nz q a' b' :
  extents ndims x y z = Some (nx, ny, nz) ->
  solved_system W (order c) A b nx ny nz = (q, a', b') ->
  let s' := spsolve W (csr_matrix W a') b' in
  let st := Np.allclose (Np.dot a' s') b' in
  let s := final_solution (order c) q s' in
  solve_and_report W c casename ndims x y z (Some (A, b))
  = ((if order c then [Reorder A b nx ny nz] else [])
     ++ [Spsolve (csr_matrix W a') b'; PrintStatus st;
         CaseSaveNpz a' b' s q st (degen c) (order c) casename;
         CaseSaveBin a' b' s q st (degen c) (order c) casename]
     ++ fst (eigen_analysis W (eigen c) (Some (a', b')))
     ++ match snd (eigen_analysis W (eigen c) (Some (a', b'))) with
        | Ret _ => plot_events c ndims x y z a' s st
        | _ => []
        end,
     snd (eigen_analysis W (eigen c) (Some (a', b')))).
Proof.
  intros He Hs s' st s. unfold solve_and_report.
  rewrite (reorder_or_identity_run _ _ _ _ _ _ _ _ _ _ _ _ _ He Hs).
  rewrite bind_events. cbn beta iota.
  rewrite solve_run, bind_events. cbn beta iota.
  rewrite permute_solution_run, bind_events. cbn beta iota.
  rewrite save_run, bind_events. cbn beta iota.
  rewrite (plot_run c ndims x y z nx ny nz a' b' _ _ He).
  fold s' st s.
  destruct (eigen_analysis W (eigen c) (Some (a', b'))) as [te [[]|code|exc]];
    cbn [bind fst snd app]; rewrite <- ?app_assoc, ?app_nil_r; reflexivity.
Qed.

(** The same, from the start of [run]. *)
Lemma run_assembled c tr0 casename ndims x y z A b :
  assemble W c = (tr0, Ret (casename, ndims, x, y, z, Some (A, b))) ->
  exists nx ny nz q a' b',
    extents ndims x y z = Some (nx, ny, nz)
    /\ solved_system W (order c) A b nx ny nz = (q, a', b')
    /\ run W c
       = (tr0
          ++ (if order c then [Reorder A b nx ny nz] else [])
          ++ [Spsolve (csr_matrix W a') b';
              PrintStatus (Np.allclose (Np.dot a' (spsolve W (csr_matrix W a') b')) b');
              CaseSaveNpz a' b' (final_solution (order c) q (spsolve W (csr_matrix W a') b')) q
                          (Np.allclose (Np.dot a' (spsolve W (csr_matrix W a') b')) b')
                          (degen c) (order c) casename;
              CaseSaveBin a' b' (final_solution (order c) q (spsolve W (csr_matrix W a') b')) q
                          (Np.allclose (Np.dot a' (spsolve W (csr_matrix W a') b')) b')
                          (degen c) (order c) casename]
          ++ fst (eigen_analysis W (eigen c) (Some (a', b')))
          ++ match snd (eigen_analysis W (eigen c) (Some (a', b'))) with
             | Ret _ =>
                 plot_events c ndims x y z a'
                   (final_solution (order c) q (spsolve W (csr_matrix W a') b'))
                   (Np.allclose (Np.dot a' (spsolve W (csr_matrix W a') b')) b')
             | _ => []
             end,
          snd (eigen_analysis W (eigen c) (Some (a', b')))).
Proof.
  intros Ha. destruct (assemble_extents _ _ _ _ _ _ _ _ _ Ha) as (nx & ny & nz & He).
  destruct (solved_system W (order c) A b nx ny nz) as [[q a'] b'] eqn:Hs.
  exists nx, ny, nz, q, a', b'. split; [exact He|]. split; [exact Hs|].
  unfold run. rewrite Ha, bind_events. cbn beta iota.
  rewrite (solve_and_report_run c casename ndims x y z A b nx ny nz q a' b' He Hs).
  reflexivity.
Qed.

(** Configuration comes first: the driver does nothing before [read_args]
    has returned, and nothing at all when it exits. *)
Lemma laplace_configured fs argv out c :
  read_args fs argv = (out, Ret c) -> laplace W fs argv = run W c.
Proof.
  intros H. pose proof (read_args_returns_silently _ _ _ _ H) as ->.
  unfold laplace. rewrite H. unfold lift. cbn [map fst snd].
  apply bind_ret_l.
Qed.

Lemma laplace_exits fs argv out code :
  read_args fs argv = (out, Exit code) ->
  laplace W fs argv = (map Stdout out, Exit code).
Proof. intros H. unfold laplace. rewrite H. reflexivity. Qed.

Lemma read_args_never_raises fs argv out exc : read_args fs argv <> (out, Raise exc).
Proof.
  intros H. destruct (getopt argv shortopts longopts) as [[opts args]|m o] eqn:G.
  - destruct (has_help opts) eqn:Hh.
    + rewrite (read_args_help fs argv opts args G Hh) in H. discriminate.
    + destruct (read_args_no_help fs argv opts args G Hh) as (c0 & _ & _ & R).
      rewrite R in H. destruct (Os.isfile fs (named_input opts)); discriminate.
  - rewrite (read_args_usage fs argv m o G) in H. discriminate.
Qed.

End Run.
End RunFacts.

(** ** NumPy arrays: shapes and entries *)

Module NpFacts.
Import Np.

Section Shapes.
Context {T : Type} {num : Scalar T}.

Abbreviation mat := (Np.matrix T).

Lemma nth_nil {A} i (d : A) : nth i [] d = d.
Proof. destruct i; reflexivity. Qed.

Lemma has_shape_row n m (a : mat) i :
  has_shape n m a -> (i < n)%nat -> List.length (nth i a []) = m.
Proof.
  intros [Hn Hr] Hi. rewrite Forall_forall in Hr. apply Hr, nth_In. lia.
Qed.

Lemma has_shape_ncols n m (a : mat) : has_shape n m a -> (0 < n)%nat -> ncols a = m.
Proof.
  intros [Hn Hr] Hp. destruct a as [|r a]; [simpl in Hn; lia|].
  inversion Hr; subst. reflexivity.
Qed.

Lemma zeros_shape n m : has_shape n m (zeros n m).
Proof.
  unfold zeros. split; [apply repeat_length|].
  apply Forall_forall. intros r Hr. apply repeat_spec in Hr. subst. apply repeat_length.
Qed.

Lemma entry_zeros n m i j : entry (zeros n m) i j = zero.
Proof.
  unfold entry, zeros.
  destruct (Nat.lt_ge_cases i n) as [Hi|Hi].
  - rewrite nth_repeat_lt by exact Hi.
    destruct (Nat.lt_ge_cases j m) as [Hj|Hj].
    + apply nth_repeat_lt, Hj.
    + apply nth_overflow. rewrite repeat_length. exact Hj.
  - rewrite (nth_overflow (repeat (repeat zero m) n)) by (rewrite repeat_length; exact Hi).
    apply nth_nil.
Qed.

Lemma identity_shape n : has_shape n n (identity n).
Proof.
  unfold identity. split.
  - rewrite length_map, length_seq. reflexivity.
  - apply Forall_forall. intros r Hr. apply in_map_iff in Hr.
    destruct Hr as (i & <- & _). rewrite length_map, length_seq. reflexivity.
Qed.

Lemma entry_identity n i j :
  (i < n)%nat -> (j < n)%nat ->
  entry (identity n) i j = if Nat.eqb i j then one else zero.
Proof.
  intros Hi Hj. unfold entry, identity.
  rewrite (nth_indep _ [] (map (fun j => if Nat.eqb 0 j then one else zero) (seq 0 n)))
    by (rewrite length_map, length_seq; exact Hi).
  rewrite (map_nth (fun i => map (fun j => if Nat.eqb i j then one else zero) (seq 0 n))).
  rewrite seq_nth by exact Hi. simpl.
  rewrite (nth_indep _ zero (if Nat.eqb i 0 then one else zero))
    by (rewrite length_map, length_seq; exact Hj).
  rewrite (map_nth (fun j => if Nat.eqb i j then one else zero)).
  rewrite seq_nth by exact Hj. reflexivity.
Qed.

Lemma transpose_shape n (a : mat) : has_shape n n a -> has_shape n n (transpose a).
Proof.
  intros H. unfold transpose. destruct (Nat.eq_dec n 0) as [->|Hn].
  - destruct H as [H0 _]. apply length_zero_iff_nil in H0. subst a. split; constructor.
  - rewrite (has_shape_ncols n n a H) by lia. split.
    + rewrite length_map, length_seq. reflexivity.
    + apply Forall_forall. intros r Hr. apply in_map_iff in Hr.
      destruct Hr as (j & <- & _). rewrite length_map. apply H.
Qed.

Lemma entry_transpose n (a : mat) i j :
  has_shape n n a -> (i < n)%nat -> (j < n)%nat ->
  entry (transpose a) i j = entry a j i.
Proof.
  intros H Hi Hj. unfold entry, transpose.
  rewrite (has_shape_ncols n n a H) by lia.
  rewrite (nth_indep _ [] (map (fun r => nth 0 r zero) a))
    by (rewrite length_map, length_seq; exact Hi).
  rewrite (map_nth (fun j => map (fun r => nth j r zero) a)).
  rewrite seq_nth by exact Hi. simpl.
  rewrite (nth_indep _ zero (nth i [] zero))
    by (rewrite length_map; destruct H as [-> _]; exact Hj).
  rewrite (map_nth (fun r => nth i r zero)). reflexivity.
Qed.

Lemma hstack_shape n m1 m2 (a b : mat) :
  has_shape n m1 a -> has_shape n m2 b -> has_shape n (m1 + m2) (hstack a b).
Proof.
  intros [Ha Ra] [Hb Rb]. unfold hstack. split.
  - rewrite length_map, length_combine. lia.
  - apply Forall_forall. intros r Hr. apply in_map_iff in Hr.
    destruct Hr as ([r1 r2] & <- & Hin). simpl. rewrite length_app.
    rewrite Forall_forall in Ra, Rb.
    rewrite (Ra r1) by (eapply in_combine_l; exact Hin).
    rewrite (Rb r2) by (eapply in_combine_r; exact Hin). reflexivity.
Qed.

Lemma entry_hstack n m1 m2 (a b : mat) i j :
  has_shape n m1 a -> has_shape n m2 b -> (i < n)%nat ->
  entry (hstack a b) i j = if Nat.ltb j m1 then entry a i j else entry b i (j - m1).
Proof.
  intros Ha Hb Hi. unfold entry, hstack.
  rewrite (map_nth (fun p : list T * list T => fst p ++ snd p) (combine a b) ([], [])).
  rewrite combine_nth by (destruct Ha as [-> _], Hb as [-> _]; reflexivity).
  simpl. pose proof (has_shape_row n m1 a i Ha Hi) as L.
  destruct (Nat.ltb_spec j m1).
  - apply app_nth1. lia.
  - rewrite app_nth2 by lia. rewrite L. reflexivity.
Qed.

Lemma vstack_shape n1 n2 m (a b : mat) :
  has_shape n1 m a -> has_shape n2 m b -> has_shape (n1 + n2) m (a ++ b).
Proof.
  intros [Ha Ra] [Hb Rb]. split.
  - rewrite length_app. lia.
  - apply Forall_app. split; assumption.
Qed.

Lemma entry_vstack n m (a b : mat) i j :
  has_shape n m a ->
  entry (a ++ b) i j = if Nat.ltb i n then entry a i j else entry b (i - n) j.
Proof.
  intros [Ha _]. unfold entry. destruct (Nat.ltb_spec i n).
  - rewrite app_nth1 by lia. reflexivity.
  - rewrite app_nth2 by lia. rewrite Ha. reflexivity.
Qed.

(** The block matrix [[0, a], [a^T, 0]] of a square [a]. *)
Lemma block_shape n (a : mat) :
  has_shape n n a ->
  has_shape (n + n) (n + n) (block (zeros n n) a (transpose a) (zeros n n)).
Proof.
  intros H. unfold block. apply vstack_shape; apply hstack_shape;
    auto using zeros_shape, transpose_shape.
Qed.

Lemma entry_block n (a : mat) i j :
  has_shape n n a -> (i < n + n)%nat -> (j < n + n)%nat ->
  entry (block (zeros n n) a (transpose a) (zeros n n)) i j
  = if Nat.ltb i n
    then (if Nat.ltb j n then zero else entry a i (j - n))
    else (if Nat.ltb j n then entry a j (i - n) else zero).
Proof.
  intros H Hi Hj. unfold block.
  rewrite (entry_vstack n (n + n)) by (apply hstack_shape; auto using zeros_shape).
  destruct (Nat.ltb_spec i n).
  - rewrite (entry_hstack n n n) by auto using zeros_shape.
    destruct (Nat.ltb_spec j n); [apply entry_zeros | reflexivity].
  - rewrite (entry_hstack n n n) by (auto using zeros_shape, transpose_shape; lia).
    destruct (Nat.ltb_spec j n); [|apply entry_zeros].
    apply (entry_transpose n); [assumption | lia | assumption].
Qed.

End Shapes.
End NpFacts.

(** ** Reading the trace of a run *)

Module TraceFacts.
Import PyStr Eff Cli Driver EffFacts OrderFacts RunFacts.

Section Trace.
Context {T D S E : Type} {num : Scalar T}.
Variable W : collaborators T D S E.

Abbreviation ev := (@event T D S).

(** A reading that only picks events of the stage ranked [k] finds nothing
    in a trace whose stages lie elsewhere. *)
Lemma reading_nil {X} (f : ev -> list X) k lo hi (tr : list ev) :
  (forall e, f e <> [] -> exists s, stage_of e = Some s /\ rank s = k) ->
  in_order lo hi tr -> (k < lo \/ hi < k)%nat ->
  flat_map f tr = [].
Proof.
  intros Hf [_ Hb] Hk. unfold stages in Hb.
  induction tr as [|e tr IH]; [reflexivity|].
  simpl in Hb |- *. apply Forall_app in Hb. destruct Hb as [He Ht].
  rewrite (IH Ht), app_nil_r.
  destruct (f e) as [|v l] eqn:Fe; [reflexivity|]. exfalso.
  destruct (Hf e) as (s & Hs & Hr); [rewrite Fe; discriminate|].
  rewrite Hs in He. inversion He; subst. lia.
Qed.

Ltac reading k :=
  intros; eapply (reading_nil _ k); [| eassumption | assumption];
  intros [] Hne; try (exfalso; apply Hne; reflexivity); eexists; split; reflexivity.

Lemma statuses_nil lo hi (tr : list ev) :
  in_order lo hi tr -> (4 < lo \/ hi < 4)%nat -> statuses tr = [].
Proof. reading 4%nat. Qed.

Lemma solves_nil lo hi (tr : list ev) :
  in_order lo hi tr -> (4 < lo \/ hi < 4)%nat -> solves tr = [].
Proof. reading 4%nat. Qed.

Lemma reorders_nil lo hi (tr : list ev) :
  in_order lo hi tr -> (3 < lo \/ hi < 3)%nat -> reorders tr = [].
Proof. reading 3%nat. Qed.

Lemma saved_npz_nil lo hi (tr : list ev) :
  in_order lo hi tr -> (5 < lo \/ hi < 5)%nat -> saved_npz tr = [].
Proof. reading 5%nat. Qed.

Lemma saved_bin_nil lo hi (tr : list ev) :
  in_order lo hi tr -> (5 < lo \/ hi < 5)%nat -> saved_bin tr = [].
Proof. reading 5%nat. Qed.

Lemma eigvals_args_nil lo hi (tr : list ev) :
  in_order lo hi tr -> (6 < lo \/ hi < 6)%nat -> eigvals_args tr = [].
Proof. reading 6%nat. Qed.

Lemma printed_values_nil lo hi (tr : list ev) :
  in_order lo hi tr -> (6 < lo \/ hi < 6)%nat -> printed_values tr = [].
Proof. reading 6%nat. Qed.

Lemma plots_nil lo hi (tr : list ev) :
  in_order lo hi tr -> (7 < lo \/ hi < 7)%nat -> plots tr = [].
Proof. reading 7%nat. Qed.

(** The plots a configuration asks for are plots, all of them. *)
Lemma plots_plot_events c ndims x y z a s st :
  plots (plot_events c ndims x y z a s st : list ev) = plot_events c ndims x y z a s st.
Proof.
  unfold plot_events.
  destruct (splot c), (mplot c), (ndims =? 1)%Z, (ndims =? 2)%Z, (ndims =? 3)%Z, x, y, z;
    reflexivity.
Qed.

Lemma plot_events_order c ndims x y z a s st :
  in_order 7 7 (plot_events c ndims x y z a s st : list ev).
Proof.
  unfold plot_events.
  destruct (splot c), (mplot c), (ndims =? 1)%Z, (ndims =? 2)%Z, (ndims =? 3)%Z, x, y, z;
    cbn [app]; unfold in_order; cbn; split; repeat constructor.
Qed.

(** The tail of a run: the plots, unless the diagnostics raised. *)
Lemma tail_order {A} (r : result A) (l : list ev) :
  in_order 7 7 l -> in_order 7 7 (match r with Ret _ => l | _ => [] end).
Proof. intros H. destruct r; [exact H | apply in_order_nil | apply in_order_nil]. Qed.

Lemma statuses_app (t1 t2 : list ev) : statuses (t1 ++ t2) = statuses t1 ++ statuses t2.
Proof. apply flat_map_app. Qed.

Lemma solves_app (t1 t2 : list ev) : solves (t1 ++ t2) = solves t1 ++ solves t2.
Proof. apply flat_map_app. Qed.

Lemma reorders_app (t1 t2 : list ev) : reorders (t1 ++ t2) = reorders t1 ++ reorders t2.
Proof. apply flat_map_app. Qed.

Lemma saved_npz_app (t1 t2 : list ev) : saved_npz (t1 ++ t2) = saved_npz t1 ++ saved_npz t2.
Proof. apply flat_map_app. Qed.

Lemma saved_bin_app (t1 t2 : list ev) : saved_bin (t1 ++ t2) = saved_bin t1 ++ saved_bin t2.
Proof. apply flat_map_app. Qed.

Lemma eigvals_args_app (t1 t2 : list ev) :
  eigvals_args (t1 ++ t2) = eigvals_args t1 ++ eigvals_args t2.
Proof. apply flat_map_app. Qed.

Lemma printed_values_app (t1 t2 : list ev) :
  printed_values (t1 ++ t2) = printed_values t1 ++ printed_values t2.
Proof. apply flat_map_app. Qed.

Lemma plots_app (t1 t2 : list ev) : plots (t1 ++ t2) = plots t1 ++ plots t2.
Proof. apply flat_map_app. Qed.

(** Everything a run that assembled the system [(A, b)] shows of itself. *)
Lemma run_readings c tr0 casename ndims x y z A b :
  assemble W c = (tr0, Ret (casename, ndims, x, y, z, Some (A, b))) ->
  exists nx ny nz q a' b',
    extents ndims x y z = Some (nx, ny, nz)
    /\ solved_system W (order c) A b nx ny nz = (q, a', b')
    /\ reorders (fst (run W c)) = (if order c then [(A, b, nx, ny, nz)] else [])
    /\ solves (fst (run W c)) = [(csr_matrix W a', b')]
    /\ statuses (fst (run W c))
       = [Np.allclose (Np.dot a' (spsolve W (csr_matrix W a') b')) b']
    /\ saved_npz (fst (run W c))
       = [CaseRecord a' b' (final_solution (order c) q (spsolve W (csr_matrix W a') b')) q
                     (Np.allclose (Np.dot a' (spsolve W (csr_matrix W a') b')) b')
                     (degen c) (order c) casename]
    /\ saved_bin (fst (run W c)) = saved_npz (fst (run W c))
    /\ eigvals_args (fst (run W c)) = (if eigen c then [symmetrised a'] else [])
    /\ printed_values (fst (run W c))
       = printed_values (fst (eigen_analysis W (eigen c) (Some (a', b'))))
    /\ plots (fst (run W c))
       = match snd (run W c) with
         | Ret _ =>
             plot_events c ndims x y z a'
               (final_solution (order c) q (spsolve W (csr_matrix W a') b'))
               (Np.allclose (Np.dot a' (spsolve W (csr_matrix W a') b')) b')
         | _ => []
         end
    /\ snd (run W c) = snd (eigen_analysis W (eigen c) (Some (a', b'))).
Proof.
  intros Ha.
  destruct (run_assembled W c tr0 casename ndims x y z A b Ha)
    as (nx & ny & nz & q & a' & b' & He & Hs & Hrun).
  exists nx, ny, nz, q, a', b'. split; [exact He|]. split; [exact Hs|].
  rewrite Hrun. cbn [fst snd].
  assert (O0 : in_order 1 2 tr0).
  { pose proof (assemble_order W c) as H. rewrite Ha in H. exact H. }
  pose proof (eigen_analysis_order W (eigen c) (Some (a', b'))) as OE.
  set (ea := eigen_analysis W (eigen c) (Some (a', b'))) in *.
  set (s' := spsolve W (csr_matrix W a') b').
  set (st := Np.allclose (Np.dot a' s') b').
  set (s := final_solution (order c) q s').
  assert (OP : in_order 7 7 (match snd ea with
                             | Ret _ => plot_events c ndims x y z a' s st : list ev
                             | _ => []
                             end)) by apply tail_order, plot_events_order.
  repeat split.
  - rewrite !reorders_app, (reorders_nil 1 2 tr0), (reorders_nil 6 6 (fst ea)),
      (reorders_nil 7 7 _ OP) by (assumption || lia).
    destruct (order c); reflexivity.
  - rewrite !solves_app, (solves_nil 1 2 tr0), (solves_nil 6 6 (fst ea)),
      (solves_nil 7 7 _ OP) by (assumption || lia).
    destruct (order c); reflexivity.
  - rewrite !statuses_app, (statuses_nil 1 2 tr0), (statuses_nil 6 6 (fst ea)),
      (statuses_nil 7 7 _ OP) by (assumption || lia).
    destruct (order c); reflexivity.
  - rewrite !saved_npz_app, (saved_npz_nil 1 2 tr0), (saved_npz_nil 6 6 (fst ea)),
      (saved_npz_nil 7 7 _ OP) by (assumption || lia).
    destruct (order c); reflexivity.
  - rewrite !saved_npz_app, (saved_npz_nil 1 2 tr0), (saved_npz_nil 6 6 (fst ea)),
      (saved_npz_nil 7 7 _ OP) by (assumption || lia).
    rewrite !saved_bin_app, (saved_bin_nil 1 2 tr0), (saved_bin_nil 6 6 (fst ea)),
      (saved_bin_nil 7 7 _ OP) by (assumption || lia).
    destruct (order c); reflexivity.
  - rewrite !eigvals_args_app, (eigvals_args_nil 1 2 tr0),
      (eigvals_args_nil 7 7 _ OP) by (assumption || lia).
    subst ea. destruct (order c), (eigen c); cbn [app eigvals_args flat_map];
      rewrite ?eigen_analysis_on;
      repeat match goal with
             | |- context [match ?o with Some _ => _ | None => _ end] => destruct o
             end; reflexivity.
  - rewrite !printed_values_app, (printed_values_nil 1 2 tr0),
      (printed_values_nil 7 7 _ OP) by (assumption || lia).
    destruct (order c); cbn [app printed_values flat_map]; rewrite app_nil_r; reflexivity.
  - rewrite !plots_app, (plots_nil 1 2 tr0), (plots_nil 6 6 (fst ea)) by (assumption || lia).
    assert (R : plots (if order c then [Reorder A b nx ny nz] else [] : list ev) = [])
      by (destruct (order c); reflexivity).
    rewrite R. cbn [app plots flat_map].
    destruct (snd ea); [apply plots_plot_events | reflexivity | reflexivity].
Qed.

End Trace.
End TraceFacts.

(** * The command line *)

Module CommandLine.
Import PyStr PyGetopt Eff Cli Driver TestWorld EffFacts GetoptFacts CliFacts RunFacts.
Local Open Scope Z_scope.

Lemma fold_input_none opts : forall acc,
  names_input opts = false ->
  fold_left (fun acc p => if mem (fst p) ["-i"; "--i"] then snd p else acc) opts acc = acc.
Proof.
  induction opts as [|[o a] opts IH]; intros acc H; [reflexivity|].
  cbn [names_input existsb fst] in H. apply orb_false_iff in H. destruct H as [Ho H].
  cbn [fold_left fst snd]. rewrite Ho. apply IH, H.
Qed.

Lemma named_input_none opts : names_input opts = false -> named_input opts = "".
Proof. apply fold_input_none. Qed.

Lemma handle_opt_cut c o v :
  o = "-c" \/ o = "--c" -> handle_opt c o v = ([], Ret (set_cut3d v c)).
Proof. intros [->| ->]; reflexivity. Qed.

(** C5 (amended).  Exit codes of the program, by what [getopt] makes of the
    argument vector: a parsing error prints the usage error and exits with 2;
    after a successful parse, [-h] among the parsed options prints the help
    and exits with 0, whatever the input file; without [-h], an input file
    (the argument of the last [-i], the empty path by default) that does not
    exist prints the complaint and exits with 3; otherwise the configuration
    is returned and the pipeline runs. *)
Theorem exit_codes {T D S E : Type} {num : Scalar T} (W : collaborators T D S E)
        (fs : Os.filesystem) (argv : list string) :
  match getopt argv shortopts longopts with
  | GetoptError _ _ =>
      laplace W fs argv = (map Stdout usage_error, Exit (Some 2))
      /\ exit_status (laplace W fs argv) = 2
  | Ok (opts, _) =>
      if has_help opts then
        laplace W fs argv = (map Stdout help_text, Exit None)
        /\ exit_status (laplace W fs argv) = 0
      else if Os.isfile fs (named_input opts) then
        exists c, read_args fs argv = ([], Ret c)
                  /\ inputfile c = named_input opts
                  /\ laplace W fs argv = run W c
      else
        laplace W fs argv
        = ([Stdout (missing_file_message (named_input opts))], Exit (Some 3))
        /\ exit_status (laplace W fs argv) = 3
  end.
Proof.
  destruct (getopt argv shortopts longopts) as [[opts args]|m o] eqn:G.
  - destruct (has_help opts) eqn:Hh.
    + pose proof (read_args_help fs argv opts args G Hh) as R.
      rewrite (laplace_exits W fs argv _ _ R). split; reflexivity.
    + destruct (read_args_no_help fs argv opts args G Hh) as (c & _ & Hi & R).
      destruct (Os.isfile fs (named_input opts)).
      * exists c. split; [exact R|]. split; [exact Hi|].
        apply (laplace_configured W fs argv [] c R).
      * rewrite (laplace_exits W fs argv _ _ R). split; reflexivity.
  - pose proof (read_args_usage fs argv m o G) as R.
    rewrite (laplace_exits W fs argv _ _ R). split; reflexivity.
Qed.

(** C5, as stated, fails.  With [-i nofile -h] parsing succeeds and the named
    file does not exist, yet the program prints the help and exits with 0, not
    3; with [-h -z] the help flag is given, yet parsing fails and the program
    exits with 2, not 0. *)
Lemma help_and_missing_file_overlap :
  getopt ["-i"; "nofile"; "-h"] shortopts longopts
  = Ok ([("-i", "nofile"); ("-h", "")], [])
  /\ Os.isfile {| Os.regular_files := [] |} "nofile" = false
  /\ exit_status (laplace W3 {| Os.regular_files := [] |} ["-i"; "nofile"; "-h"]) = 0
  /\ In "-h" ["-h"; "-z"]
  /\ exit_status (laplace W3 fs ["-h"; "-z"]) = 2.
Proof. repeat split; try reflexivity. left; reflexivity. Qed.

(** C9 (amended).  When parsing succeeds, [-h] is not among the parsed
    options and neither [-i] nor [--i] is, the input file is the empty path,
    which names no file: the program prints the complaint and exits with 3. *)
Theorem no_input_file_exits_3 {T D S E : Type} {num : Scalar T}
        (W : collaborators T D S E) (fs : Os.filesystem) (argv : list string)
        (opts : optlist) (args : list string) :
  getopt argv shortopts longopts = Ok (opts, args) ->
  has_help opts = false ->
  names_input opts = false ->
  laplace W fs argv = ([Stdout (missing_file_message "")], Exit (Some 3))
  /\ exit_status (laplace W fs argv) = 3.
Proof.
  intros G Hh Hn.
  destruct (read_args_no_help fs argv opts args G Hh) as (c & _ & _ & R).
  rewrite (named_input_none opts Hn) in R.
  change (Os.isfile fs "") with false in R.
  rewrite (laplace_exits W fs argv _ _ R). split; reflexivity.
Qed.

Lemma no_input_file_exits_3_witness :
  getopt ["-r"; "-e"] shortopts longopts = Ok ([("-r", ""); ("-e", "")], [])
  /\ has_help [("-r", ""); ("-e", "")] = false
  /\ names_input [("-r", ""); ("-e", "")] = false
  /\ laplace W3 fs ["-r"; "-e"] = ([Stdout (missing_file_message "")], Exit (Some 3))
  /\ exit_status (laplace W3 fs ["-r"; "-e"]) = 3.
Proof.
  split; [reflexivity|]. split; [reflexivity|]. split; [reflexivity|].
  apply (no_input_file_exits_3 W3 fs ["-r"; "-e"] [("-r", ""); ("-e", "")] []);
    reflexivity.
Defined.

(** C9, as stated, fails.  Neither [-h] nor [-z] contains the [-i] flag; the
    first exits with 0 after the help, the second with the usage-error code
    2. *)
Lemma absent_input_flag_other_exits :
  ~ In "-i" ["-h"]
  /\ exit_status (laplace W3 fs ["-h"]) = 0
  /\ ~ In "-i" ["-z"]
  /\ exit_status (laplace W3 fs ["-z"]) = 2.
Proof.
  repeat split; try reflexivity; intros [H|[]]; discriminate H.
Qed.



End CommandLine.

(** ** Permutations in exact arithmetic *)

Module PermFacts.
Import Np NpFacts.

Section Perm.
Context {T : Type} {num : Scalar T} {exact : Exact T}.

Lemma add_zero_r (x : T) : add x zero = x.
Proof. rewrite exact_add_comm. apply exact_add_0_l. Qed.

Lemma sum_from (l : list T) (acc : T) :
  fold_left add l acc = add acc (fold_left add l zero).
Proof.
  revert acc. induction l as [|x l IH]; intros acc; simpl.
  - symmetry. apply add_zero_r.
  - rewrite (IH (add acc x)), (IH (add zero x)), exact_add_0_l.
    symmetry. apply exact_add_assoc.
Qed.

Lemma sum_permutation (l l' : list T) :
  Permutation l l' -> forall acc, fold_left add l acc = fold_left add l' acc.
Proof.
  induction 1 as [|x l l' _ IH|x y l|l l' l'' _ IH1 _ IH2]; intros acc; simpl.
  - reflexivity.
  - apply IH.
  - f_equal. rewrite <- !exact_add_assoc. f_equal. apply exact_add_comm.
  - rewrite IH1. apply IH2.
Qed.

Lemma forallb_permutation {A} (h : A -> bool) (l l' : list A) :
  Permutation l l' -> forallb h l = forallb h l'.
Proof.
  induction 1 as [|x l l' _ IH|x y l|l l' l'' _ IH1 _ IH2]; simpl.
  - reflexivity.
  - rewrite IH. reflexivity.
  - destruct (h x), (h y); reflexivity.
  - rewrite IH1. exact IH2.
Qed.

Lemma combine_map_same {A B C} (f : A -> B) (g : A -> C) (l : list A) :
  combine (map f l) (map g l) = map (fun p => (f p, g p)) l.
Proof. induction l as [|p l IH]; simpl; [reflexivity | rewrite IH; reflexivity]. Qed.

Lemma nth_map_seq {A} (f : nat -> A) (n j : nat) (d : A) :
  (j < n)%nat -> nth j (map f (seq 0 n)) d = f j.
Proof.
  intros Hj. rewrite (nth_indep _ d (f 0%nat)) by (rewrite length_map, length_seq; exact Hj).
  rewrite map_nth, seq_nth by exact Hj. reflexivity.
Qed.

Lemma nth_map_in {A B} (f : A -> B) (l : list A) (k : nat) (d : B) (d' : A) :
  (k < List.length l)%nat -> nth k (map f l) d = f (nth k l d').
Proof.
  intros Hk. rewrite (nth_indep _ d (f d')) by (rewrite length_map; exact Hk).
  apply map_nth.
Qed.

Lemma map_nth_all {A} (l : list A) (d : A) :
  map (fun j => nth j l d) (seq 0 (List.length l)) = l.
Proof.
  apply (nth_ext _ _ d d).
  - rewrite length_map, length_seq. reflexivity.
  - intros k Hk. rewrite length_map, length_seq in Hk.
    apply (nth_map_seq (fun j => nth j l d)), Hk.
Qed.

Lemma inner_nil_l (v : vector T) : inner [] v = zero.
Proof. reflexivity. Qed.

Lemma inner_nil_r (u : vector T) : inner u [] = zero.
Proof. destruct u; reflexivity. Qed.

Lemma inner_cons (x y : T) (u v : vector T) :
  inner (x :: u) (y :: v) = add (mul x y) (inner u v).
Proof.
  unfold inner. simpl. rewrite sum_from, exact_add_0_l. reflexivity.
Qed.

Lemma inner_comm (u v : vector T) : inner u v = inner v u.
Proof.
  revert v. induction u as [|x u IH]; intros [|y v].
  - reflexivity.
  - reflexivity.
  - reflexivity.
  - rewrite !inner_cons, IH, exact_mul_comm. reflexivity.
Qed.

(** A sum taken over a list of indices does not depend on their order. *)
Lemma inner_map_permutation {A} (f g : A -> T) (l l' : list A) :
  Permutation l l' -> inner (map f l) (map g l) = inner (map f l') (map g l').
Proof.
  intros H. unfold inner. rewrite !combine_map_same, !map_map.
  apply sum_permutation, Permutation_map, H.
Qed.

(** The inner product with a row of the identity selects a component. *)
Lemma inner_indicator (len s p : nat) (v : vector T) :
  List.length v = len ->
  inner (map (fun j => if Nat.eqb j p then one else zero) (seq s len)) v
  = if ((s <=? p) && (p <? s + len))%nat then nth (p - s) v zero else zero.
Proof.
  revert s v. induction len as [|len IH]; intros s v Hv.
  - destruct v; [|discriminate]. simpl.
    destruct (Nat.leb_spec s p), (Nat.ltb_spec p (s + 0)); simpl; try reflexivity; lia.
  - destruct v as [|y v]; [discriminate|]. injection Hv as Hv.
    cbn [seq map]. rewrite inner_cons, (IH (S s) v Hv).
    destruct (Nat.eqb_spec s p) as [->|Hsp].
    + rewrite exact_mul_1_l.
      destruct (Nat.leb_spec (S p) p); [lia|]. cbn [andb]. rewrite add_zero_r.
      destruct (Nat.leb_spec p p); [|lia].
      destruct (Nat.ltb_spec p (p + S len)); [|lia].
      cbn [andb]. rewrite Nat.sub_diag. reflexivity.
    + rewrite exact_mul_0_l, exact_add_0_l.
      destruct (Nat.leb_spec (S s) p), (Nat.ltb_spec p (S s + len)),
        (Nat.leb_spec s p), (Nat.ltb_spec p (s + S len)); cbn [andb]; try reflexivity; try lia.
      replace (p - s)%nat with (S (p - S s)) by lia. reflexivity.
Qed.

Lemma inner_unit_row (n p : nat) (v : vector T) :
  (p < n)%nat -> List.length v = n -> inner (unit_row n p) v = nth p v zero.
Proof.
  intros Hp Hv. unfold unit_row. rewrite (inner_indicator n 0 p v Hv).
  destruct (Nat.leb_spec 0 p); [|lia]. destruct (Nat.ltb_spec p (0 + n)); [|lia].
  cbn [andb]. rewrite Nat.sub_0_r. reflexivity.
Qed.

(** A sum in which one position of a duplicate-free list is marked selects
    that position. *)
Lemma inner_unmarked (j : nat) (pi : list nat) (w : vector T) :
  ~ In j pi -> inner (map (fun p => if Nat.eqb j p then one else zero) pi) w = zero.
Proof.
  revert w. induction pi as [|p pi IH]; intros w Hj; [reflexivity|].
  destruct w as [|y w]; [apply inner_nil_r|].
  cbn [map]. rewrite inner_cons, IH by (intros H; apply Hj; right; exact H).
  destruct (Nat.eqb_spec j p) as [->|_]; [destruct Hj; left; reflexivity|].
  rewrite exact_mul_0_l. apply exact_add_0_l.
Qed.

Lemma inner_marked (pi : list nat) (w : vector T) (k : nat) :
  NoDup pi -> List.length w = List.length pi -> (k < List.length pi)%nat ->
  inner (map (fun p => if Nat.eqb (nth k pi 0%nat) p then one else zero) pi) w
  = nth k w zero.
Proof.
  revert w k. induction pi as [|p pi IH]; intros w k Hnd Hw Hk; [simpl in Hk; lia|].
  destruct w as [|y w]; [discriminate|]. injection Hw as Hw.
  inversion Hnd as [|p' pi' Hp Hnd']; subst.
  cbn [map]. rewrite inner_cons. destruct k as [|k].
  - cbn [nth]. rewrite Nat.eqb_refl, exact_mul_1_l, inner_unmarked by exact Hp.
    apply add_zero_r.
  - cbn [nth]. simpl in Hk.
    destruct (Nat.eqb_spec (nth k pi 0%nat) p) as [Heq|_].
    + destruct Hp. rewrite <- Heq. apply nth_In. lia.
    + rewrite exact_mul_0_l, exact_add_0_l. apply IH; [exact Hnd' | exact Hw | lia].
Qed.

Lemma allclose_map {A} (f g : A -> T) (l : list A) :
  allclose (map f l) (map g l) = forallb (fun p => isclose (f p) (g p)) l.
Proof.
  unfold allclose. induction l as [|p l IH]; simpl; [reflexivity|].
  rewrite IH. reflexivity.
Qed.

Lemma ncols_map_seq {A} (f : nat -> A -> T) (l : list A) (m : nat) :
  List.length l = m -> ncols (map (fun j => map (f j) l) (seq 0 m)) = m.
Proof. intros H. destruct m; [reflexivity|]. simpl. rewrite length_map. exact H. Qed.

(** *** A permutation [pi] of [0 .. n-1] and its matrix *)

Variables (pi : list nat) (n : nat).
Hypothesis Hpi : Permutation pi (seq 0 n).

Lemma perm_length : List.length pi = n.
Proof. rewrite (Permutation_length Hpi). apply length_seq. Qed.

Lemma perm_NoDup : NoDup pi.
Proof. apply (Permutation_NoDup (Permutation_sym Hpi)), seq_NoDup. Qed.

Lemma perm_In (p : nat) : In p pi <-> (p < n)%nat.
Proof.
  split; intros H.
  - apply (Permutation_in _ Hpi), in_seq in H. lia.
  - apply (Permutation_in _ (Permutation_sym Hpi)), in_seq. lia.
Qed.

Lemma perm_nth (k : nat) : (k < n)%nat -> (nth k pi 0 < n)%nat.
Proof. intros Hk. apply perm_In, nth_In. rewrite perm_length. exact Hk. Qed.

Lemma perm_matrix_rows : perm_matrix pi = map (unit_row n) pi.
Proof. unfold perm_matrix. rewrite perm_length. reflexivity. Qed.

Lemma perm_matrix_ncols : ncols (perm_matrix pi) = n.
Proof.
  rewrite perm_matrix_rows. pose proof perm_length as Hl. destruct pi as [|p l].
  - simpl in Hl. rewrite <- Hl. reflexivity.
  - simpl. unfold unit_row. rewrite length_map, length_seq. reflexivity.
Qed.

(** [(Q v)[i] = v[pi[i]]] *)
Lemma matmul_perm (v : vector T) :
  List.length v = n -> matmul (perm_matrix pi) v = map (fun p => nth p v zero) pi.
Proof.
  intros Hv. unfold matmul. rewrite perm_matrix_rows, map_map.
  apply map_ext_in. intros p Hp. apply inner_unit_row; [apply perm_In, Hp | exact Hv].
Qed.

Lemma transpose_perm :
  transpose (perm_matrix pi)
  = map (fun j => map (fun p => if Nat.eqb j p then one else zero) pi) (seq 0 n).
Proof.
  unfold transpose. rewrite perm_matrix_ncols, perm_matrix_rows.
  apply map_ext_in. intros j Hj. apply in_seq in Hj. rewrite map_map.
  apply map_ext. intros p. unfold unit_row. apply nth_map_seq. lia.
Qed.

Lemma matmul_transpose_length (w : vector T) :
  List.length (matmul (transpose (perm_matrix pi)) w) = n.
Proof. unfold matmul. rewrite transpose_perm, !length_map, length_seq. reflexivity. Qed.

(** [(Q^T w)[pi[k]] = w[k]] *)
Lemma matmul_transpose_perm (w : vector T) (k : nat) :
  List.length w = n -> (k < n)%nat ->
  nth (nth k pi 0%nat) (matmul (transpose (perm_matrix pi)) w) zero = nth k w zero.
Proof.
  intros Hw Hk. unfold matmul. rewrite transpose_perm, map_map.
  rewrite nth_map_seq by (apply perm_nth, Hk).
  apply inner_marked; [apply perm_NoDup | rewrite perm_length; exact Hw
                      | rewrite perm_length; exact Hk].
Qed.

(** [Q (Q^T w) = w] *)
Lemma perm_transpose_round_trip (w : vector T) :
  List.length w = n ->
  matmul (perm_matrix pi) (matmul (transpose (perm_matrix pi)) w) = w.
Proof.
  intros Hw. rewrite matmul_perm by apply matmul_transpose_length.
  apply (nth_ext _ _ zero zero).
  - rewrite length_map, perm_length. symmetry. exact Hw.
  - intros k Hk. rewrite length_map, perm_length in Hk.
    rewrite (nth_map_in _ pi k zero 0%nat) by (rewrite perm_length; exact Hk).
    apply matmul_transpose_perm; assumption.
Qed.

(** [Q^T (Q v) = v] *)
Lemma transpose_perm_round_trip (v : vector T) :
  List.length v = n ->
  matmul (transpose (perm_matrix pi)) (matmul (perm_matrix pi) v) = v.
Proof.
  intros Hv. apply (nth_ext _ _ zero zero).
  - rewrite matmul_transpose_length. symmetry. exact Hv.
  - intros j Hj. rewrite matmul_transpose_length in Hj.
    destruct (In_nth pi j 0%nat (proj2 (perm_In j) Hj)) as (k & Hk & <-).
    rewrite perm_length in Hk.
    rewrite matmul_transpose_perm
      by (try exact Hk; unfold matmul; rewrite length_map, perm_matrix_rows, length_map;
          apply perm_length).
    rewrite matmul_perm by exact Hv.
    apply (nth_map_in (fun p => nth p v zero)). rewrite perm_length. exact Hk.
Qed.

Lemma transpose_transpose_perm : transpose (transpose (perm_matrix pi)) = perm_matrix pi.
Proof.
  rewrite transpose_perm, perm_matrix_rows. unfold transpose at 1.
  rewrite ncols_map_seq by apply perm_length.
  transitivity (map (unit_row n) (map (fun i => nth i pi 0%nat) (seq 0 n))).
  - rewrite map_map.
    apply map_ext_in. intros i Hi. apply in_seq in Hi. rewrite map_map.
    unfold unit_row. apply map_ext_in. intros j Hj. apply in_seq in Hj.
    apply (nth_map_in (fun p => if Nat.eqb j p then one else zero)).
    rewrite perm_length. lia.
  - f_equal. rewrite <- perm_length. apply map_nth_all.
Qed.

(** [Q A] is [A] with its rows reordered. *)
Lemma matmul2_perm_l (A : matrix T) :
  has_shape n n A -> matmul2 (perm_matrix pi) A = map (fun p => nth p A []) pi.
Proof.
  intros HA. unfold matmul2. rewrite perm_matrix_rows, map_map.
  apply map_ext_in. intros p Hp. apply perm_In in Hp.
  pose proof (has_shape_row n n A p HA Hp) as Hl.
  transitivity (map (fun j => nth j (nth p A []) zero) (seq 0 n));
    [| rewrite <- Hl; apply map_nth_all].
  unfold transpose. rewrite (has_shape_ncols n n A HA) by lia. rewrite map_map.
  apply map_ext. intros j.
  rewrite inner_unit_row; [| exact Hp | rewrite length_map; apply HA].
  apply (nth_map_in (fun r => nth j r zero)). destruct HA as [HA _]. rewrite HA. exact Hp.
Qed.

(** [B Q^T] is [B] with its columns reordered. *)
Lemma matmul2_perm_r (B : matrix T) :
  (forall r, In r B -> List.length r = n) ->
  matmul2 B (transpose (perm_matrix pi)) = map (fun r => map (fun p => nth p r zero) pi) B.
Proof.
  intros HB. unfold matmul2. rewrite transpose_transpose_perm, perm_matrix_rows.
  apply map_ext_in. intros r Hr. rewrite map_map. apply map_ext_in. intros p Hp.
  rewrite inner_comm. apply inner_unit_row; [apply perm_In, Hp | apply HB, Hr].
Qed.

(** The sum over the reordered columns is the sum over the columns. *)
Lemma inner_reordered (R w : vector T) :
  List.length R = n -> List.length w = n ->
  inner (map (fun p => nth p R zero) pi) w
  = inner R (matmul (transpose (perm_matrix pi)) w).
Proof.
  intros HR Hw.
  pose proof (matmul_transpose_length w) as HU.
  transitivity (inner (map (fun p => nth p R zero) pi)
                      (map (fun p => nth p (matmul (transpose (perm_matrix pi)) w) zero) pi)).
  - f_equal. rewrite <- (matmul_perm _ HU). symmetry.
    apply perm_transpose_round_trip, Hw.
  - rewrite (inner_map_permutation _ _ pi (seq 0 n) Hpi). f_equal.
    + rewrite <- HR. apply map_nth_all.
    + rewrite <- HU. apply map_nth_all.
Qed.

(** [(Q A Q^T) s' = Q (A (Q^T s'))] *)
Lemma dot_reordered (A : matrix T) (w : vector T) :
  has_shape n n A -> List.length w = n ->
  dot (matmul2 (matmul2 (perm_matrix pi) A) (transpose (perm_matrix pi))) w
  = matmul (perm_matrix pi) (dot A (matmul (transpose (perm_matrix pi)) w)).
Proof.
  intros HA Hw. rewrite (matmul2_perm_l A HA).
  rewrite matmul2_perm_r.
  2:{ intros r Hr. apply in_map_iff in Hr. destruct Hr as (p & <- & Hp).
      apply (has_shape_row n n A p HA), perm_In, Hp. }
  rewrite matmul_perm by (unfold dot; rewrite length_map; apply HA).
  unfold dot. rewrite !map_map. apply map_ext_in. intros p Hp. apply perm_In in Hp.
  rewrite (inner_reordered _ w (has_shape_row n n A p HA Hp) Hw).
  symmetry. rewrite (nth_map_in _ A p zero []) by (destruct HA as [-> _]; exact Hp).
  reflexivity.
Qed.

(** [allclose] compares entry by entry, in any order. *)
Lemma allclose_perm (u v : vector T) :
  List.length u = n -> List.length v = n ->
  allclose (matmul (perm_matrix pi) u) (matmul (perm_matrix pi) v) = allclose u v.
Proof.
  intros Hu Hv. rewrite (matmul_perm u Hu), (matmul_perm v Hv), allclose_map.
  rewrite (forallb_permutation _ pi (seq 0 n) Hpi).
  rewrite <- (allclose_map (fun p => nth p u zero) (fun p => nth p v zero)). f_equal.
  - rewrite <- Hu. apply map_nth_all.
  - rewrite <- Hv. apply map_nth_all.
Qed.

(** The residual check of the reordered system on the solver's output is the
    residual check of the original system on the recovered solution. *)
Lemma allclose_reordered (A : matrix T) (b w : vector T) :
  has_shape n n A -> List.length b = n -> List.length w = n ->
  allclose (dot (matmul2 (matmul2 (perm_matrix pi) A) (transpose (perm_matrix pi))) w)
           (matmul (perm_matrix pi) b)
  = allclose (dot A (matmul (transpose (perm_matrix pi)) w)) b.
Proof.
  intros HA Hb Hw. rewrite (dot_reordered A w HA Hw).
  apply allclose_perm; [unfold dot; rewrite length_map; apply HA | exact Hb].
Qed.

End Perm.
End PermFacts.

(** ** Least and greatest elements *)

Module MinMaxFacts.
Import Np.

Section MinMax.
Context {T : Type} {num : Scalar T}.
Hypothesis ltb_irrefl : forall u : T, ltb u u = false.
Hypothesis ltb_trans : forall u v w : T, ltb u v = true -> ltb v w = true -> ltb u w = true.

Lemma fold_min (xs seen : list T) (m0 : T) :
  In m0 seen -> (forall y, In y seen -> ltb y m0 = false) ->
  In (fold_left (fun m v => if ltb v m then v else m) xs m0) (seen ++ xs)
  /\ forall y, In y (seen ++ xs) ->
       ltb y (fold_left (fun m v => if ltb v m then v else m) xs m0) = false.
Proof.
  revert seen m0. induction xs as [|v xs IH]; intros seen m0 Hin Hle.
  - rewrite app_nil_r. split; assumption.
  - cbn [fold_left].
    replace (seen ++ v :: xs) with ((seen ++ [v]) ++ xs)
      by (rewrite <- app_assoc; reflexivity).
    apply IH.
    + destruct (ltb v m0); apply in_or_app; [right; left; reflexivity | left; exact Hin].
    + intros y Hy. apply in_app_or in Hy. destruct (ltb v m0) eqn:Hv.
      * destruct Hy as [Hy|[<-|[]]]; [|apply ltb_irrefl].
        destruct (ltb y v) eqn:Hyv; [|reflexivity].
        rewrite <- (Hle y Hy). symmetry. exact (ltb_trans y v m0 Hyv Hv).
      * destruct Hy as [Hy|[<-|[]]]; [apply Hle, Hy | exact Hv].
Qed.

Lemma fold_max (xs seen : list T) (m0 : T) :
  In m0 seen -> (forall y, In y seen -> ltb m0 y = false) ->
  In (fold_left (fun m v => if ltb m v then v else m) xs m0) (seen ++ xs)
  /\ forall y, In y (seen ++ xs) ->
       ltb (fold_left (fun m v => if ltb m v then v else m) xs m0) y = false.
Proof.
  revert seen m0. induction xs as [|v xs IH]; intros seen m0 Hin Hle.
  - rewrite app_nil_r. split; assumption.
  - cbn [fold_left].
    replace (seen ++ v :: xs) with ((seen ++ [v]) ++ xs)
      by (rewrite <- app_assoc; reflexivity).
    apply IH.
    + destruct (ltb m0 v); apply in_or_app; [right; left; reflexivity | left; exact Hin].
    + intros y Hy. apply in_app_or in Hy. destruct (ltb m0 v) eqn:Hv.
      * destruct Hy as [Hy|[<-|[]]]; [|apply ltb_irrefl].
        destruct (ltb v y) eqn:Hvy; [|reflexivity].
        rewrite <- (Hle y Hy). symmetry. exact (ltb_trans m0 v y Hv Hvy).
      * destruct Hy as [Hy|[<-|[]]]; [apply Hle, Hy | exact Hv].
Qed.

(** [min] returns an element that no element is less than. *)
Lemma py_min_least (l : list T) (m : T) :
  py_min l = Some m -> In m l /\ forall y, In y l -> ltb y m = false.
Proof.
  destruct l as [|x xs]; [discriminate|]. intros H. injection H as <-.
  apply (fold_min xs [x] x); [left; reflexivity|].
  intros y [<-|[]]. apply ltb_irrefl.
Qed.

(** [max] returns an element that is less than no element. *)
Lemma py_max_greatest (l : list T) (m : T) :
  py_max l = Some m -> In m l /\ forall y, In y l -> ltb m y = false.
Proof.
  destruct l as [|x xs]; [discriminate|]. intros H. injection H as <-.
  apply (fold_max xs [x] x); [left; reflexivity|].
  intros y [<-|[]]. apply ltb_irrefl.
Qed.

End MinMax.
End MinMaxFacts.


(** ** The integers of the sample runs *)

Module ZFacts.
Import TestWorld.
Local Open Scope Z_scope.

Lemma Z_exact : Exact Z.
Proof.
  split; cbn; intros.
  - apply Z.add_comm.
  - apply Z.add_assoc.
  - reflexivity.
  - apply Z.mul_comm.
  - reflexivity.
  - apply Z.mul_1_l.
Qed.

Lemma Z_ltb_irrefl (u : Z) : ltb u u = false.
Proof. apply Z.ltb_irrefl. Qed.

Lemma Z_ltb_trans (u v w : Z) : ltb u v = true -> ltb v w = true -> ltb u w = true.
Proof. cbn. rewrite !Z.ltb_lt. lia. Qed.

Lemma cyclic_permutation : Permutation [1%nat; 2%nat; 0%nat] (seq 0 3).
Proof.
  apply Permutation_sym. apply (Permutation_cons_app [1%nat; 2%nat] [] 0%nat).
  apply Permutation_refl.
Qed.

End ZFacts.

(** * The pipeline *)

Module Pipeline.
Import PyStr PyGetopt Eff Cli Driver TestWorld.
Import EffFacts CliFacts OrderFacts RunFacts TraceFacts NpFacts.
Local Open Scope Z_scope.





(** C3 (amended).  In every run with reordering and eigen diagnostics enabled
    that assembles a system, the symmetrised matrix handed to the eigenvalue
    routine is built from the permuted matrix returned by [reorder], the one
    the solver was given and the one persisted. *)
Theorem diagnostics_use_the_reordered_matrix {T D S E : Type} {num : Scalar T}
        (W : collaborators T D S E) (fs : Os.filesystem) (argv out : list string)
        (c : config) tr0 casename ndims x y z A b :
  read_args fs argv = (out, Ret c) ->
  assemble W c = (tr0, Ret (casename, ndims, x, y, z, Some (A, b))) ->
  order c = true ->
  eigen c = true ->
  exists nx ny nz q a b',
    reorder W A b nx ny nz = (q, a, b')
    /\ solves (fst (laplace W fs argv)) = [(csr_matrix W a, b')]
    /\ map cr_a (saved_npz (fst (laplace W fs argv))) = [a]
    /\ eigvals_args (fst (laplace W fs argv))
       = [Np.block (Np.zeros (Np.nrows a) (Np.nrows a)) a
                   (Np.transpose a) (Np.zeros (Np.nrows a) (Np.nrows a))].
Proof.
  intros Hc Ha Ho He. rewrite (laplace_configured W fs argv out c Hc).
  destruct (run_readings W c tr0 casename ndims x y z A b Ha)
    as (nx & ny & nz & q & a & b' & _ & Hs & _ & Hso & _ & Hn & _ & Hev & _).
  exists nx, ny, nz, q, a, b'. rewrite Hn, Hso, Hev.
  unfold solved_system in Hs. rewrite Ho in Hs. rewrite He.
  repeat split; try reflexivity. exact Hs.
Qed.

Lemma diagnostics_use_the_reordered_matrix_witness :
  read_args fs ["-i"; "mesh.in"; "-r"; "-e"] = ([], Ret with_reorder_and_eigen)
  /\ assemble W3 with_reorder_and_eigen
     = (fst (assemble W3 with_reorder_and_eigen),
        Ret ("case", 1, Some [0; 1; 2], None, None, Some (A3, b3)))
  /\ order with_reorder_and_eigen = true
  /\ eigen with_reorder_and_eigen = true
  /\ exists nx ny nz q a b',
       reorder W3 A3 b3 nx ny nz = (q, a, b')
       /\ solves (fst (laplace W3 fs ["-i"; "mesh.in"; "-r"; "-e"]))
          = [(csr_matrix W3 a, b')]
       /\ map cr_a (saved_npz (fst (laplace W3 fs ["-i"; "mesh.in"; "-r"; "-e"]))) = [a]
       /\ eigvals_args (fst (laplace W3 fs ["-i"; "mesh.in"; "-r"; "-e"]))
          = [Np.block (Np.zeros (Np.nrows a) (Np.nrows a)) a
                      (Np.transpose a) (Np.zeros (Np.nrows a) (Np.nrows a))].
Proof.
  split; [reflexivity|]. split; [reflexivity|]. split; [reflexivity|].
  split; [reflexivity|].
  apply (diagnostics_use_the_reordered_matrix W3 fs ["-i"; "mesh.in"; "-r"; "-e"] []
           with_reorder_and_eigen (fst (assemble W3 with_reorder_and_eigen))
           "case" 1 (Some [0; 1; 2]) None None A3 b3);
    reflexivity.
Defined.

(** C3, as stated, fails.  Under [-r -e] the eigenvalue routine is given the
    block matrix of the permuted [diag(2, 4, 1)], which is not the block
    matrix of the assembled [A3 = diag(1, 2, 4)]. *)
Lemma diagnostics_do_not_use_the_original_matrix :
  matvec_1d W3 [0; 1; 2] [0; 1; 2] b3 false = (A3, b3)
  /\ eigvals_args (fst (laplace W3 fs ["-i"; "mesh.in"; "-r"; "-e"]))
     = [symmetrised [[2; 0; 0]; [0; 4; 0]; [0; 0; 1]]]
  /\ eigvals_args (fst (laplace W3 fs ["-i"; "mesh.in"; "-r"; "-e"]))
     <> [symmetrised A3].
Proof. repeat split. intros H. discriminate H. Qed.

(** C4.  In every run with reordering disabled that assembles a system
    [(A, b)], [q] is the identity matrix of size [N], the number of rows of
    [A]: it has [N] rows of [N] entries, one on the diagonal and zero
    elsewhere.  [reorder] is not called, and the solver is given exactly [A]
    and [b], which are also what is persisted. *)
Theorem no_reorder_is_the_identity {T D S E : Type} {num : Scalar T}
        (W : collaborators T D S E) (fs : Os.filesystem) (argv out : list string)
        (c : config) tr0 casename ndims x y z A b :
  read_args fs argv = (out, Ret c) ->
  assemble W c = (tr0, Ret (casename, ndims, x, y, z, Some (A, b))) ->
  order c = false ->
  reorders (fst (laplace W fs argv)) = []
  /\ solves (fst (laplace W fs argv)) = [(csr_matrix W A, b)]
  /\ map cr_a (saved_npz (fst (laplace W fs argv))) = [A]
  /\ map cr_b (saved_npz (fst (laplace W fs argv))) = [b]
  /\ saved_bin (fst (laplace W fs argv)) = saved_npz (fst (laplace W fs argv))
  /\ exists q,
       map cr_q (saved_npz (fst (laplace W fs argv))) = [q]
       /\ List.length q = List.length A
       /\ (forall i, (i < List.length A)%nat -> List.length (nth i q []) = List.length A)
       /\ (forall i j, (i < List.length A)%nat -> (j < List.length A)%nat ->
             nth j (nth i q []) zero = if Nat.eqb i j then one else zero)
       /\ q = map (fun i => map (fun j => if Nat.eqb i j then one else zero)
                               (seq 0 (List.length A)))
                  (seq 0 (List.length A)).
Proof.
  intros Hc Ha Ho. rewrite (laplace_configured W fs argv out c Hc).
  destruct (run_readings W c tr0 casename ndims x y z A b Ha)
    as (nx & ny & nz & q & a & b' & _ & Hs & Hr & Hso & _ & Hn & Hb & _).
  rewrite Hb, Hn, Hr, Hso. unfold solved_system in Hs. rewrite Ho in Hs |- *.
  inversion Hs; subst.
  split; [reflexivity|]. split; [reflexivity|]. split; [reflexivity|].
  split; [reflexivity|]. split; [reflexivity|].
  exists (Np.identity (Np.nrows a)). split; [reflexivity|].
  pose proof (identity_shape (Np.nrows a)) as Hsh.
  split; [apply Hsh|]. split.
  - intros i Hi. apply (has_shape_row _ _ _ i Hsh Hi).
  - split; [|reflexivity].
    intros i j Hi Hj. apply (entry_identity (Np.nrows a) i j Hi Hj).
Qed.

Lemma no_reorder_is_the_identity_witness :
  read_args fs ["-i"; "mesh.in"] = ([], Ret plain)
  /\ assemble W3 plain
     = (fst (assemble W3 plain), Ret ("case", 1, Some [0; 1; 2], None, None, Some (A3, b3)))
  /\ order plain = false
  /\ map cr_q (saved_npz (fst (laplace W3 fs ["-i"; "mesh.in"])))
     = [[[1; 0; 0]; [0; 1; 0]; [0; 0; 1]]]
  /\ solves (fst (laplace W3 fs ["-i"; "mesh.in"]))
     = [([[1; 0; 0]; [0; 2; 0]; [0; 0; 4]], [3; 8; 20])]
  /\ reorders (fst (laplace W3 fs ["-i"; "mesh.in"])) = []
  /\ solves (fst (laplace W3 fs ["-i"; "mesh.in"])) = [(csr_matrix W3 A3, b3)]
  /\ map cr_a (saved_npz (fst (laplace W3 fs ["-i"; "mesh.in"]))) = [A3]
  /\ map cr_b (saved_npz (fst (laplace W3 fs ["-i"; "mesh.in"]))) = [b3]
  /\ saved_bin (fst (laplace W3 fs ["-i"; "mesh.in"]))
     = saved_npz (fst (laplace W3 fs ["-i"; "mesh.in"]))
  /\ exists q,
       map cr_q (saved_npz (fst (laplace W3 fs ["-i"; "mesh.in"]))) = [q]
       /\ List.length q = List.length A3
       /\ (forall i, (i < List.length A3)%nat -> List.length (nth i q []) = List.length A3)
       /\ (forall i j, (i < List.length A3)%nat -> (j < List.length A3)%nat ->
             nth j (nth i q []) zero = if Nat.eqb i j then one else zero)
       /\ q = map (fun i => map (fun j => if Nat.eqb i j then one else zero)
                               (seq 0 (List.length A3)))
                  (seq 0 (List.length A3)).
Proof.
  split; [reflexivity|]. split; [reflexivity|]. split; [reflexivity|].
  split; [reflexivity|]. split; [reflexivity|].
  apply (no_reorder_is_the_identity W3 fs ["-i"; "mesh.in"] [] plain
           (fst (assemble W3 plain)) "case" 1 (Some [0; 1; 2]) None None A3 b3);
    reflexivity.
Defined.

(** C6.  In every run that assembles a system and whose residual check
    fails, the run completes normally, the collaborators returning: both
    saves are performed, with the failing solution and the false status; when
    the eigen analysis is asked for it is carried out; and the plots the
    configuration asks for are produced with that solution and status.  The
    one thing asked of the eigenvalue routine is a spectrum that is not empty
    for the matrix of this run ([min] of an empty sequence raises). *)
Theorem failed_residual_does_not_stop_the_run {T D S E : Type} {num : Scalar T}
        (W : collaborators T D S E) (fs : Os.filesystem) (argv out : list string)
        (c : config) tr0 casename ndims x y z A b :
  read_args fs argv = (out, Ret c) ->
  assemble W c = (tr0, Ret (casename, ndims, x, y, z, Some (A, b))) ->
  statuses (fst (laplace W fs argv)) = [false] ->
  (eigen c = true ->
   forall a, map cr_a (saved_npz (fst (laplace W fs argv))) = [a] ->
             eigvals W (symmetrised a) <> []) ->
  snd (laplace W fs argv) = Ret tt
  /\ exit_status (laplace W fs argv) = 0
  /\ exists q a b',
       solves (fst (laplace W fs argv)) = [(csr_matrix W a, b')]
       /\ Np.allclose (Np.dot a (spsolve W (csr_matrix W a) b')) b' = false
       /\ saved_npz (fst (laplace W fs argv))
          = [CaseRecord a b' (final_solution (order c) q (spsolve W (csr_matrix W a) b'))
                        q false (degen c) (order c) casename]
       /\ saved_bin (fst (laplace W fs argv)) = saved_npz (fst (laplace W fs argv))
       /\ eigvals_args (fst (laplace W fs argv))
          = (if eigen c then [symmetrised a] else [])
       /\ plots (fst (laplace W fs argv))
          = plot_events c ndims x y z a
              (final_solution (order c) q (spsolve W (csr_matrix W a) b')) false.
Proof.
  intros Hc Ha. rewrite (laplace_configured W fs argv out c Hc).
  destruct (run_readings W c tr0 casename ndims x y z A b Ha)
    as (nx & ny & nz & q & a & b' & _ & _ & _ & Hso & Hst & Hn & Hb & He & _ & Hp & Hend).
  rewrite Hst. intros Hf Hev. inversion Hf as [Hf']. rewrite Hf' in *.
  assert (R : snd (run W c) = Ret tt).
  { rewrite Hend. destruct (eigen_analysis_outcome W (eigen c) a b') as [H|(Heg & H & _)];
      [exact H|]. destruct (Hev Heg a); [rewrite Hn; reflexivity | exact H]. }
  split; [exact R|]. split; [unfold exit_status; rewrite R; reflexivity|].
  exists q, a, b'.
  rewrite Hb, Hn, Hp, Hso, He, R. repeat split; try reflexivity. exact Hf'.
Qed.

Lemma failed_residual_does_not_stop_the_run_witness :
  read_args fs ["-i"; "mesh.in"; "-e"; "-s"; "-m"] = ([], Ret with_eigen_and_plots)
  /\ assemble W2h with_eigen_and_plots
     = (fst (assemble W2h with_eigen_and_plots),
        Ret ("case", 1, Some [0; 1], None, None, Some (A2h, b2h)))
  /\ statuses (fst (laplace W2h fs ["-i"; "mesh.in"; "-e"; "-s"; "-m"])) = [false]
  /\ eigen with_eigen_and_plots = true
  /\ map cr_a (saved_npz (fst (laplace W2h fs ["-i"; "mesh.in"; "-e"; "-s"; "-m"]))) = [A2h]
  /\ eigvals W2h (symmetrised A2h) = [2; 2; -2; -2]
  /\ eigvals W2h [] = []
  /\ snd (laplace W2h fs ["-i"; "mesh.in"; "-e"; "-s"; "-m"]) = Ret tt
  /\ exit_status (laplace W2h fs ["-i"; "mesh.in"; "-e"; "-s"; "-m"]) = 0
  /\ saved_npz (fst (laplace W2h fs ["-i"; "mesh.in"; "-e"; "-s"; "-m"]))
     = [CaseRecord A2h b2h [0; 0] [[1; 0]; [0; 1]] false false false "case"]
  /\ saved_bin (fst (laplace W2h fs ["-i"; "mesh.in"; "-e"; "-s"; "-m"]))
     = [CaseRecord A2h b2h [0; 0] [[1; 0]; [0; 1]] false false false "case"]
  /\ eigvals_args (fst (laplace W2h fs ["-i"; "mesh.in"; "-e"; "-s"; "-m"]))
     = [[[0; 0; 2; 0]; [0; 0; 0; 2]; [2; 0; 0; 0]; [0; 2; 0; 0]]]
  /\ plots (fst (laplace W2h fs ["-i"; "mesh.in"; "-e"; "-s"; "-m"]))
     = [PlotSol1d [0; 1] [0; 0] false; PlotMat A2h false].
Proof.
  split; [reflexivity|]. split; [reflexivity|]. split; [reflexivity|].
  split; [reflexivity|]. split; [reflexivity|]. split; [reflexivity|].
  split; [reflexivity|].
  destruct (failed_residual_does_not_stop_the_run W2h fs
              ["-i"; "mesh.in"; "-e"; "-s"; "-m"] [] with_eigen_and_plots
              (fst (assemble W2h with_eigen_and_plots)) "case" 1 (Some [0; 1]) None None
              A2h b2h)
    as (H1 & H2 & _);
    [reflexivity | reflexivity | reflexivity
    | intros _ a H; injection H as <-; discriminate |].
  split; [exact H1|]. split; [exact H2|]. repeat split.
Defined.

(** C7 (amended).  In every run with eigen diagnostics enabled that
    assembles a system [(A, b)], with [a] the matrix the solver was given
    (the assembled [A] without reordering, the matrix returned by [reorder]
    under it) and [N] its number of rows: the eigenvalue routine is called
    once, on [[0, a], [a^T, 0]]; for a square [a] that matrix is [2N] by
    [2N], with zero diagonal blocks, [a] top right and its transpose bottom
    left; and of the magnitudes of all the eigenvalues returned, the run
    prints the quotient of the greatest by the least as the condition number,
    then the least, then the greatest (the comparison of magnitudes being a
    strict order). *)
Theorem eigen_diagnostics {T D S E : Type} {num : Scalar T}
        (W : collaborators T D S E) (fs : Os.filesystem) (argv out : list string)
        (c : config) tr0 casename ndims x y z A b :
  read_args fs argv = (out, Ret c) ->
  assemble W c = (tr0, Ret (casename, ndims, x, y, z, Some (A, b))) ->
  eigen c = true ->
  (forall u : T, ltb u u = false) ->
  (forall u v w : T, ltb u v = true -> ltb v w = true -> ltb u w = true) ->
  exists nx ny nz q a b',
    (if order c then reorder W A b nx ny nz else (Np.identity (List.length A), A, b))
    = (q, a, b')
    /\ solves (fst (laplace W fs argv)) = [(csr_matrix W a, b')]
    /\ eigvals_args (fst (laplace W fs argv))
       = [Np.block (Np.zeros (List.length a) (List.length a)) a
                   (Np.transpose a) (Np.zeros (List.length a) (List.length a))]
    /\ (Np.has_shape (List.length a) (List.length a) a ->
        Np.has_shape (List.length a + List.length a) (List.length a + List.length a)
                     (symmetrised a)
        /\ forall i j, (i < List.length a + List.length a)%nat ->
                       (j < List.length a + List.length a)%nat ->
             Np.entry (symmetrised a) i j
             = if Nat.ltb i (List.length a)
               then (if Nat.ltb j (List.length a) then zero
                     else Np.entry a i (j - List.length a))
               else (if Nat.ltb j (List.length a) then Np.entry a j (i - List.length a)
                     else zero))
    /\ (eigvals W (symmetrised a) <> [] ->
        exists emin emax,
          In emin (map (np_abs W) (eigvals W (symmetrised a)))
          /\ (forall m, In m (map (np_abs W) (eigvals W (symmetrised a))) ->
                        ltb m emin = false)
          /\ In emax (map (np_abs W) (eigvals W (symmetrised a)))
          /\ (forall m, In m (map (np_abs W) (eigvals W (symmetrised a))) ->
                        ltb emax m = false)
          /\ printed_values (fst (laplace W fs argv))
             = [(tab +++ "condition number:  ", div emax emin);
                (tab +++ "min abs eigenvalue:", emin);
                (tab +++ "max abs eigenvalue:", emax)]).
Proof.
  intros Hc Ha He Hirr Htr. rewrite (laplace_configured W fs argv out c Hc).
  destruct (run_readings W c tr0 casename ndims x y z A b Ha)
    as (nx & ny & nz & q & a & b' & _ & Hs & _ & Hso & _ & _ & _ & Hev & Hpv & _).
  exists nx, ny, nz, q, a, b'. rewrite Hso, Hev, Hpv, He.
  split; [exact Hs|]. split; [reflexivity|]. split; [reflexivity|]. split.
  - intros Hsq. split; [apply block_shape, Hsq|].
    intros i j Hi Hj. apply (entry_block (Np.nrows a) a i j Hsq Hi Hj).
  - intros Hne. rewrite eigen_analysis_on.
    destruct (Np.py_min (map (np_abs W) (eigvals W (symmetrised a)))) as [emin|] eqn:Hmin;
      [|destruct (eigvals W (symmetrised a)); [contradiction | discriminate Hmin]].
    destruct (Np.py_max (map (np_abs W) (eigvals W (symmetrised a)))) as [emax|] eqn:Hmax;
      [|destruct (eigvals W (symmetrised a)); [contradiction | discriminate Hmax]].
    exists emin, emax.
    destruct (MinMaxFacts.py_min_least Hirr Htr _ _ Hmin) as (H1 & H2).
    destruct (MinMaxFacts.py_max_greatest Hirr Htr _ _ Hmax) as (H3 & H4).
    split; [exact H1|]. split; [exact H2|]. split; [exact H3|]. split; [exact H4|].
    reflexivity.
Qed.

Lemma eigen_diagnostics_witness :
  read_args fs ["-i"; "mesh.in"; "-r"; "-e"] = ([], Ret with_reorder_and_eigen)
  /\ assemble W3d with_reorder_and_eigen
     = (fst (assemble W3d with_reorder_and_eigen),
        Ret ("case", 1, Some [0; 1; 2], None, None, Some (A3, b3)))
  /\ eigen with_reorder_and_eigen = true
  /\ (forall u : Z, ltb u u = false)
  /\ (forall u v w : Z, ltb u v = true -> ltb v w = true -> ltb u w = true)
  /\ solves (fst (laplace W3d fs ["-i"; "mesh.in"; "-r"; "-e"]))
     = [([[2; 0; 0]; [0; 4; 0]; [0; 0; 1]], [8; 20; 3])]
  /\ eigvals_args (fst (laplace W3d fs ["-i"; "mesh.in"; "-r"; "-e"]))
     = [[[0; 0; 0; 2; 0; 0]; [0; 0; 0; 0; 4; 0]; [0; 0; 0; 0; 0; 1];
         [2; 0; 0; 0; 0; 0]; [0; 4; 0; 0; 0; 0]; [0; 0; 1; 0; 0; 0]]]
  /\ map (np_abs W3d)
         (eigvals W3d [[0; 0; 0; 2; 0; 0]; [0; 0; 0; 0; 4; 0]; [0; 0; 0; 0; 0; 1];
                      [2; 0; 0; 0; 0; 0]; [0; 4; 0; 0; 0; 0]; [0; 0; 1; 0; 0; 0]])
     = [2; 4; 1; 2; 4; 1]
  /\ printed_values (fst (laplace W3d fs ["-i"; "mesh.in"; "-r"; "-e"]))
     = [(tab +++ "condition number:  ", 4);
        (tab +++ "min abs eigenvalue:", 1);
        (tab +++ "max abs eigenvalue:", 4)]
  /\ exists nx ny nz q a b',
       reorder W3d A3 b3 nx ny nz = (q, a, b')
       /\ solves (fst (laplace W3d fs ["-i"; "mesh.in"; "-r"; "-e"]))
          = [(csr_matrix W3d a, b')]
       /\ eigvals_args (fst (laplace W3d fs ["-i"; "mesh.in"; "-r"; "-e"]))
          = [Np.block (Np.zeros (List.length a) (List.length a)) a
                      (Np.transpose a) (Np.zeros (List.length a) (List.length a))].
Proof.
  split; [reflexivity|]. split; [reflexivity|]. split; [reflexivity|].
  split; [exact ZFacts.Z_ltb_irrefl|]. split; [exact ZFacts.Z_ltb_trans|].
  split; [reflexivity|]. split; [reflexivity|]. split; [reflexivity|].
  split; [reflexivity|].
  destruct (eigen_diagnostics W3d fs ["-i"; "mesh.in"; "-r"; "-e"] []
              with_reorder_and_eigen (fst (assemble W3d with_reorder_and_eigen))
              "case" 1 (Some [0; 1; 2]) None None A3 b3
              eq_refl eq_refl eq_refl ZFacts.Z_ltb_irrefl ZFacts.Z_ltb_trans)
    as (nx & ny & nz & q & a & b' & H1 & H2 & H3 & _).
  exists nx, ny, nz, q, a, b'. split; [exact H1|]. split; [exact H2 | exact H3].
Defined.

(** C7, as stated, fails under [-r].  The assembler returns [A3]; under
    [-r -e] the eigenvalue routine is given the block matrix of the reordered
    [diag(2, 4, 1)], not [[0, A3], [A3^T, 0]]. *)
Lemma block_matrix_is_not_of_the_assembled_matrix :
  matvec_1d W3d [0; 1; 2] [0; 1; 2] b3 false = (A3, b3)
  /\ Np.block (Np.zeros 3 3) A3 (Np.transpose A3) (Np.zeros 3 3)
     = [[0; 0; 0; 1; 0; 0]; [0; 0; 0; 0; 2; 0]; [0; 0; 0; 0; 0; 4];
        [1; 0; 0; 0; 0; 0]; [0; 2; 0; 0; 0; 0]; [0; 0; 4; 0; 0; 0]]
  /\ eigvals_args (fst (laplace W3d fs ["-i"; "mesh.in"; "-r"; "-e"]))
     = [[[0; 0; 0; 2; 0; 0]; [0; 0; 0; 0; 4; 0]; [0; 0; 0; 0; 0; 1];
         [2; 0; 0; 0; 0; 0]; [0; 4; 0; 0; 0; 0]; [0; 0; 1; 0; 0; 0]]]
  /\ eigvals_args (fst (laplace W3d fs ["-i"; "mesh.in"; "-r"; "-e"]))
     <> [Np.block (Np.zeros 3 3) A3 (Np.transpose A3) (Np.zeros 3 3)].
Proof. repeat split. intros H. discriminate H. Qed.

(** C8 (amended).  In every run the stages execute in the order: mesh,
    operator assembly, reorder, solve, persistence, diagnostics, plotting
    (the two saves come before the eigen analysis), each of them after the
    configuration has been read: a run that reaches any stage has had
    [read_args] return, without output. *)
Theorem stages_run_in_order {T D S E : Type} {num : Scalar T}
        (W : collaborators T D S E) (fs : Os.filesystem) (argv : list string) :
  StronglySorted (fun s t => (rank s <= rank t)%nat) (stages (fst (laplace W fs argv)))
  /\ (stages (fst (laplace W fs argv)) = []
      \/ exists c, read_args fs argv = ([], Ret c)).
Proof.
  destruct (read_args fs argv) as [out [c|code|exc]] eqn:R.
  - pose proof (read_args_returns_silently fs argv out c R) as ->.
    rewrite (laplace_configured W fs argv [] c R). split.
    + apply (run_order W c).
    + right. exists c. reflexivity.
  - rewrite (laplace_exits W fs argv out code R). cbn [fst].
    rewrite stages_stdout. split; [constructor | left; reflexivity].
  - destruct (read_args_never_raises fs argv out exc R).
Qed.

(** C8, as stated, fails.  With [-e] both saves happen before the eigenvalue
    routine is called, so the stages are not in the order that puts the
    diagnostics before the persistence. *)
Lemma persistence_precedes_diagnostics :
  stages (fst (laplace W3 fs ["-i"; "mesh.in"; "-e"]))
  = [Mesh; Mesh; Operator; Solving; Solving; Persistence; Persistence;
     Diagnostics; Diagnostics; Diagnostics; Diagnostics]
  /\ ~ StronglySorted (fun s t => (rank_diagnose_first s <= rank_diagnose_first t)%nat)
                      (stages (fst (laplace W3 fs ["-i"; "mesh.in"; "-e"]))).
Proof.
  split; [reflexivity|].
  change (stages (fst (laplace W3 fs ["-i"; "mesh.in"; "-e"])))
    with [Mesh; Mesh; Operator; Solving; Solving; Persistence; Persistence;
          Diagnostics; Diagnostics; Diagnostics; Diagnostics].
  intros H.
  repeat match goal with
         | H : StronglySorted _ (_ :: _) |- _ =>
             apply StronglySorted_inv in H; destruct H as [H ?]
         end.
  repeat match goal with
         | H : Forall _ (_ :: _) |- _ => apply Forall_inv in H
         end.
  match goal with
  | H : (rank_diagnose_first Persistence <= rank_diagnose_first Diagnostics)%nat |- _ =>
      cbn in H; lia
  end.
Qed.

End Pipeline.

(** * More on the command line *)

Module SyntaxFacts.
Import PyStr PyGetopt Eff Cli EffFacts GetoptFacts CliFacts.

Lemma prepend_prepend {A} p1 p2 (r : outcome (optlist * A)) :
  prepend p1 (prepend p2 r) = prepend (p1 ++ p2) r.
Proof. destruct r as [[o a]|m o]; simpl; rewrite ?app_assoc; reflexivity. Qed.

Lemma prepend_nil {A} (r : outcome (optlist * A)) : prepend [] r = r.
Proof. destruct r as [[o a]|m o]; reflexivity. Qed.

Lemma getopt_nil : getopt [] shortopts longopts = Ok ([], []).
Proof. reflexivity. Qed.

(** The letters of [shortopts]. *)
Lemma is_flag_short ch : is_flag ch = true -> short_has_arg ch shortopts = Ok false.
Proof.
  unfold is_flag. cbn [existsb]. intros H.
  repeat (apply orb_true_iff in H; destruct H as [H|H]);
    try discriminate H; apply Ascii.eqb_eq in H; subst ch; reflexivity.
Qed.

Lemma takes_value_short ch : takes_value ch = true -> short_has_arg ch shortopts = Ok true.
Proof.
  unfold takes_value. cbn [existsb]. intros H.
  repeat (apply orb_true_iff in H; destruct H as [H|H]);
    try discriminate H; apply Ascii.eqb_eq in H; subst ch; reflexivity.
Qed.

Lemma is_flag_not_dash ch : is_flag ch = true -> Ascii.eqb ch "-" = false.
Proof.
  unfold is_flag. cbn [existsb]. intros H.
  repeat (apply orb_true_iff in H; destruct H as [H|H]);
    try discriminate H; apply Ascii.eqb_eq in H; subst ch; reflexivity.
Qed.

Lemma takes_value_not_dash ch : takes_value ch = true -> Ascii.eqb ch "-" = false.
Proof.
  unfold takes_value. cbn [existsb]. intros H.
  repeat (apply orb_true_iff in H; destruct H as [H|H]);
    try discriminate H; apply Ascii.eqb_eq in H; subst ch; reflexivity.
Qed.

Lemma short_has_arg_name ch b :
  short_has_arg ch shortopts = Ok b -> mem ("-" +++ String ch "") option_names = true.
Proof.
  intros H. unfold shortopts in H. cbn [short_has_arg] in H.
  repeat match type of H with
         | context [Ascii.eqb ch ?c] =>
             destruct (Ascii.eqb_spec ch c) as [->|?]; [try reflexivity|]; cbn in H
         end;
    discriminate H.
Qed.

Lemma do_shorts_String opts ch s sh args :
  do_shorts opts (String ch s) sh args
  = match short_has_arg ch sh with
    | GetoptError m o => GetoptError m o
    | Ok true =>
        match s with
        | EmptyString =>
            match args with
            | [] => GetoptError ("option -" +++ String ch "" +++ " requires argument")
                                (String ch "")
            | a :: args' => Ok (opts ++ [("-" +++ String ch "", a)], args')
            end
        | _ => Ok (opts ++ [("-" +++ String ch "", s)], args)
        end
    | Ok false => do_shorts (opts ++ [("-" +++ String ch "", "")]) s sh args
    end.
Proof. reflexivity. Qed.

(** A bundle of flags in front of the rest of an argument. *)
Lemma do_shorts_flags cs s args : forall opts,
  flags_only cs = true ->
  do_shorts opts (cs +++ s) shortopts args
  = do_shorts (opts ++ flag_opts cs) s shortopts args.
Proof.
  induction cs as [|ch cs IH]; intros opts H.
  - cbn [append flag_opts]. rewrite app_nil_r. reflexivity.
  - cbn [flags_only] in H. apply andb_true_iff in H. destruct H as [Hc Hcs].
    cbn [append]. rewrite do_shorts_String, (is_flag_short ch Hc), (IH _ Hcs).
    cbn [flag_opts]. rewrite <- app_assoc. reflexivity.
Qed.

Lemma append_nil_r s : s +++ "" = s.
Proof. induction s as [|c s IH]; [reflexivity|]. cbn [append]. rewrite IH. reflexivity. Qed.

(** The first turn of [getopt] on an argument [-x...] whose first letter is
    not a dash. *)
Lemma getopt_short_word ch x rest :
  Ascii.eqb ch "-" = false ->
  getopt (("-" +++ String ch x) :: rest) shortopts longopts
  = match do_shorts [] (String ch x) shortopts rest with
    | GetoptError m o => GetoptError m o
    | Ok (opts', args') => prepend opts' (getopt args' shortopts longopts)
    end.
Proof.
  intros H. rewrite getopt_unfold.
  assert (H' : Ascii.eqb "-" ch = false) by (rewrite Ascii.eqb_sym; exact H).
  cbn [append startswith String.eqb drop]. rewrite H, H'. reflexivity.
Qed.

(** The first turn of [getopt] on an argument [--body]. *)
Lemma getopt_long_word body rest :
  body <> "" ->
  getopt (("--" +++ body) :: rest) shortopts longopts
  = match do_longs [] body longopts rest with
    | GetoptError m o => GetoptError m o
    | Ok (opts', args') => prepend opts' (getopt args' shortopts longopts)
    end.
Proof.
  intros H. rewrite getopt_unfold. destruct body as [|c body]; [contradiction|].
  reflexivity.
Qed.

(** The part in front of the first [=] holds no [=]. *)
Lemma split_at_char_left c s : forall l r,
  split_at_char c s = Some (l, r) -> split_at_char c l = None.
Proof.
  induction s as [|a s IH]; intros l r; cbn [split_at_char]; [discriminate|].
  destruct (Ascii.eqb a c) eqn:E.
  - intros H. inversion H; subst. reflexivity.
  - destruct (split_at_char c s) as [[l' r']|]; [|discriminate].
    intros H. inversion H; subst. cbn [split_at_char]. rewrite E.
    erewrite IH by reflexivity. reflexivity.
Qed.

Lemma long_name_no_equals body : split_at_char "=" (long_name body) = None.
Proof.
  unfold long_name. destruct (split_at_char "=" body) as [[l r]|] eqn:E.
  - apply (split_at_char_left _ _ _ _ E).
  - exact E.
Qed.

(** With [longopts = ["i="; "c="]] a name without [=] is accepted exactly
    when it is [i] or [c], and then it takes a value. *)
Lemma long_has_args_ok o h name :
  split_at_char "=" o = None ->
  long_has_args o longopts = Ok (h, name) ->
  h = true /\ name = o /\ (o = "i" \/ o = "c").
Proof.
  intros Hs. destruct o as [|a1 o]; [discriminate|].
  destruct (Ascii.eqb_spec a1 "i") as [->|Hi]; [|destruct (Ascii.eqb_spec a1 "c") as [->|Hc]].
  - destruct o as [|a2 o].
    + intros H. inversion H; subst. auto.
    + destruct (Ascii.eqb_spec a2 "=") as [->|He].
      * discriminate Hs.
      * unfold long_has_args, longopts. cbn [filter startswith].
        apply Ascii.eqb_neq in He. cbn [Ascii.eqb]. rewrite He. cbn. discriminate.
  - destruct o as [|a2 o].
    + intros H. inversion H; subst. auto.
    + destruct (Ascii.eqb_spec a2 "=") as [->|He].
      * discriminate Hs.
      * unfold long_has_args, longopts. cbn [filter startswith].
        apply Ascii.eqb_neq in He. cbn [Ascii.eqb]. rewrite He. cbn. discriminate.
  - unfold long_has_args, longopts. cbn [filter startswith].
    apply Ascii.eqb_neq in Hi, Hc. rewrite Hi, Hc. cbn. discriminate.
Qed.

Lemma do_longs_long_name opts body args :
  do_longs opts body longopts args
  = match long_has_args (long_name body) longopts with
    | GetoptError m o => GetoptError m o
    | Ok (has_arg, opt) =>
        if has_arg then
          match split_at_char "=" body with
          | None =>
              match args with
              | [] => GetoptError ("option --" +++ opt +++ " requires argument") opt
              | a :: args' => Ok (opts ++ [("--" +++ opt, a)], args')
              end
          | Some (_, v) => Ok (opts ++ [("--" +++ opt, v)], args)
          end
        else
          match split_at_char "=" body with
          | Some _ => GetoptError ("option --" +++ opt +++ " must not have an argument") opt
          | None => Ok (opts ++ [("--" +++ opt, "")], args)
          end
    end.
Proof.
  unfold do_longs, long_name. destruct (split_at_char "=" body) as [[l r]|]; reflexivity.
Qed.

Lemma do_longs_unknown opts body args :
  long_name body <> "i" -> long_name body <> "c" ->
  exists m o, do_longs opts body longopts args = GetoptError m o.
Proof.
  intros Hi Hc. rewrite do_longs_long_name.
  destruct (long_has_args (long_name body) longopts) as [[h name]|m o] eqn:E.
  - destruct (long_has_args_ok _ _ _ (long_name_no_equals body) E) as (_ & _ & [H|H]);
      contradiction.
  - eauto.
Qed.

Lemma do_longs_name opts body args opts' args' :
  Forall (fun p => mem (fst p) option_names = true) opts ->
  do_longs opts body longopts args = Ok (opts', args') ->
  Forall (fun p => mem (fst p) option_names = true) opts'.
Proof.
  intros Ho. rewrite do_longs_long_name.
  destruct (long_has_args (long_name body) longopts) as [[h name]|m o] eqn:E; [|discriminate].
  destruct (long_has_args_ok _ _ _ (long_name_no_equals body) E) as (-> & -> & Hn).
  assert (P : forall v, Forall (fun p => mem (fst p) option_names = true)
                               (opts ++ [("--" +++ long_name body, v)])).
  { intros v. apply Forall_app. split; [exact Ho|]. constructor; [|constructor].
    destruct Hn as [-> | ->]; reflexivity. }
  destruct (split_at_char "=" body) as [[l r]|]; [|destruct args];
    intros H; inversion H; subst; apply P.
Qed.

Lemma do_shorts_name s args : forall opts opts' args',
  Forall (fun p => mem (fst p) option_names = true) opts ->
  do_shorts opts s shortopts args = Ok (opts', args') ->
  Forall (fun p => mem (fst p) option_names = true) opts'.
Proof.
  induction s as [|ch s IH]; intros opts opts' args' Ho.
  - intros H. inversion H; subst. exact Ho.
  - rewrite do_shorts_String.
    destruct (short_has_arg ch shortopts) as [b|m o] eqn:E; [|discriminate].
    assert (P : forall v, Forall (fun p => mem (fst p) option_names = true)
                                 (opts ++ [("-" +++ String ch "", v)])).
    { intros v. apply Forall_app. split; [exact Ho|]. constructor; [|constructor].
      apply (short_has_arg_name ch b E). }
    destruct b.
    + destruct s; [destruct args|]; intros H; inversion H; subst; apply P.
    + apply IH, P.
Qed.

Lemma getopt_loop_name : forall fuel opts args opts' args',
  Forall (fun p => mem (fst p) option_names = true) opts ->
  getopt_loop fuel opts args shortopts longopts = Ok (opts', args') ->
  Forall (fun p => mem (fst p) option_names = true) opts'.
Proof.
  induction fuel as [|fuel IH]; intros opts args opts' args' Ho.
  - intros H. inversion H; subst. exact Ho.
  - destruct args as [|a0 rest]; [intros H; inversion H; subst; exact Ho|].
    rewrite getopt_loop_S.
    destruct (startswith "-" a0 && negb (String.eqb a0 "-"));
      [|intros H; inversion H; subst; exact Ho].
    destruct (String.eqb a0 "--"); [intros H; inversion H; subst; exact Ho|].
    destruct (startswith "--" a0).
    + destruct (do_longs opts (drop 2 a0) longopts rest) as [[o1 a1]|] eqn:E; [|discriminate].
      apply IH. eapply do_longs_name; eassumption.
    + destruct (do_shorts opts (drop 1 a0) shortopts rest) as [[o1 a1]|] eqn:E; [|discriminate].
      apply IH. eapply do_shorts_name; eassumption.
Qed.

(** The option loop, as one update of the locals. *)
Lemma for_opts_config opts :
  Forall (fun p => mem (fst p) option_names = true) opts ->
  forall c out c',
    for_opts opts c = (out, Ret c') ->
    c' = {| inputfile := last_value ["-i"; "--i"] (inputfile c) opts;
            mplot := mplot c || given "-m" opts;
            splot := splot c || given "-s" opts;
            cut3d := last_value ["-c"; "--c"] (cut3d c) opts;
            degen := degen c || given "-d" opts;
            eigen := eigen c || given "-e" opts;
            order := order c || given "-r" opts;
            psplt := psplt c || given "-j" opts |}.
Proof.
  induction opts as [|[o a] opts IH]; intros Hn c out c' H.
  - inversion H; subst. destruct c'. cbn. rewrite !orb_false_r. reflexivity.
  - inversion Hn as [|p l Ho Hl]; subst. cbn [fst] in Ho.
    rewrite for_opts_cons in H.
    unfold option_names, mem in Ho. cbn [existsb] in Ho.
    repeat (apply orb_true_iff in Ho; destruct Ho as [Ho|Ho]);
      try discriminate Ho; apply String.eqb_eq in Ho; subst o;
      (match type of H with
       | bind (handle_opt ?c0 ?o0 ?a0) _ = _ =>
           let r := eval cbv in (handle_opt c0 o0 a0) in
           change (handle_opt c0 o0 a0) with r in H
       end);
      try discriminate H;
      rewrite bind_events in H; cbn [app] in H; rewrite <- surjective_run in H;
      rewrite (IH Hl _ _ _ H); destruct c; cbn;
      rewrite ?orb_true_r; reflexivity.
Qed.

Lemma takes_value_cases ch : takes_value ch = true -> ch = "i"%char \/ ch = "c"%char.
Proof.
  unfold takes_value. cbn [existsb]. intros H.
  repeat (apply orb_true_iff in H; destruct H as [H|H]);
    try discriminate H; apply Ascii.eqb_eq in H; auto.
Qed.

(** A bundle of flags followed by a value letter starts with a letter. *)
Lemma short_word_head cs ch v :
  flags_only cs = true -> takes_value ch = true ->
  exists c0 x, cs +++ String ch v = String c0 x /\ Ascii.eqb c0 "-" = false.
Proof.
  intros Hc Hv. destruct cs as [|c0 cs].
  - exists ch, v. split; [reflexivity | apply takes_value_not_dash, Hv].
  - cbn [flags_only] in Hc. apply andb_true_iff in Hc. destruct Hc as [Hc _].
    exists c0, (cs +++ String ch v). split; [reflexivity | apply is_flag_not_dash, Hc].
Qed.

Lemma do_shorts_flags_end cs args opts :
  flags_only cs = true ->
  do_shorts opts cs shortopts args = Ok (opts ++ flag_opts cs, args).
Proof.
  intros H. pose proof (do_shorts_flags cs "" args opts H) as K.
  rewrite append_nil_r in K. exact K.
Qed.

Lemma getopt_flags cs rest :
  cs <> "" -> flags_only cs = true ->
  getopt (("-" +++ cs) :: rest) shortopts longopts
  = prepend (flag_opts cs) (getopt rest shortopts longopts).
Proof.
  intros Hne Hc. destruct cs as [|c0 cs]; [contradiction|].
  pose proof Hc as Hc'. cbn [flags_only] in Hc'. apply andb_true_iff in Hc'.
  rewrite (getopt_short_word c0 cs rest) by (apply is_flag_not_dash, Hc').
  rewrite (do_shorts_flags_end _ rest [] Hc). reflexivity.
Qed.

Lemma getopt_short_separate cs ch v rest :
  flags_only cs = true -> takes_value ch = true ->
  getopt (("-" +++ cs +++ String ch "") :: v :: rest) shortopts longopts
  = prepend (flag_opts cs ++ [("-" +++ String ch "", v)]) (getopt rest shortopts longopts).
Proof.
  intros Hc Hv. destruct (short_word_head cs ch "" Hc Hv) as (c0 & x & E & Hd).
  cbn [append]. rewrite E, (getopt_short_word c0 x _ Hd), <- E.
  rewrite (do_shorts_flags cs _ _ [] Hc), do_shorts_String, (takes_value_short ch Hv).
  reflexivity.
Qed.

Lemma getopt_short_attached cs ch v rest :
  flags_only cs = true -> takes_value ch = true -> v <> "" ->
  getopt (("-" +++ cs +++ String ch v) :: rest) shortopts longopts
  = prepend (flag_opts cs ++ [("-" +++ String ch "", v)]) (getopt rest shortopts longopts).
Proof.
  intros Hc Hv Hne. destruct (short_word_head cs ch v Hc Hv) as (c0 & x & E & Hd).
  cbn [append]. rewrite E, (getopt_short_word c0 x _ Hd), <- E.
  rewrite (do_shorts_flags cs _ _ [] Hc), do_shorts_String, (takes_value_short ch Hv).
  destruct v; [contradiction | reflexivity].
Qed.

Lemma getopt_short_missing cs ch :
  flags_only cs = true -> takes_value ch = true ->
  exists m o, getopt ["-" +++ cs +++ String ch ""] shortopts longopts = GetoptError m o.
Proof.
  intros Hc Hv. destruct (short_word_head cs ch "" Hc Hv) as (c0 & x & E & Hd).
  cbn [append]. rewrite E, (getopt_short_word c0 x _ Hd), <- E.
  rewrite (do_shorts_flags cs _ _ [] Hc), do_shorts_String, (takes_value_short ch Hv).
  eauto.
Qed.

Lemma getopt_long_separate ch v rest :
  takes_value ch = true ->
  getopt (("--" +++ String ch "") :: v :: rest) shortopts longopts
  = prepend [("--" +++ String ch "", v)] (getopt rest shortopts longopts).
Proof.
  intros Hv. rewrite getopt_unfold.
  destruct (takes_value_cases ch Hv) as [-> | ->]; reflexivity.
Qed.

Lemma getopt_long_attached ch v rest :
  takes_value ch = true ->
  getopt (("--" +++ String ch ("=" +++ v)) :: rest) shortopts longopts
  = prepend [("--" +++ String ch "", v)] (getopt rest shortopts longopts).
Proof.
  intros Hv. rewrite getopt_unfold.
  destruct (takes_value_cases ch Hv) as [-> | ->]; reflexivity.
Qed.

Lemma getopt_ends_options a rest :
  ends_options a = true ->
  exists args, getopt (a :: rest) shortopts longopts = Ok ([], args).
Proof.
  unfold ends_options. intros H. rewrite getopt_unfold.
  destruct (startswith "-" a); cbn [negb orb andb] in *; [|eauto].
  destruct (String.eqb a "-"); cbn [negb orb andb] in *; [eauto|].
  rewrite H. eauto.
Qed.

(** Whole options parse to the options they spell. *)
Lemma words_parse (ws : list string) (opts : optlist) (rest : list string) :
  option_words ws opts ->
  getopt (ws ++ rest) shortopts longopts
  = prepend opts (getopt rest shortopts longopts).
Proof.
  induction 1 as [ | cs ws opts Hne Hc _ IH | cs ch v ws opts Hc Hv _ IH
                   | cs ch v ws opts Hc Hv Hne _ IH | ch v ws opts Hv _ IH
                   | ch v ws opts Hv _ IH ]; cbn [app].
  - symmetry. apply prepend_nil.
  - rewrite (getopt_flags cs _ Hne Hc), IH. apply prepend_prepend.
  - rewrite (getopt_short_separate cs ch v _ Hc Hv), IH, prepend_prepend, <- app_assoc.
    reflexivity.
  - rewrite (getopt_short_attached cs ch v _ Hc Hv Hne), IH, prepend_prepend, <- app_assoc.
    reflexivity.
  - rewrite (getopt_long_separate ch v _ Hv), IH. apply prepend_prepend.
  - rewrite (getopt_long_attached ch v _ Hv), IH. apply prepend_prepend.
Qed.

(** [read_args] looks at the options only. *)
Lemma read_args_same_options fs argv1 argv2 opts args1 args2 :
  getopt argv1 shortopts longopts = Ok (opts, args1) ->
  getopt argv2 shortopts longopts = Ok (opts, args2) ->
  read_args fs argv1 = read_args fs argv2.
Proof. intros G1 G2. unfold read_args. rewrite G1, G2. reflexivity. Qed.

End SyntaxFacts.

Module Syntax.
Import PyStr PyGetopt Eff Cli Driver TestWorld.
Import EffFacts GetoptFacts CliFacts RunFacts SyntaxFacts.
Local Open Scope Z_scope.

(** X1.  Whatever the argument vector, the options [getopt] returns carry
    one of eleven names: the nine short options and [--i], [--c].  The long
    names the option loop also tests for ([--d], [--e], [--m], [--j], [--r],
    [--s]) never reach it. *)
Theorem parsed_option_names (argv : list string) (opts : optlist) (args : list string) :
  getopt argv shortopts longopts = Ok (opts, args) ->
  Forall (fun p => In (fst p) ["-h"; "-m"; "-s"; "-d"; "-e"; "-j"; "-r";
                               "-i"; "-c"; "--i"; "--c"]) opts.
Proof.
  intros H. unfold getopt in H.
  apply getopt_loop_name in H; [|constructor].
  eapply Forall_impl; [|exact H]. cbv beta. intros p Hp.
  unfold mem in Hp. apply existsb_exists in Hp. destruct Hp as (n & Hin & He).
  apply String.eqb_eq in He. subst n. exact Hin.
Qed.

Lemma parsed_option_names_witness :
  getopt ["-rem"; "--i=mesh.in"; "-cz"; "tail"] shortopts longopts
  = Ok ([("-r", ""); ("-e", ""); ("-m", ""); ("--i", "mesh.in"); ("-c", "z")], ["tail"])
  /\ Forall (fun p => In (fst p) ["-h"; "-m"; "-s"; "-d"; "-e"; "-j"; "-r";
                                  "-i"; "-c"; "--i"; "--c"])
            [("-r", ""); ("-e", ""); ("-m", ""); ("--i", "mesh.in"); ("-c", "z")].
Proof.
  split; [reflexivity|].
  apply (parsed_option_names ["-rem"; "--i=mesh.in"; "-cz"; "tail"] _ ["tail"]).
  reflexivity.
Defined.

(** X2.  When [read_args] returns, it has printed nothing and the
    configuration is a function of the parsed options alone: each switch is
    set exactly when its short option occurs (any number of times, anywhere),
    the input file and the cut axis are the arguments of the last [-i]/[--i]
    and the last [-c]/[--c], the cut axis defaulting to [x]; [-h] does not
    occur and the input file exists. *)
Theorem read_args_config (fs : Os.filesystem) (argv out : list string) (c : config) :
  read_args fs argv = (out, Ret c) ->
  exists opts args,
    getopt argv shortopts longopts = Ok (opts, args)
    /\ given "-h" opts = false
    /\ out = []
    /\ Os.isfile fs (inputfile c) = true
    /\ c = {| inputfile := last_value ["-i"; "--i"] "" opts;
              mplot := given "-m" opts;
              splot := given "-s" opts;
              cut3d := last_value ["-c"; "--c"] "x" opts;
              degen := given "-d" opts;
              eigen := given "-e" opts;
              order := given "-r" opts;
              psplt := given "-j" opts |}.
Proof.
  intros R. pose proof (read_args_returns_silently fs argv out c R) as ->.
  destruct (getopt argv shortopts longopts) as [[opts args]|m o] eqn:G;
    [|rewrite (read_args_usage fs argv m o G) in R; discriminate R].
  exists opts, args. split; [reflexivity|].
  destruct (has_help opts) eqn:Hh;
    [rewrite (read_args_help fs argv opts args G Hh) in R; discriminate R|].
  split; [exact Hh|]. split; [reflexivity|].
  destruct (read_args_no_help fs argv opts args G Hh) as (c0 & F & Hi & R').
  rewrite R' in R. destruct (Os.isfile fs (named_input opts)) eqn:I; [|discriminate R].
  inversion R; subst c0. split; [rewrite Hi; exact I|].
  assert (N : Forall (fun p => mem (fst p) option_names = true) opts).
  { unfold getopt in G. apply getopt_loop_name in G; [exact G | constructor]. }
  apply (for_opts_config opts N defaults [] c F).
Qed.

Lemma read_args_config_witness :
  read_args fs ["-r"; "-i"; "other.in"; "-r"; "--c=q"; "-i"; "mesh.in"; "-cz"]
  = ([], Ret {| inputfile := "mesh.in"; mplot := false; splot := false; cut3d := "z";
                degen := false; eigen := false; order := true; psplt := false |})
  /\ exists opts args,
       getopt ["-r"; "-i"; "other.in"; "-r"; "--c=q"; "-i"; "mesh.in"; "-cz"]
              shortopts longopts = Ok (opts, args)
       /\ given "-h" opts = false
       /\ ([] : list string) = []
       /\ Os.isfile fs "mesh.in" = true
       /\ {| inputfile := "mesh.in"; mplot := false; splot := false; cut3d := "z";
             degen := false; eigen := false; order := true; psplt := false |}
          = {| inputfile := last_value ["-i"; "--i"] "" opts;
               mplot := given "-m" opts;
               splot := given "-s" opts;
               cut3d := last_value ["-c"; "--c"] "x" opts;
               degen := given "-d" opts;
               eigen := given "-e" opts;
               order := given "-r" opts;
               psplt := given "-j" opts |}.
Proof.
  split; [reflexivity|].
  apply (read_args_config fs
           ["-r"; "-i"; "other.in"; "-r"; "--c=q"; "-i"; "mesh.in"; "-cz"] []
           {| inputfile := "mesh.in"; mplot := false; splot := false; cut3d := "z";
              degen := false; eigen := false; order := true; psplt := false |}).
  reflexivity.
Defined.

(** X3.  A command line made of whole options parses to the options it
    spells, in order, and parsing goes on with what follows: bundled flags
    count one by one, a value option takes its value attached or from the next
    argument, whatever that argument looks like. *)
Theorem option_words_parse (ws : list string) (opts : optlist) (rest : list string) :
  option_words ws opts ->
  getopt ws shortopts longopts = Ok (opts, [])
  /\ getopt (ws ++ rest) shortopts longopts
     = prepend opts (getopt rest shortopts longopts).
Proof.
  intros Hw. split; [|apply words_parse, Hw].
  rewrite <- (app_nil_r ws) at 1.
  rewrite (words_parse ws opts [] Hw), getopt_nil.
  cbn [prepend]. rewrite app_nil_r. reflexivity.
Qed.

Lemma option_words_parse_witness :
  option_words ["-rei"; "-h"; "--c=q"] [("-r", ""); ("-e", ""); ("-i", "-h"); ("--c", "q")]
  /\ getopt ["-rei"; "-h"; "--c=q"] shortopts longopts
     = Ok ([("-r", ""); ("-e", ""); ("-i", "-h"); ("--c", "q")], [])
  /\ getopt (["-rei"; "-h"; "--c=q"] ++ ["mesh.in"; "-m"]) shortopts longopts
     = Ok ([("-r", ""); ("-e", ""); ("-i", "-h"); ("--c", "q")], ["mesh.in"; "-m"]).
Proof.
  assert (H : option_words ["-rei"; "-h"; "--c=q"]
                           [("-r", ""); ("-e", ""); ("-i", "-h"); ("--c", "q")]).
  { apply (words_short_separate "re" "i" "-h" ["--c=q"] [("--c", "q")]);
      [reflexivity | reflexivity |].
    apply (words_long_attached "c" "q" [] []); [reflexivity | constructor]. }
  split; [exact H|].
  destruct (option_words_parse _ _ ["mesh.in"; "-m"] H) as [H1 H2].
  split; [exact H1|]. rewrite H2. reflexivity.
Defined.

(** X4.  Parsing stops at the first argument that is not an option (one that
    does not start with a dash, a lone dash, or [--]): after whole options,
    that argument and everything behind it, options included, change nothing
    of what the program does. *)
Theorem arguments_after_the_options_are_ignored {T D S E : Type} {num : Scalar T}
        (W : collaborators T D S E) (fs : Os.filesystem)
        (ws : list string) (opts : optlist) (a : string) (rest : list string) :
  option_words ws opts ->
  ends_options a = true ->
  read_args fs (ws ++ a :: rest) = read_args fs ws
  /\ laplace W fs (ws ++ a :: rest) = laplace W fs ws.
Proof.
  intros Hw Ha.
  assert (R : read_args fs (ws ++ a :: rest) = read_args fs ws).
  { destruct (getopt_ends_options a rest Ha) as (args & G).
    apply (read_args_same_options fs _ _ (opts ++ []) args []).
    - rewrite (words_parse ws opts _ Hw), G. reflexivity.
    - rewrite <- (app_nil_r ws) at 1.
      rewrite (words_parse ws opts [] Hw), getopt_nil. reflexivity. }
  split; [exact R|]. unfold laplace. rewrite R. reflexivity.
Qed.

Lemma arguments_after_the_options_are_ignored_witness :
  option_words ["-r"] [("-r", "")]
  /\ ends_options "mesh.in" = true
  /\ read_args fs (["-r"] ++ "mesh.in" :: ["-i"; "mesh.in"]) = read_args fs ["-r"]
  /\ laplace W3 fs (["-r"] ++ "mesh.in" :: ["-i"; "mesh.in"]) = laplace W3 fs ["-r"]
  /\ exit_status (laplace W3 fs ["-r"; "mesh.in"; "-i"; "mesh.in"]) = 3.
Proof.
  assert (H : option_words ["-r"] [("-r", "")]).
  { apply (words_flags "r" [] []); [discriminate | reflexivity | constructor]. }
  split; [exact H|]. split; [reflexivity|].
  destruct (arguments_after_the_options_are_ignored W3 fs ["-r"] [("-r", "")] "mesh.in"
              ["-i"; "mesh.in"] H eq_refl) as [R L].
  split; [exact R|]. split; [exact L|]. reflexivity.
Defined.

(** X5.  A value option without its value at the end of the command line
    ([-i], [-c], a bundle that ends in one, [--i], [--c]) is a usage error:
    after whole options, [-h] among them or not, the program prints the usage
    error and exits with 2. *)
Theorem missing_value_is_a_usage_error {T D S E : Type} {num : Scalar T}
        (W : collaborators T D S E) (fs : Os.filesystem)
        (ws : list string) (opts : optlist) (o : string) :
  option_words ws opts ->
  wants_value o ->
  laplace W fs (ws ++ [o]) = (map Stdout usage_error, Exit (Some 2))
  /\ exit_status (laplace W fs (ws ++ [o])) = 2.
Proof.
  intros Hw Ho.
  assert (G : exists m e, getopt (ws ++ [o]) shortopts longopts = GetoptError m e).
  { rewrite (words_parse ws opts _ Hw).
    destruct Ho as [cs ch Hc Hv | ch Hv].
    - destruct (getopt_short_missing cs ch Hc Hv) as (m & e & ->). simpl. eauto.
    - destruct (takes_value_cases ch Hv) as [-> | ->]; simpl; eauto. }
  destruct G as (m & e & G).
  rewrite (laplace_exits W fs _ _ _ (read_args_usage fs _ m e G)).
  split; reflexivity.
Qed.

Lemma missing_value_is_a_usage_error_witness :
  option_words ["-h"] [("-h", "")]
  /\ wants_value "-ri"
  /\ laplace W3 fs (["-h"] ++ ["-ri"]) = (map Stdout usage_error, Exit (Some 2))
  /\ exit_status (laplace W3 fs (["-h"] ++ ["-ri"])) = 2.
Proof.
  assert (H : option_words ["-h"] [("-h", "")]).
  { apply (words_flags "h" [] []); [discriminate | reflexivity | constructor]. }
  assert (H' : wants_value "-ri").
  { apply (wants_short "r" "i"); reflexivity. }
  split; [exact H|]. split; [exact H'|].
  apply (missing_value_is_a_usage_error W3 fs ["-h"] [("-h", "")] "-ri" H H').
Defined.

(** X6.  The only long options are [--i] and [--c]: after whole options, an
    argument [--name] or [--name=value] whose name is anything else,
    [--d], [--e], [--m], [--j], [--r], [--s] and [--h] included, is a usage
    error and the program exits with 2. *)
Theorem unknown_long_option_is_a_usage_error {T D S E : Type} {num : Scalar T}
        (W : collaborators T D S E) (fs : Os.filesystem)
        (ws : list string) (opts : optlist) (body : string) (rest : list string) :
  option_words ws opts ->
  body <> "" ->
  long_name body <> "i" ->
  long_name body <> "c" ->
  laplace W fs (ws ++ ("--" +++ body) :: rest) = (map Stdout usage_error, Exit (Some 2))
  /\ exit_status (laplace W fs (ws ++ ("--" +++ body) :: rest)) = 2.
Proof.
  intros Hw Hb Hi Hc.
  assert (G : exists m e,
             getopt (ws ++ ("--" +++ body) :: rest) shortopts longopts = GetoptError m e).
  { rewrite (words_parse ws opts _ Hw), (getopt_long_word body rest Hb).
    destruct (do_longs_unknown [] body rest Hi Hc) as (m & e & ->). simpl. eauto. }
  destruct G as (m & e & G).
  rewrite (laplace_exits W fs _ _ _ (read_args_usage fs _ m e G)).
  split; reflexivity.
Qed.

Lemma unknown_long_option_is_a_usage_error_witness :
  option_words ["-i"; "mesh.in"] [("-i", "mesh.in")]
  /\ "d" <> ""
  /\ long_name "d" <> "i"
  /\ long_name "d" <> "c"
  /\ laplace W3 fs (["-i"; "mesh.in"] ++ ("--" +++ "d") :: [])
     = (map Stdout usage_error, Exit (Some 2))
  /\ exit_status (laplace W3 fs (["-i"; "mesh.in"] ++ ("--" +++ "d") :: [])) = 2.
Proof.
  assert (H : option_words ["-i"; "mesh.in"] [("-i", "mesh.in")]).
  { apply (words_short_separate "" "i" "mesh.in" [] []);
      [reflexivity | reflexivity | constructor]. }
  split; [exact H|]. split; [discriminate|]. split; [discriminate|].
  split; [discriminate|].
  apply (unknown_long_option_is_a_usage_error W3 fs ["-i"; "mesh.in"] [("-i", "mesh.in")]
           "d" [] H); discriminate.
Defined.

End Syntax.

(** * More on the pipeline *)

Module AssembleFacts.
Import PyStr PyGetopt Eff Cli Driver.
Import EffFacts CliFacts OrderFacts RunFacts TraceFacts.
Local Open Scope Z_scope.

Section Assemble.
Context {T D S E : Type} {num : Scalar T}.
Variable W : collaborators T D S E.

Abbreviation ev := (@event T D S).

Lemma getitem_dict_get (d : list (string * D)) key :
  (getitem d key : M ev D)
  = match dict_get d key with
    | Some v => ([], Ret v)
    | None => ([], Raise "KeyError")
    end.
Proof.
  induction d as [|[k v] d IH]; [reflexivity|].
  cbn [getitem dict_get]. destruct (String.eqb k key); [reflexivity | exact IH].
Qed.

Lemma mesh_axis_run ndims k rdict axis :
  mesh_axis W ndims k rdict axis
  = if k <? ndims then
      match dict_get rdict axis with
      | Some d => ([GenerateMesh d], Ret (Some (generate_mesh W d)))
      | None => ([], Raise "KeyError")
      end
    else ([], Ret None).
Proof.
  unfold mesh_axis. rewrite getitem_dict_get.
  destruct (k <? ndims); [|reflexivity]. destruct (dict_get rdict axis); reflexivity.
Qed.

(** Without an assembled system nothing is solved. *)
Lemma solve_and_report_unbound c casename ndims x y z :
  solve_and_report W c casename ndims x y z None = ([], Raise "UnboundLocalError").
Proof.
  unfold solve_and_report, reorder_or_identity.
  destruct (order c); [|reflexivity].
  destruct (ndims =? 1); [reflexivity|].
  destruct (ndims =? 2); [reflexivity|].
  destruct (ndims =? 3); reflexivity.
Qed.

(** The assembly, dimension by dimension. *)
Lemma assemble_run c casename ndims rdict :
  parse_meshfile W (inputfile c) = (casename, ndims, rdict) ->
  assemble W c
  = bind (emit (ParseMeshfile (inputfile c)))
         (fun _ =>
            x <- mesh_axis W ndims 0 rdict "x" ;;
            y <- mesh_axis W ndims 1 rdict "y" ;;
            z <- mesh_axis W ndims 2 rdict "z" ;;
            ab <- matrix_and_rhs W (degen c) ndims rdict x y z ;;
            ret (casename, ndims, x, y, z, ab))%eff.
Proof. intros H. unfold assemble. rewrite H. reflexivity. Qed.

Lemma assembles_when_described c casename ndims rdict :
  parse_meshfile W (inputfile c) = (casename, ndims, rdict) ->
  describes_case ndims rdict = true ->
  exists tr x y z A b,
    assemble W c = (tr, Ret (casename, ndims, x, y, z, Some (A, b))).
Proof.
  intros Hp Hd. rewrite (assemble_run c casename ndims rdict Hp).
  unfold describes_case, has_key in Hd.
  unfold matrix_and_rhs. rewrite !mesh_axis_run, !getitem_dict_get.
  destruct (Z.eqb_spec ndims 1) as [->|N1];
    [|destruct (Z.eqb_spec ndims 2) as [->|N2];
      [|destruct (Z.eqb_spec ndims 3) as [->|N3]; [|discriminate Hd]]];
    cbn [Z.ltb Z.compare Z.eqb Pos.compare Pos.compare_cont Pos.eqb andb orb] in *;
    destruct (dict_get rdict "x"), (dict_get rdict "y"), (dict_get rdict "z"),
      (dict_get rdict "force"); try discriminate Hd;
    cbn;
    match goal with
    | |- context [Some (?m)] =>
        match m with
        | matvec_1d _ _ _ _ _ => destruct m as [A b]
        | matvec_2d _ _ _ _ _ _ _ => destruct m as [A b]
        | matvec_3d _ _ _ _ _ _ _ _ _ => destruct m as [A b]
        end
    end;
    repeat eexists; reflexivity.
Qed.

Lemma described_when_assembled c tr casename ndims rdict cn nd x y z A b :
  parse_meshfile W (inputfile c) = (casename, ndims, rdict) ->
  assemble W c = (tr, Ret (cn, nd, x, y, z, Some (A, b))) ->
  describes_case ndims rdict = true.
Proof.
  intros Hp. rewrite (assemble_run c casename ndims rdict Hp).
  unfold describes_case, has_key.
  unfold matrix_and_rhs. rewrite !mesh_axis_run, !getitem_dict_get.
  destruct (Z.eqb_spec ndims 1) as [->|N1];
    [|destruct (Z.eqb_spec ndims 2) as [->|N2];
      [|destruct (Z.eqb_spec ndims 3) as [->|N3]]];
    cbn [Z.ltb Z.compare Z.eqb Pos.compare Pos.compare_cont Pos.eqb andb orb];
    try (destruct (0 <? ndims), (1 <? ndims), (2 <? ndims));
    destruct (dict_get rdict "x"), (dict_get rdict "y"), (dict_get rdict "z"),
      (dict_get rdict "force");
    cbn; intros H; try discriminate H; reflexivity.
Qed.

Lemma assemble_inv c tr casename ndims rdict cn nd x y z ab :
  parse_meshfile W (inputfile c) = (casename, ndims, rdict) ->
  assemble W c = (tr, Ret (cn, nd, x, y, z, ab)) ->
  cn = casename /\ nd = ndims
  /\ (x = None <-> ndims <= 0) /\ (y = None <-> ndims <= 1) /\ (z = None <-> ndims <= 2).
Proof.
  intros Hp. rewrite (assemble_run c casename ndims rdict Hp).
  rewrite !mesh_axis_run.
  remember (matrix_and_rhs W (degen c) ndims rdict) as MR.
  destruct (Z.ltb_spec 0 ndims), (Z.ltb_spec 1 ndims), (Z.ltb_spec 2 ndims);
    destruct (dict_get rdict "x"), (dict_get rdict "y"), (dict_get rdict "z");
    cbn [bind emit ret app fst snd];
    try discriminate;
    match goal with
    | |- context [MR ?a ?b ?c] => destruct (MR a b c) as [t [ab'|code|exc]]
    end;
    intros K; inversion K; subst;
    repeat split; intros; try discriminate; try reflexivity; lia.
Qed.

(** Two configurations that differ in the plotting options only assemble
    alike. *)
Lemma assemble_agree c c' :
  inputfile c = inputfile c' -> degen c = degen c' -> assemble W c = assemble W c'.
Proof. intros Hi Hd. unfold assemble. rewrite Hi, Hd. reflexivity. Qed.

Lemma run_unassembled c tr cn nd x y z :
  assemble W c = (tr, Ret (cn, nd, x, y, z, None)) ->
  run W c = (tr, Raise "UnboundLocalError").
Proof.
  intros H. unfold run. rewrite H, bind_events. cbn beta iota.
  rewrite solve_and_report_unbound. cbn [fst snd]. rewrite app_nil_r. reflexivity.
Qed.

Lemma run_raised c tr exc :
  assemble W c = (tr, Raise exc) -> run W c = (tr, Raise exc).
Proof. intros H. unfold run. rewrite H. reflexivity. Qed.

Lemma non_plots_app (t1 t2 : list ev) : non_plots (t1 ++ t2) = non_plots t1 ++ non_plots t2.
Proof. apply flat_map_app. Qed.

Lemma non_plots_plot_events c ndims x y z a s st :
  non_plots (plot_events c ndims x y z a s st : list ev) = [].
Proof.
  unfold plot_events.
  destruct (splot c), (mplot c), (ndims =? 1), (ndims =? 2), (ndims =? 3), x, y, z;
    reflexivity.
Qed.

Lemma non_plots_tail {A} (r : result A) c ndims x y z a s st :
  non_plots (match r with
             | Ret _ => plot_events c ndims x y z a s st
             | _ => []
             end : list ev) = [].
Proof. destruct r; [apply non_plots_plot_events | reflexivity | reflexivity]. Qed.

Lemma plot_events_cut3d v c ndims x y z a s st :
  (ndims =? 3) = false ->
  (plot_events (set_cut3d v c) ndims x y z a s st : list ev)
  = plot_events c ndims x y z a s st.
Proof. intros H. unfold plot_events. rewrite H. reflexivity. Qed.

Lemma meshes_app (t1 t2 : list ev) : meshes (t1 ++ t2) = meshes t1 ++ meshes t2.
Proof. apply flat_map_app. Qed.

Lemma assemblies_app (t1 t2 : list ev) :
  assemblies (t1 ++ t2) = assemblies t1 ++ assemblies t2.
Proof. apply flat_map_app. Qed.

Lemma meshes_nil lo hi (tr : list ev) :
  in_order lo hi tr -> (1 < lo \/ hi < 1)%nat -> meshes tr = [].
Proof.
  intros; eapply (reading_nil _ 1%nat); [| eassumption | assumption].
  intros [] Hne; try (exfalso; apply Hne; reflexivity); eexists; split; reflexivity.
Qed.

Lemma assemblies_nil lo hi (tr : list ev) :
  in_order lo hi tr -> (2 < lo \/ hi < 2)%nat -> assemblies tr = [].
Proof.
  intros; eapply (reading_nil _ 2%nat); [| eassumption | assumption].
  intros [] Hne; try (exfalso; apply Hne; reflexivity); eexists; split; reflexivity.
Qed.

(** What the assembly of a described case does: a mesh for each axis in use,
    from its entry, then one call to the assembler. *)
Lemma assemble_described c casename ndims rdict :
  parse_meshfile W (inputfile c) = (casename, ndims, rdict) ->
  describes_case ndims rdict = true ->
  map Some (meshes (fst (assemble W c)))
  = map (dict_get rdict) (firstn (Z.to_nat ndims) ["x"; "y"; "z"])
  /\ List.length (assemblies (fst (assemble W c))) = 1%nat.
Proof.
  intros Hp Hd. rewrite (assemble_run c casename ndims rdict Hp).
  unfold describes_case, has_key in Hd.
  unfold matrix_and_rhs. rewrite !mesh_axis_run, !getitem_dict_get.
  destruct (Z.eqb_spec ndims 1) as [->|N1];
    [|destruct (Z.eqb_spec ndims 2) as [->|N2];
      [|destruct (Z.eqb_spec ndims 3) as [->|N3]; [|discriminate Hd]]];
    cbn [Z.ltb Z.compare Z.eqb Pos.compare Pos.compare_cont Pos.eqb andb orb] in *;
    destruct (dict_get rdict "x") eqn:Ex, (dict_get rdict "y") eqn:Ey,
      (dict_get rdict "z") eqn:Ez, (dict_get rdict "force") eqn:Ef;
    try discriminate Hd;
    try change (Z.to_nat 1) with 1%nat; try change (Z.to_nat 2) with 2%nat;
    try change (Z.to_nat 3) with 3%nat;
    cbn; rewrite ?Ex, ?Ey, ?Ez; split; reflexivity.
Qed.

(** What it does of a case that is not described: meshes at most, then a
    missing key or, past the dimensions the driver knows, no system. *)
Lemma assemble_undescribed c casename ndims rdict :
  parse_meshfile W (inputfile c) = (casename, ndims, rdict) ->
  describes_case ndims rdict = false ->
  in_order 1 1 (fst (assemble W c))
  /\ (snd (assemble W c) = Raise "KeyError"
      \/ exists x y z, snd (assemble W c) = Ret (casename, ndims, x, y, z, None)).
Proof.
  intros Hp Hd. rewrite (assemble_run c casename ndims rdict Hp).
  unfold describes_case, has_key in Hd.
  unfold matrix_and_rhs. rewrite !mesh_axis_run, !getitem_dict_get.
  destruct (Z.eqb_spec ndims 1) as [->|N1];
    [|destruct (Z.eqb_spec ndims 2) as [->|N2];
      [|destruct (Z.eqb_spec ndims 3) as [->|N3]]];
    cbn [Z.ltb Z.compare Z.eqb Pos.compare Pos.compare_cont Pos.eqb andb orb] in *;
    try (destruct (0 <? ndims), (1 <? ndims), (2 <? ndims));
    destruct (dict_get rdict "x"), (dict_get rdict "y"), (dict_get rdict "z"),
      (dict_get rdict "force"); try discriminate Hd;
    (split; [unfold in_order; cbn; split; repeat constructor
            | cbn; first [left; reflexivity | right; eauto]]).
Qed.

Lemma describes_case_dims ndims (rdict : list (string * D)) :
  describes_case ndims rdict = true -> ndims = 1 \/ ndims = 2 \/ ndims = 3.
Proof.
  unfold describes_case.
  destruct (Z.eqb_spec ndims 1), (Z.eqb_spec ndims 2), (Z.eqb_spec ndims 3); auto.
  discriminate.
Qed.

End Assemble.
End AssembleFacts.

Module Assembly.
Import PyStr PyGetopt Eff Cli Driver TestWorld.
Import EffFacts CliFacts OrderFacts RunFacts TraceFacts AssembleFacts.
Local Open Scope Z_scope.

(** X7.  When the mesh file describes a case (one to three dimensions, an
    entry for each axis in use and one for the force), the run generates a
    mesh for exactly the axes in use, in the order x, y, z and from their
    entries (the entries of the other axes are never read), calls the
    assembler once and the solver once, and saves once in each format. *)
Theorem described_case_is_solved {T D S E : Type} {num : Scalar T}
        (W : collaborators T D S E) (fs : Os.filesystem) (argv out : list string)
        (c : config) casename ndims rdict :
  read_args fs argv = (out, Ret c) ->
  parse_meshfile W (inputfile c) = (casename, ndims, rdict) ->
  describes_case ndims rdict = true ->
  map Some (meshes (fst (laplace W fs argv)))
  = map (dict_get rdict) (firstn (Z.to_nat ndims) ["x"; "y"; "z"])
  /\ List.length (assemblies (fst (laplace W fs argv))) = 1%nat
  /\ List.length (solves (fst (laplace W fs argv))) = 1%nat
  /\ List.length (saved_npz (fst (laplace W fs argv))) = 1%nat
  /\ List.length (saved_bin (fst (laplace W fs argv))) = 1%nat.
Proof.
  intros Hc Hp Hd. rewrite (laplace_configured W fs argv out c Hc).
  destruct (assembles_when_described W c casename ndims rdict Hp Hd)
    as (tr0 & x & y & z & A & b & Ha).
  destruct (assemble_described W c casename ndims rdict Hp Hd) as [Hm Hn].
  destruct (run_readings W c tr0 casename ndims x y z A b Ha)
    as (nx & ny & nz & q & a & b' & _ & _ & _ & Hso & _ & Hnpz & Hbin & _).
  rewrite Hbin, Hnpz, Hso.
  assert (R : fst (run W c)
              = fst (assemble W c) ++ fst (solve_and_report W c casename ndims x y z
                                                            (Some (A, b)))).
  { unfold run. rewrite Ha, bind_events. reflexivity. }
  pose proof (solve_and_report_order W c casename ndims x y z (Some (A, b))) as O.
  rewrite R, meshes_app, assemblies_app.
  rewrite (meshes_nil 3 7 _ O), (assemblies_nil 3 7 _ O), !app_nil_r by lia.
  repeat split; assumption || reflexivity.
Qed.

Lemma described_case_is_solved_witness :
  read_args fs ["-i"; "mesh.in"]
  = ([], Ret plain)
  /\ parse_meshfile W3 (inputfile plain) = ("case", 1, [("x", [0; 1; 2]); ("force", b3)])
  /\ describes_case 1 [("x", [0; 1; 2]); ("force", b3)] = true
  /\ map Some (meshes (fst (laplace W3 fs ["-i"; "mesh.in"])))
     = map (dict_get [("x", [0; 1; 2]); ("force", b3)]) (firstn (Z.to_nat 1) ["x"; "y"; "z"])
  /\ List.length (assemblies (fst (laplace W3 fs ["-i"; "mesh.in"]))) = 1%nat
  /\ List.length (solves (fst (laplace W3 fs ["-i"; "mesh.in"]))) = 1%nat
  /\ List.length (saved_npz (fst (laplace W3 fs ["-i"; "mesh.in"]))) = 1%nat
  /\ List.length (saved_bin (fst (laplace W3 fs ["-i"; "mesh.in"]))) = 1%nat.
Proof.
  split; [reflexivity|]. split; [reflexivity|]. split; [reflexivity|].
  apply (described_case_is_solved W3 fs ["-i"; "mesh.in"] [] plain "case" 1
           [("x", [0; 1; 2]); ("force", b3)]); reflexivity.
Defined.

(** X8.  When the mesh file does not describe a case (a dimension other than
    1, 2, 3, or a missing entry for an axis in use or for the force), the run
    ends in an uncaught [KeyError] or [UnboundLocalError], with exit status
    1, after the mesh stage at most: the assembler and the solver are not
    called, nothing is saved and nothing is plotted. *)
Theorem undescribed_case_raises {T D S E : Type} {num : Scalar T}
        (W : collaborators T D S E) (fs : Os.filesystem) (argv out : list string)
        (c : config) casename ndims rdict :
  read_args fs argv = (out, Ret c) ->
  parse_meshfile W (inputfile c) = (casename, ndims, rdict) ->
  describes_case ndims rdict = false ->
  (snd (laplace W fs argv) = Raise "KeyError"
   \/ snd (laplace W fs argv) = Raise "UnboundLocalError")
  /\ exit_status (laplace W fs argv) = 1
  /\ assemblies (fst (laplace W fs argv)) = []
  /\ solves (fst (laplace W fs argv)) = []
  /\ saved_npz (fst (laplace W fs argv)) = []
  /\ saved_bin (fst (laplace W fs argv)) = []
  /\ plots (fst (laplace W fs argv)) = [].
Proof.
  intros Hc Hp Hd. rewrite (laplace_configured W fs argv out c Hc).
  destruct (assemble_undescribed W c casename ndims rdict Hp Hd) as [O Hr].
  destruct (assemble W c) as [tr r] eqn:Ha. cbn [fst snd] in *.
  assert (R : fst (run W c) = tr
              /\ (snd (run W c) = Raise "KeyError"
                  \/ snd (run W c) = Raise "UnboundLocalError")).
  { destruct Hr as [-> | (x & y & z & ->)].
    - rewrite (run_raised W c tr _ Ha). auto.
    - rewrite (run_unassembled W c tr _ _ _ _ _ Ha). auto. }
  destruct R as [Rt Rs]. rewrite Rt.
  split; [exact Rs|].
  split; [unfold exit_status; destruct Rs as [-> | ->]; reflexivity|].
  rewrite (assemblies_nil 1 1 tr O), (solves_nil 1 1 tr O), (saved_npz_nil 1 1 tr O),
    (saved_bin_nil 1 1 tr O), (plots_nil 1 1 tr O) by lia.
  repeat split.
Qed.

Lemma undescribed_case_raises_witness :
  read_args fs ["-i"; "mesh.in"] = ([], Ret plain)
  /\ parse_meshfile (world_of_case 2 [("x", [0; 1]); ("force", b2)] A2 b2) (inputfile plain)
     = ("case", 2, [("x", [0; 1]); ("force", b2)])
  /\ describes_case 2 [("x", [0; 1]); ("force", b2)] = false
  /\ laplace (world_of_case 2 [("x", [0; 1]); ("force", b2)] A2 b2) fs ["-i"; "mesh.in"]
     = ([ParseMeshfile "mesh.in"; GenerateMesh [0; 1]], Raise "KeyError")
  /\ exit_status
       (laplace (world_of_case 2 [("x", [0; 1]); ("force", b2)] A2 b2) fs ["-i"; "mesh.in"])
     = 1.
Proof.
  split; [reflexivity|]. split; [reflexivity|]. split; [reflexivity|].
  split; [reflexivity|].
  apply (undescribed_case_raises (world_of_case 2 [("x", [0; 1]); ("force", b2)] A2 b2)
           fs ["-i"; "mesh.in"] [] plain "case" 2 [("x", [0; 1]); ("force", b2)]);
    reflexivity.
Defined.

(** X9.  A mesh file of dimension zero or less reads no entry and generates
    no mesh: right after [parse_meshfile] the run ends in an uncaught
    [UnboundLocalError], the matrix never having been assigned. *)
Theorem nonpositive_dimension_is_unbound {T D S E : Type} {num : Scalar T}
        (W : collaborators T D S E) (fs : Os.filesystem) (argv out : list string)
        (c : config) casename ndims rdict :
  read_args fs argv = (out, Ret c) ->
  parse_meshfile W (inputfile c) = (casename, ndims, rdict) ->
  ndims <= 0 ->
  laplace W fs argv = ([ParseMeshfile (inputfile c)], Raise "UnboundLocalError").
Proof.
  intros Hc Hp Hn. rewrite (laplace_configured W fs argv out c Hc).
  apply (run_unassembled W c _ casename ndims None None None).
  rewrite (assemble_run W c casename ndims rdict Hp), !mesh_axis_run.
  unfold matrix_and_rhs.
  destruct (Z.ltb_spec 0 ndims); [lia|].
  destruct (Z.ltb_spec 1 ndims); [lia|].
  destruct (Z.ltb_spec 2 ndims); [lia|].
  destruct (Z.eqb_spec ndims 1); [lia|].
  destruct (Z.eqb_spec ndims 2); [lia|].
  destruct (Z.eqb_spec ndims 3); [lia|].
  reflexivity.
Qed.

Lemma nonpositive_dimension_is_unbound_witness :
  read_args fs ["-i"; "mesh.in"; "-r"] = ([], Ret with_reorder)
  /\ parse_meshfile (world_of_case 0 [] A2 b2) (inputfile with_reorder) = ("case", 0, [])
  /\ 0 <= 0
  /\ laplace (world_of_case 0 [] A2 b2) fs ["-i"; "mesh.in"; "-r"]
     = ([ParseMeshfile "mesh.in"], Raise "UnboundLocalError").
Proof.
  split; [reflexivity|]. split; [reflexivity|]. split; [lia|].
  apply (nonpositive_dimension_is_unbound (world_of_case 0 [] A2 b2) fs
           ["-i"; "mesh.in"; "-r"] [] with_reorder "case" 0 []);
    [reflexivity | reflexivity | lia].
Defined.

(** A diagnostics stage in a trace shows as a call to the eigenvalue routine
    or as a printed value. *)
Lemma diagnostics_show {T D S : Type} (tr : list (@event T D S)) :
  In Diagnostics (stages tr) -> eigvals_args tr <> [] \/ printed_values tr <> [].
Proof.
  induction tr as [|e tr IH]; [intros []|].
  unfold stages, eigvals_args, printed_values. cbn [flat_map]. intros H.
  apply in_app_or in H. destruct H as [H|H].
  - destruct e; cbn in H; try (destruct H as [H|[]]; discriminate H); try contradiction;
      [right | left]; discriminate.
  - destruct (IH H) as [K|K]; [left | right]; intros N;
      apply app_eq_nil in N; destruct N as [_ N]; exact (K N).
Qed.

(** X10.  Without [-e] the eigen analysis is left out of every run, whether
    or not it assembles its system and however it ends: the eigenvalue
    routine is not called and no diagnostic is printed. *)
Theorem diagnostics_only_on_request {T D S E : Type} {num : Scalar T}
        (W : collaborators T D S E) (fs : Os.filesystem) (argv out : list string)
        (c : config) :
  read_args fs argv = (out, Ret c) ->
  eigen c = false ->
  eigvals_args (fst (laplace W fs argv)) = []
  /\ printed_values (fst (laplace W fs argv)) = []
  /\ ~ In Diagnostics (stages (fst (laplace W fs argv))).
Proof.
  intros Hc He. rewrite (laplace_configured W fs argv out c Hc).
  assert (H0 : eigvals_args (fst (run W c)) = [] /\ printed_values (fst (run W c)) = []).
  { pose proof (assemble_order W c) as Ho.
    destruct (assemble W c) as [tr0 [[[[[[cn nd] x] y] z] [[A b]|]]|code|exc]] eqn:Ha.
    - destruct (run_readings W c tr0 cn nd x y z A b Ha)
        as (nx & ny & nz & q & a & b' & _ & _ & _ & _ & _ & _ & _ & Hev & Hpv & _).
      rewrite Hev, Hpv, He, eigen_analysis_off. split; reflexivity.
    - rewrite (run_unassembled W c tr0 cn nd x y z Ha). cbn [fst] in *.
      split; [apply (eigvals_args_nil 1 2) | apply (printed_values_nil 1 2)];
        try exact Ho; lia.
    - unfold run. rewrite Ha. cbn [fst] in *.
      split; [apply (eigvals_args_nil 1 2) | apply (printed_values_nil 1 2)];
        try exact Ho; lia.
    - rewrite (run_raised W c tr0 exc Ha). cbn [fst] in *.
      split; [apply (eigvals_args_nil 1 2) | apply (printed_values_nil 1 2)];
        try exact Ho; lia. }
  destruct H0 as [Hev0 Hpv0]. split; [exact Hev0|]. split; [exact Hpv0|].
  intros Hin. destruct (diagnostics_show _ Hin) as [K|K]; [exact (K Hev0) | exact (K Hpv0)].
Qed.

Lemma diagnostics_only_on_request_witness :
  read_args fs ["-i"; "mesh.in"; "-r"] = ([], Ret with_reorder)
  /\ eigen with_reorder = false
  /\ eigvals_args (fst (laplace W3 fs ["-i"; "mesh.in"; "-r"])) = []
  /\ printed_values (fst (laplace W3 fs ["-i"; "mesh.in"; "-r"])) = []
  /\ ~ In Diagnostics (stages (fst (laplace W3 fs ["-i"; "mesh.in"; "-r"]))).
Proof.
  split; [reflexivity|]. split; [reflexivity|].
  apply (diagnostics_only_on_request W3 fs ["-i"; "mesh.in"; "-r"] [] with_reorder);
    reflexivity.
Defined.

(** Two runs whose configurations agree on everything but the plotting
    options: the same events up to the plots, the same end. *)
Lemma run_agree {T D S E : Type} {num : Scalar T} (W : collaborators T D S E)
      (c c' : config) :
  inputfile c = inputfile c' -> degen c = degen c' ->
  eigen c = eigen c' -> order c = order c' ->
  snd (run W c) = snd (run W c')
  /\ non_plots (fst (run W c)) = non_plots (fst (run W c'))
  /\ forall casename ndims rdict,
       parse_meshfile W (inputfile c) = (casename, ndims, rdict) ->
       (forall x y z a s st,
           (plot_events c' ndims x y z a s st : list (@event T D S))
           = plot_events c ndims x y z a s st) ->
       run W c' = run W c.
Proof.
  intros Hi Hd He Ho. pose proof (assemble_agree W c c' Hi Hd) as Ha'.
  destruct (assemble W c) as [tr0 [[[[[[cn nd] x] y] z] [[A b]|]]|code|exc]] eqn:Ha.
  - destruct (run_assembled W c tr0 cn nd x y z A b Ha)
      as (nx & ny & nz & q & a & b1 & Hx & Hs & Hrun).
    symmetry in Ha'.
    destruct (run_assembled W c' tr0 cn nd x y z A b Ha')
      as (nx' & ny' & nz' & q' & a' & b1' & Hx' & Hs' & Hrun').
    rewrite Hx in Hx'. inversion Hx'; subst nx' ny' nz'.
    rewrite <- Ho, Hs in Hs'. inversion Hs'; subst q' a' b1'.
    rewrite Hrun, Hrun'. rewrite <- Hd, <- He, <- Ho. cbn [fst snd].
    split; [reflexivity|]. split.
    + rewrite !non_plots_app, !non_plots_tail. reflexivity.
    + intros casename ndims rdict Hp Hpl.
      destruct (assemble_inv W c tr0 casename ndims rdict cn nd x y z _ Hp Ha)
        as (_ & -> & _).
      rewrite Hpl. reflexivity.
  - rewrite (run_unassembled W c tr0 cn nd x y z Ha).
    symmetry in Ha'. rewrite (run_unassembled W c' tr0 cn nd x y z Ha').
    repeat split; reflexivity.
  - unfold run. rewrite <- Ha', Ha. repeat split; reflexivity.
  - rewrite (run_raised W c tr0 exc Ha).
    symmetry in Ha'. rewrite (run_raised W c' tr0 exc Ha').
    repeat split; reflexivity.
Qed.

(** X11.  The plotting options ([-s], [-m], [-j], [-c]) change nothing but
    the plots: two command lines that give the same input file and the same
    [-d], [-e] and [-r] lead to runs with the same events, plots left aside
    (the same calls to the collaborators with the same data, the same status,
    the same saves), and the same end. *)
Theorem plotting_options_change_only_the_plots {T D S E : Type} {num : Scalar T}
        (W : collaborators T D S E) (fs : Os.filesystem)
        (argv argv' out out' : list string) (c c' : config) :
  read_args fs argv = (out, Ret c) ->
  read_args fs argv' = (out', Ret c') ->
  inputfile c = inputfile c' ->
  degen c = degen c' ->
  eigen c = eigen c' ->
  order c = order c' ->
  snd (laplace W fs argv) = snd (laplace W fs argv')
  /\ non_plots (fst (laplace W fs argv)) = non_plots (fst (laplace W fs argv')).
Proof.
  intros Hc Hc' Hi Hd He Ho.
  rewrite (laplace_configured W fs argv out c Hc),
    (laplace_configured W fs argv' out' c' Hc').
  destruct (run_agree W c c' Hi Hd He Ho) as (H1 & H2 & _). split; assumption.
Qed.

Lemma plotting_options_change_only_the_plots_witness :
  read_args fs ["-i"; "mesh.in"; "-r"] = ([], Ret with_reorder)
  /\ read_args fs ["-s"; "-m"; "-j"; "-cz"; "-r"; "-i"; "mesh.in"]
     = ([], Ret {| inputfile := "mesh.in"; mplot := true; splot := true; cut3d := "z";
                   degen := false; eigen := false; order := true; psplt := true |})
  /\ snd (laplace W3 fs ["-i"; "mesh.in"; "-r"])
     = snd (laplace W3 fs ["-s"; "-m"; "-j"; "-cz"; "-r"; "-i"; "mesh.in"])
  /\ non_plots (fst (laplace W3 fs ["-i"; "mesh.in"; "-r"]))
     = non_plots (fst (laplace W3 fs ["-s"; "-m"; "-j"; "-cz"; "-r"; "-i"; "mesh.in"]))
  /\ plots (fst (laplace W3 fs ["-s"; "-m"; "-j"; "-cz"; "-r"; "-i"; "mesh.in"]))
     = [PlotSol1d [0; 1; 2] [3; 4; 5] true; PlotMat [[2; 0; 0]; [0; 4; 0]; [0; 0; 1]] true].
Proof.
  split; [reflexivity|]. split; [reflexivity|].
  destruct (plotting_options_change_only_the_plots W3 fs
              ["-i"; "mesh.in"; "-r"] ["-s"; "-m"; "-j"; "-cz"; "-r"; "-i"; "mesh.in"]
              [] [] with_reorder
              {| inputfile := "mesh.in"; mplot := true; splot := true; cut3d := "z";
                 degen := false; eigen := false; order := true; psplt := true |}
              eq_refl eq_refl eq_refl eq_refl eq_refl eq_refl) as [H1 H2].
  split; [exact H1|]. split; [exact H2|]. reflexivity.
Defined.

(** X12.  The cut axis matters in three dimensions only: when the mesh file
    is not three-dimensional, two command lines whose configurations differ
    in the cut axis alone lead to the same run, event for event, whatever the
    value given to [-c]. *)
Theorem cut_axis_matters_in_three_dimensions_only {T D S E : Type} {num : Scalar T}
        (W : collaborators T D S E) (fs : Os.filesystem)
        (argv argv' out out' : list string) (c : config) (v : string)
        casename ndims rdict :
  read_args fs argv = (out, Ret c) ->
  read_args fs argv' = (out', Ret (set_cut3d v c)) ->
  parse_meshfile W (inputfile c) = (casename, ndims, rdict) ->
  ndims <> 3 ->
  laplace W fs argv' = laplace W fs argv.
Proof.
  intros Hc Hc' Hp Hn.
  rewrite (laplace_configured W fs argv out c Hc),
    (laplace_configured W fs argv' out' _ Hc').
  destruct (run_agree W c (set_cut3d v c) eq_refl eq_refl eq_refl eq_refl) as (_ & _ & H).
  apply (H casename ndims rdict Hp).
  intros x y z a s st. apply plot_events_cut3d. apply Z.eqb_neq, Hn.
Qed.

Lemma cut_axis_matters_in_three_dimensions_only_witness :
  read_args fs ["-i"; "mesh.in"; "-s"]
  = ([], Ret {| inputfile := "mesh.in"; mplot := false; splot := true; cut3d := "x";
                degen := false; eigen := false; order := false; psplt := false |})
  /\ read_args fs ["-i"; "mesh.in"; "-s"; "-c"; "q"]
     = ([], Ret (set_cut3d "q"
                   {| inputfile := "mesh.in"; mplot := false; splot := true; cut3d := "x";
                      degen := false; eigen := false; order := false; psplt := false |}))
  /\ parse_meshfile W3 "mesh.in" = ("case", 1, [("x", [0; 1; 2]); ("force", b3)])
  /\ 1 <> 3
  /\ laplace W3 fs ["-i"; "mesh.in"; "-s"; "-c"; "q"] = laplace W3 fs ["-i"; "mesh.in"; "-s"].
Proof.
  split; [reflexivity|]. split; [reflexivity|]. split; [reflexivity|].
  split; [discriminate|].
  apply (cut_axis_matters_in_three_dimensions_only W3 fs
           ["-i"; "mesh.in"; "-s"] ["-i"; "mesh.in"; "-s"; "-c"; "q"] [] []
           {| inputfile := "mesh.in"; mplot := false; splot := true; cut3d := "x";
              degen := false; eigen := false; order := false; psplt := false |}
           "q" "case" 1 [("x", [0; 1; 2]); ("force", b3)]);
    [reflexivity | reflexivity | reflexivity | discriminate].
Defined.

(** X13.  Under [-r], in a run that assembles its system, [reorder] is
    called exactly once, on the assembled matrix and right-hand side, with
    the number of points of each axis in use and 1 for each axis that is not:
    [y] and [z] are unused in one dimension, [z] in two. *)
Theorem reorder_is_given_the_axis_lengths {T D S E : Type} {num : Scalar T}
        (W : collaborators T D S E) (fs : Os.filesystem) (argv out : list string)
        (c : config) tr0 casename ndims x y z A b :
  read_args fs argv = (out, Ret c) ->
  assemble W c = (tr0, Ret (casename, ndims, x, y, z, Some (A, b))) ->
  order c = true ->
  reorders (fst (laplace W fs argv))
  = [(A, b, axis_extent x, axis_extent y, axis_extent z)]
  /\ 1 <= ndims <= 3
  /\ x <> None
  /\ (y = None <-> ndims = 1)
  /\ (z = None <-> ndims <= 2).
Proof.
  intros Hc Ha Ho. rewrite (laplace_configured W fs argv out c Hc).
  destruct (run_readings W c tr0 casename ndims x y z A b Ha)
    as (nx & ny & nz & q & a & b' & Hx & _ & Hr & _).
  rewrite Hr, Ho.
  destruct (parse_meshfile W (inputfile c)) as [[cn nd] rd] eqn:Hp.
  destruct (assemble_inv W c tr0 cn nd rd _ _ _ _ _ _ Hp Ha) as (_ & <- & Ix & Iy & Iz).
  pose proof (describes_case_dims ndims rd
                (described_when_assembled W c tr0 cn ndims rd _ _ _ _ _ _ _ Hp Ha)) as Hdim.
  assert (Hx0 : x <> None) by (intros N; apply Ix in N; lia).
  assert (Ex : (nx, ny, nz) = (axis_extent x, axis_extent y, axis_extent z)).
  { unfold extents in Hx.
    destruct Hdim as [-> | [-> | ->]]; cbn [Z.eqb Pos.eqb] in Hx.
    - assert (y = None) as -> by (apply Iy; lia).
      assert (z = None) as -> by (apply Iz; lia).
      destruct x; inversion Hx; reflexivity.
    - assert (z = None) as -> by (apply Iz; lia).
      destruct x, y; inversion Hx; reflexivity.
    - destruct x, y, z; inversion Hx; reflexivity. }
  inversion Ex; subst.
  split; [reflexivity|]. split; [lia|]. split; [exact Hx0|].
  split; [rewrite Iy; lia | exact Iz].
Qed.

Lemma reorder_is_given_the_axis_lengths_witness :
  read_args fs ["-i"; "mesh.in"; "-r"] = ([], Ret with_reorder)
  /\ assemble W3 with_reorder
     = (fst (assemble W3 with_reorder),
        Ret ("case", 1, Some [0; 1; 2], None, None, Some (A3, b3)))
  /\ order with_reorder = true
  /\ reorders (fst (laplace W3 fs ["-i"; "mesh.in"; "-r"])) = [(A3, b3, 3, 1, 1)].
Proof.
  split; [reflexivity|]. split; [reflexivity|]. split; [reflexivity|].
  destruct (reorder_is_given_the_axis_lengths W3 fs ["-i"; "mesh.in"; "-r"] [] with_reorder
              (fst (assemble W3 with_reorder)) "case" 1 (Some [0; 1; 2]) None None A3 b3
              eq_refl eq_refl eq_refl) as [H _].
  exact H.
Defined.

End Assembly.

Module Outcome.
Import PyStr PyGetopt Eff Cli Driver TestWorld.
Import EffFacts CliFacts OrderFacts RunFacts TraceFacts AssembleFacts NpFacts.
Local Open Scope Z_scope.

(** After the configuration a run returns or raises; it does not exit. *)
Lemma run_outcome {T D S E : Type} {num : Scalar T} (W : collaborators T D S E)
      (c : config) :
  snd (run W c) = Ret tt \/ exists exc, snd (run W c) = Raise exc.
Proof.
  destruct (parse_meshfile W (inputfile c)) as [[casename ndims] rdict] eqn:Hp.
  destruct (describes_case ndims rdict) eqn:Hd.
  - destruct (assembles_when_described W c casename ndims rdict Hp Hd)
      as (tr0 & x & y & z & A & b & Ha).
    destruct (run_assembled W c tr0 casename ndims x y z A b Ha)
      as (nx & ny & nz & q & a & b' & _ & _ & Hrun).
    rewrite Hrun. cbn [snd].
    destruct (eigen_analysis_outcome W (eigen c) a b') as [H|(_ & _ & H)]; eauto.
  - destruct (assemble_undescribed W c casename ndims rdict Hp Hd) as [_ Hr].
    destruct (assemble W c) as [tr r] eqn:Ha. cbn [snd] in Hr.
    destruct Hr as [-> | (x & y & z & ->)].
    + rewrite (run_raised W c tr _ Ha). right. eexists. reflexivity.
    + rewrite (run_unassembled W c tr _ _ _ _ _ Ha). right. eexists. reflexivity.
Qed.

(** X14.  The exit status tells how the program ended, without overlap: 2
    exactly when the command line does not parse; 3 exactly when it parses
    without [-h] and the input file does not exist; 1 exactly when an
    exception is raised, which happens only once the pipeline runs; 0 exactly
    when the help was asked for on a command line that parses, or the run
    completed. *)
Theorem exit_status_tells_the_outcome {T D S E : Type} {num : Scalar T}
        (W : collaborators T D S E) (fs : Os.filesystem) (argv : list string) :
  (exit_status (laplace W fs argv) = 2
   <-> exists m o, getopt argv shortopts longopts = GetoptError m o)
  /\ (exit_status (laplace W fs argv) = 3
      <-> exists opts args,
            getopt argv shortopts longopts = Ok (opts, args)
            /\ has_help opts = false
            /\ Os.isfile fs (named_input opts) = false)
  /\ (exit_status (laplace W fs argv) = 1
      <-> exists exc, snd (laplace W fs argv) = Raise exc)
  /\ (exit_status (laplace W fs argv) = 0
      <-> snd (laplace W fs argv) = Ret tt
          \/ exists opts args,
               getopt argv shortopts longopts = Ok (opts, args) /\ has_help opts = true).
Proof.
  assert (Fin : forall P Q : Prop, (P -> Q) -> (Q -> P) -> (P <-> Q)) by (intros; split; auto).
  destruct (getopt argv shortopts longopts) as [[opts args]|m o] eqn:G.
  - destruct (has_help opts) eqn:Hh.
    + rewrite (laplace_exits W fs argv _ _ (read_args_help fs argv opts args G Hh)).
      cbn. repeat apply conj; apply Fin; intros H;
        repeat match goal with
               | K : exists _, _ |- _ => destruct K
               | K : _ /\ _ |- _ => destruct K
               | K : _ \/ _ |- _ => destruct K
               end;
        try congruence; try reflexivity; right; eauto.
    + destruct (read_args_no_help fs argv opts args G Hh) as (c & _ & _ & R).
      destruct (Os.isfile fs (named_input opts)) eqn:I.
      * rewrite (laplace_configured W fs argv [] c R).
        unfold exit_status.
        destruct (run_outcome W c) as [-> | (exc & ->)];
          repeat apply conj; apply Fin; intros H;
          repeat match goal with
                 | K : exists _, _ |- _ => destruct K
                 | K : _ /\ _ |- _ => destruct K
                 | K : _ \/ _ |- _ => destruct K
                 end;
          try congruence; try reflexivity; eauto.
      * rewrite (laplace_exits W fs argv _ _ R).
        cbn. repeat apply conj; apply Fin; intros H;
          repeat match goal with
                 | K : exists _, _ |- _ => destruct K
                 | K : _ /\ _ |- _ => destruct K
                 | K : _ \/ _ |- _ => destruct K
                 end;
          try congruence; try reflexivity; eauto 6.
  - rewrite (laplace_exits W fs argv _ _ (read_args_usage fs argv m o G)).
    cbn. repeat apply conj; apply Fin; intros H;
      repeat match goal with
             | K : exists _, _ |- _ => destruct K
             | K : _ /\ _ |- _ => destruct K
             | K : _ \/ _ |- _ => destruct K
             end;
      try congruence; try reflexivity; eauto.
Qed.

(** X15.  The matrix of the eigen analysis is symmetric: for a square [a] of
    size [n], the entries [(i, j)] and [(j, i)] of [[0, a], [a^T, 0]] are
    equal, for all [i, j] below [2n]. *)
Theorem symmetrised_is_symmetric {T : Type} {num : Scalar T} (a : Np.matrix T)
        (n i j : nat) :
  Np.has_shape n n a ->
  (i < n + n)%nat ->
  (j < n + n)%nat ->
  Np.entry (symmetrised a) i j = Np.entry (symmetrised a) j i.
Proof.
  intros Ha Hi Hj. unfold symmetrised.
  assert (N : Np.nrows a = n) by apply Ha. rewrite N.
  rewrite !(entry_block n a) by assumption.
  destruct (Nat.ltb_spec i n), (Nat.ltb_spec j n); reflexivity.
Qed.

Lemma symmetrised_is_symmetric_witness :
  Np.has_shape 3 3 A3
  /\ (0 < 3 + 3)%nat
  /\ (4 < 3 + 3)%nat
  /\ Np.entry (symmetrised A3) 1 4 = 2
  /\ Np.entry (symmetrised A3) 1 4 = Np.entry (symmetrised A3) 4 1.
Proof.
  assert (H : Np.has_shape 3 3 A3).
  { split; [reflexivity|]. repeat constructor. }
  split; [exact H|]. split; [lia|]. split; [lia|]. split; [reflexivity|].
  apply (symmetrised_is_symmetric A3 3 1 4 H); lia.
Defined.

End Outcome.
